(** * Symbol resolution of icebox: the PDB backend, the RSDS scanner and the
      DWARF backend, embedded from [fdp_exec/sym/pdb.cpp] and
      [icebox/sym/dwarf.cpp]. *)

From Stdlib Require Import ZArith Lia List String Ascii DecimalString.
From stdpp Require Import gmap strings list fin_maps.

Import ListNotations.

(** ** Shared vocabulary *)

(** [uint64_t] arithmetic wraps modulo 2^64. *)
Definition u64 (z : Z) : Z := (z mod 2 ^ 64)%Z.

(** Storing a wider value in a 32-bit [int]. *)
Definition to_int32 (z : Z) : Z := ((z + 2 ^ 31) mod 2 ^ 32 - 2 ^ 31)%Z.

(** Modelled from the spec: [span_t] is declared in a header that is not
    among the sources. The spec has a span be the half-open runtime range
    [addr, addr+size); the sources read its field [addr]. A value-initialised
    span ([return {}]) is all zeroes. *)
Record span_t : Type := mk_span { addr : Z; size : Z }.

Definition span_default : span_t := mk_span 0 0.

(** Modelled from the spec: [sym::ModCursor] is declared in sym.hpp, which
    is not among the sources. [make_cursor] builds it from a name and a
    difference of addresses; the spec has the address lookup answer with a
    name and the offset into the symbol. *)
Record ModCursor : Type := mk_cursor { symbol : string; offset : Z }.

(** What a call produces: a returned value, or no defined behaviour at all
    (an iterator moved before [begin()], a read outside the known memory). *)
Inductive outcome (A : Type) : Type :=
| Ret (a : A)
| Undefined.
Arguments Ret {A} a.
Arguments Undefined {A}.

(** ** std::map<uint64_t, V>: an ordered table with unique keys *)

Module OrderedMap.
Abbreviation t V := (list (Z * V)) (only parsing).

Section Defs.
Context {V : Type}.
#[local] Abbreviation t := (list (Z * V)) (only parsing).

(** [emplace]: inserts at the sorted position, and leaves the table as it
    is when the key is already there. *)
Fixpoint emplace (k : Z) (v : V) (m : t) : t :=
  match m with
  | [] => [(k, v)]
  | (k', v') :: m' =>
      if (k <? k')%Z then (k, v) :: m
      else if (k =? k')%Z then m
      else (k', v') :: emplace k v m'
  end.

(** [lower_bound]: position of the first entry whose key is >= [k];
    the length of the table ([end()]) when there is none. *)
Fixpoint lower_bound (k : Z) (m : t) : nat :=
  match m with
  | [] => 0
  | (k', _) :: m' => if (k <=? k')%Z then 0 else S (lower_bound k m')
  end.

Fixpoint find (k : Z) (m : t) : option V :=
  match m with
  | [] => None
  | (k', v') :: m' => if (k =? k')%Z then Some v' else find k m'
  end.

(** Iterators: a forward iterator is a position, [end()] being the length;
    a reverse iterator holds its base position and designates the entry
    just before it ([rbegin()] has base [end()], [rend()] base [begin()]). *)
Inductive iter : Type :=
| Fwd (pos : nat)
| Rev (base : nat).

Definition iter_eqb (a b : iter) : bool :=
  match a, b with
  | Fwd i, Fwd j => Nat.eqb i j
  | Rev i, Rev j => Nat.eqb i j
  | _, _ => false
  end.

Definition deref (m : t) (it : iter) : option (Z * V) :=
  match it with
  | Fwd i => m !! i
  | Rev 0 => None
  | Rev (S i) => m !! i
  end.

Definition keys (m : t) : list Z := map fst m.

(** Keys strictly increase along the table. *)
Fixpoint sorted (m : t) : Prop :=
  match m with
  | [] => True
  | (k, _) :: m' => Forall (fun k' => (k < k')%Z) (keys m') /\ sorted m'
  end.
End Defs.
End OrderedMap.

(** ** The PDB backend (pdb.cpp) *)

Module Pdb.

(** [static const int BASE_ADDRESS = 0x80000000;] *)
Definition BASE_ADDRESS : Z := Eval cbv in to_int32 0x80000000.

(** The two fields of [pdb::PDBGlobalVariable] that the file uses. [address]
    is the numeric value of the field. *)
Record PDBGlobalVariable : Type := mk_var { name : string; address : Z }.

Inductive PDBFileState : Type :=
| PDB_STATE_OK
| PDB_STATE_ALREADY_LOADED
| PDB_STATE_ERR_FILE_OPEN
| PDB_STATE_INVALID_FILE
| PDB_STATE_UNSUPPORTED_VERSION.

(** The external parser as far as [setup] looks at it: what
    [load_pdb_file] answers and the global variables in iteration order. *)
Record PDBFile : Type := mk_file {
  load_pdb_file : PDBFileState;
  get_global_variables : list PDBGlobalVariable
}.

(** [to_string(pdb::PDBFileState)], on the values of the enumeration. *)
Definition to_string (x : PDBFileState) : string :=
  match x with
  | PDB_STATE_OK => "ok"
  | PDB_STATE_ALREADY_LOADED => "already_loaded"
  | PDB_STATE_ERR_FILE_OPEN => "err_file_open"
  | PDB_STATE_INVALID_FILE => "invalid_file"
  | PDB_STATE_UNSUPPORTED_VERSION => "unsupported_version"
  end.

Definition Symbols : Type := gmap string PDBGlobalVariable.
Definition SymbolsByOffset : Type := OrderedMap.t PDBGlobalVariable.

Record t : Type := mk_pdb {
  span_ : span_t;
  pdb_ : PDBFile;
  symbols_ : gmap string PDBGlobalVariable;
  symbols_by_offset : OrderedMap.t PDBGlobalVariable
}.

(** Constructor: stores the span, both tables start empty. *)
Definition ctor (file : PDBFile) (span : span_t) : t :=
  mk_pdb span file ∅ [].

(** [std::unordered_map::emplace]: no effect when the key is present. *)
Definition emplace {V : Type} (k : string) (v : V) (m : gmap string V)
  : gmap string V :=
  match m !! k with
  | Some _ => m
  | None => <[k := v]> m
  end.

(** [get_offset]: [pdb.span_.addr + var.address - BASE_ADDRESS] in uint64_t. *)
Definition offset_in (span : span_t) (var : PDBGlobalVariable) : Z :=
  u64 (addr span + address var - BASE_ADDRESS).

Definition get_offset (p : t) (var : PDBGlobalVariable) : Z :=
  offset_in (span_ p) var.

(** One turn of the loop of [setup]. *)
Definition setup_insert (p : t) (var : PDBGlobalVariable) : t :=
  mk_pdb (span_ p) (pdb_ p)
         (emplace (name var) var (symbols_ p))
         (OrderedMap.emplace (get_offset p var) var (symbols_by_offset p)).

Definition setup (p : t) : bool * t :=
  match load_pdb_file (pdb_ p) with
  | PDB_STATE_OK =>
      (true, fold_left setup_insert (get_global_variables (pdb_ p)) p)
  | _ => (false, p)
  end.

(** [sym::make_pdb(span, module, guid)] from the construction of the [Pdb]
    on: [file] is the file at the path that was built. How the path is
    built from the environment is in [Sym.make_pdb]. *)
Definition make_pdb (span : span_t) (file : PDBFile) : option t :=
  let '(ok, p) := setup (ctor file span) in
  if ok then Some p else None.

Definition span (p : t) : span_t := span_ p.

(** [Pdb::symbol(const std::string&)] *)
Definition symbol_by_name (p : t) (s : string) : option Z :=
  match symbols_ p !! s with
  | None => None
  | Some var => Some (get_offset p var)
  end.

(** The cursor [make_cursor] builds for a record:
    [sym::ModCursor{it->second.name, addr - get_offset(p, it->second)}]. *)
Definition cursor_at (p : t) (addr : Z) (var : PDBGlobalVariable) : ModCursor :=
  mk_cursor (name var) (u64 (addr - get_offset p var)).

(** [make_cursor] *)
Definition make_cursor (p : t) (it end_ : OrderedMap.iter) (addr : Z)
  : outcome (option ModCursor) :=
  if OrderedMap.iter_eqb it end_ then Ret None
  else match OrderedMap.deref (symbols_by_offset p) it with
       | Some (_, var) => Ret (Some (cursor_at p addr var))
       | None => Undefined
       end.

(** [Pdb::symbol(uint64_t)]. Decrementing [begin()] has no defined result. *)
Definition symbol_by_addr (p : t) (addr : Z) : outcome (option ModCursor) :=
  let m := symbols_by_offset p in
  let it := OrderedMap.lower_bound addr m in
  let end_ := length m in
  if Nat.eqb it end_ then
    make_cursor p (OrderedMap.Rev end_) (OrderedMap.Rev 0) addr
  else
    match m !! it with
    | None => Undefined
    | Some (first, _) =>
        if (first =? addr)%Z then
          make_cursor p (OrderedMap.Fwd it) (OrderedMap.Fwd end_) addr
        else
          match it with
          | O => Undefined
          | S it' =>
              make_cursor p (OrderedMap.Fwd it') (OrderedMap.Fwd end_) addr
          end
    end.

(** [std::string::find]: position of the first occurrence of [s] in [hay];
    [None] stands for [npos]. *)
Fixpoint find (s hay : string) : option nat :=
  if String.prefix s hay then Some 0
  else match hay with
       | EmptyString => None
       | String _ hay' => option_map S (find s hay')
       end.

(** [s] occurs somewhere in [hay], at any position. *)
Definition contains (s hay : string) : Prop :=
  exists pre post, hay = pre +:+ s +:+ post.

(** [Pdb::symbols_that_contains]: the loop visits the entries of the
    unordered table in whatever order the table has them. *)
Definition collect (p : t) (s : string)
    (k : string) (var : PDBGlobalVariable) (found : gmap string Z)
  : gmap string Z :=
  match find s k with
  | Some _ => emplace k (get_offset p var) found
  | None => found
  end.

Definition symbols_that_contains (p : t) (s : string)
  : option (gmap string Z) :=
  let found := map_fold (collect p s) ∅ (symbols_ p) in
  if Nat.eqb (base.size found) 0 then None else Some found.

End Pdb.

(** ** Structure queries of the PDB backend (pdb.cpp, [get_struc],
       [Pdb::struc_offset], [Pdb::struc_size]) *)

Module PdbStruc.

(** The class of a parsed type: a structure, or any of the other classes
    of the external parser. *)
Inductive PDBTypeClass : Type :=
| PDBTYPE_STRUCT
| PDBTYPE_other.

(** The fields of [pdb::PDBStructMember] and [pdb::PDBTypeStruct] that the
    file reads; [offset] and [size_bytes] are the numeric values of the
    fields. The members and the size of a type mean something for a
    structure only. *)
Record PDBStructMember : Type := mk_member { name : string; offset : Z }.

Record PDBTypeDef : Type := mk_type {
  type_class : PDBTypeClass;
  struct_members : list PDBStructMember;
  size_bytes : Z
}.

(** [p.pdb_.get_types_container()->get_type_by_name(...)]: the type of that
    name, if the container has one. *)
Definition PDBTypesContainer : Type := string -> option PDBTypeDef.

(** [get_struc] *)
Definition get_struc (types : PDBTypesContainer) (struc : string)
  : option PDBTypeDef :=
  match types struc with
  | None => None
  | Some type =>
      match type_class type with
      | PDBTYPE_STRUCT => Some type
      | PDBTYPE_other => None
      end
  end.

(** The loop of [Pdb::struc_offset] over the members. *)
Fixpoint member_offset (member : string) (ms : list PDBStructMember)
  : option Z :=
  match ms with
  | [] => None
  | m :: ms' =>
      if String.eqb member (name m) then Some (u64 (offset m))
      else member_offset member ms'
  end.

(** [Pdb::struc_offset] *)
Definition struc_offset (types : PDBTypesContainer) (struc member : string)
  : option Z :=
  match get_struc types struc with
  | None => None
  | Some stype => member_offset member (struct_members stype)
  end.

(** [Pdb::struc_size] *)
Definition struc_size (types : PDBTypesContainer) (struc : string)
  : option Z :=
  match get_struc types struc with
  | None => None
  | Some stype => Some (u64 (size_bytes stype))
  end.

End PdbStruc.

(** ** The RSDS scanner (pdb.cpp, [read_pdb]) *)

Module Scanner.

Record PdbCtx : Type := mk_ctx { guid : string; name : string }.

(** Sequencing of calls that may leave defined behaviour. *)
#[global] Instance outcome_bind : MBind outcome :=
  fun A B (f : A -> outcome B) (x : outcome A) =>
    match x with
    | Ret a => f a
    | Undefined => Undefined
    end.

(** Memory is the list of bytes that starts at [vsrc]: the buffer itself,
    followed by whatever bytes lie behind it. A pointer is an offset into
    that list; reading outside of it is not defined. *)
Definition load (mem : list Z) (p n : nat) : outcome (list Z) :=
  if Nat.leb (p + n) (length mem) then Ret (take n (drop p mem))
  else Undefined.

(** [std::isprint] on an unsigned byte, C locale. *)
Definition isprint (c : Z) : bool := ((32 <=? c) && (c <=? 126))%Z.

Definition rsds_magic : list Z := [82; 83; 68; 83]%Z.

Definition bytes_eqb (a b : list Z) : bool :=
  Nat.eqb (length a) (length b) && forallb (fun '(x, y) => (x =? y)%Z) (combine a b).

Fixpoint find_sub (pat l : list Z) : option nat :=
  if bytes_eqb pat (take (length pat) l) then Some 0
  else match l with
       | [] => None
       | _ :: l' => option_map S (find_sub pat l')
       end.

(** Modelled from the spec: [search] and [boyer_moore_horspool_searcher]
    come from utils/utils.hpp, which is not among the sources. The spec has
    the scanner search the buffer for the 4-byte marker; the call site tests
    the result against null. This is the first occurrence of the pattern
    that lies wholly inside [first, last). *)
Definition search (mem : list Z) (first last : nat) (pat : list Z)
  : option nat :=
  option_map (Nat.add first) (find_sub pat (take (last - first) (drop first mem))).

(** [memchr(p, c, n)]: looks at the bytes one after the other and stops at
    the first match. *)
Fixpoint memchr (mem : list Z) (p : nat) (c : Z) (n : nat)
  : outcome (option nat) :=
  match n with
  | O => Ret None
  | S n' =>
      match mem !! p with
      | None => Undefined
      | Some b => if (b =? c)%Z then Ret (Some p) else memchr mem (S p) c n'
      end
  end.

(** The offsets [memchr] looks at, in order. *)
Fixpoint memchr_reads (mem : list Z) (p : nat) (c : Z) (n : nat) : list nat :=
  match n with
  | O => []
  | S n' =>
      match mem !! p with
      | None => [p]
      | Some b => if (b =? c)%Z then [p] else p :: memchr_reads mem (S p) c n'
      end
  end.

(** Modelled from the spec: endian.hpp is not among the sources. Little-endian
    reads and big-endian writes of 16 and 32 bits. *)
Definition le_value (bs : list Z) : Z :=
  fold_right (fun b acc => Z.lor b (Z.shiftl acc 8)) 0%Z bs.

Definition read_le32 (mem : list Z) (p : nat) : outcome Z :=
  bs ← load mem p 4; Ret (le_value bs).

Definition read_le16 (mem : list Z) (p : nat) : outcome Z :=
  bs ← load mem p 2; Ret (le_value bs).

Definition byte_of (v : Z) (shift : Z) : Z := Z.land (Z.shiftr v shift) 255.

Definition write_be32 (v : Z) : list Z :=
  [byte_of v 24; byte_of v 16; byte_of v 8; byte_of v 0].

Definition write_be16 (v : Z) : list Z := [byte_of v 8; byte_of v 0].

(** Modelled from the spec: utils/hex.hpp is not among the sources.
    [hex::convert] with [hex::chars_upper] writes two uppercase hexadecimal
    digits per byte, high nibble first. *)
Definition chars_upper : list ascii := list_ascii_of_string "0123456789ABCDEF".

Definition hex_digit (n : Z) : ascii := nth (Z.to_nat n) chars_upper "0"%char.

Fixpoint hex_convert (bs : list Z) : string :=
  match bs with
  | [] => EmptyString
  | b :: bs' =>
      String (hex_digit (Z.shiftr b 4))
             (String (hex_digit (Z.land b 15)) (hex_convert bs'))
  end.

(** [std::to_string] of an unsigned value. *)
Definition to_string (n : Z) : string :=
  NilEmpty.string_of_uint (N.to_uint (Z.to_N n)).

(** [std::string{ptr, end}] *)
Definition string_of_bytes (bs : list Z) : string :=
  string_of_list_ascii (map (fun b => ascii_of_N (Z.to_N b)) bs).

(** [read_pdb_name(ptr, end)], [end] being [ptr + n]. *)
Definition read_pdb_name (mem : list Z) (ptr n : nat)
  : outcome (option string) :=
  bs ← load mem ptr n;
  Ret (if forallb isprint bs then Some (string_of_bytes bs) else None).

(** A byte value. *)
Definition is_byte (b : Z) : Prop := (0 <= b < 256)%Z.

(** The identifier as the spec words it: four little-endian fields of
    widths 4, 2, 2 and 8, the first three written back big-endian, the last
    one verbatim. *)
Definition guid_big_endian (g : list Z) : list Z :=
  rev (take 4 g) ++ rev (take 2 (drop 4 g)) ++ rev (take 2 (drop 6 g))
  ++ drop 8 g.

(** What one turn of the [while(true)] loop does: leave [read_pdb] with a
    result, or go round again with a new [src]. *)
Inductive step : Type :=
| Return (r : option PdbCtx)
| Resume (src : nat).

Definition read_pdb_iter (mem : list Z) (src end_ : nat) : outcome step :=
  match search mem src end_ rsds_magic with
  | None => Ret (Return None)
  | Some rsds =>
      let size := end_ - rsds in
      if Nat.ltb size (4 + 16 + 4 + 2) then Ret (Return None)
      else
        found ← memchr mem (rsds + (4 + 16 + 4)) 0%Z size;
        match found with
        | None => Ret (Return None)
        | Some name_end =>
            data1 ← read_le32 mem (rsds + (4 + 0));
            data2 ← read_le16 mem (rsds + (4 + 4));
            data3 ← read_le16 mem (rsds + (4 + 6));
            data4 ← load mem (rsds + (4 + 8)) 8;
            let guid := write_be32 data1 ++ write_be16 data2
                        ++ write_be16 data3 ++ data4 in
            let strguid := hex_convert guid in
            age ← read_le32 mem (rsds + (4 + 16));
            name ← read_pdb_name mem (rsds + (4 + 16 + 4))
                                 (name_end - (rsds + (4 + 16 + 4)));
            match name with
            | Some n => Ret (Return (Some (mk_ctx (strguid +:+ to_string age) n)))
            | None => Ret (Resume (rsds + 1))
            end
        end
  end.

(** The result of the whole scan. [Fault] is a scan that left defined
    behaviour; [Exhausted] is a loop cut off by its turn budget. *)
Inductive scan : Type :=
| Done (r : option PdbCtx)
| Fault
| Exhausted.

Fixpoint read_pdb_loop (fuel : nat) (mem : list Z) (src end_ : nat) : scan :=
  match fuel with
  | O => Exhausted
  | S fuel' =>
      match read_pdb_iter mem src end_ with
      | Undefined => Fault
      | Ret (Return r) => Done r
      | Ret (Resume src') => read_pdb_loop fuel' mem src' end_
      end
  end.

(** [read_pdb(vsrc, src_size)]: the caller hands over [src_size] readable
    bytes. Every turn moves [src] forward, so [src_size + 1] turns are more
    than the loop can take. *)
Definition read_pdb (mem : list Z) (src_size : nat) : scan :=
  if Nat.leb src_size (length mem)
  then read_pdb_loop (S src_size) mem 0 src_size
  else Fault.

End Scanner.

(** ** The DWARF backend (dwarf.cpp) *)

Module Dwarf.

(** The three answers of a libdwarf call. *)
Inductive dlv (A : Type) : Type :=
| DW_DLV_OK (a : A)
| DW_DLV_NO_ENTRY
| DW_DLV_ERROR.
Arguments DW_DLV_OK {A} a.
Arguments DW_DLV_NO_ENTRY {A}.
Arguments DW_DLV_ERROR {A}.

(** Constants of dwarf.h. *)
Definition DW_FORM_data2 : Z := 0x05.
Definition DW_FORM_data4 : Z := 0x06.
Definition DW_FORM_data8 : Z := 0x07.
Definition DW_FORM_data1 : Z := 0x0b.
Definition DW_FORM_sdata : Z := 0x0d.
Definition DW_FORM_udata : Z := 0x0f.
Definition DW_OP_plus_uconst : Z := 0x23.

(** [Dwarf_Loc] and [Dwarf_Locdesc]: [ld_cents] counts the operations held
    in [ld_s]. *)
Record Dwarf_Loc : Type := mk_loc { lr_atom : Z; lr_number : Z }.
Record Dwarf_Locdesc : Type := mk_locdesc { ld_s : list Dwarf_Loc }.
Definition ld_cents (d : Dwarf_Locdesc) : nat := length (ld_s d).

(** An attribute, seen through the calls made on it: [dwarf_whatform],
    [dwarf_formudata], [dwarf_formsdata] and [dwarf_loclist_n]. *)
Record Dwarf_Attribute : Type := mk_attr {
  whatform : dlv Z;
  formudata : dlv Z;
  formsdata : dlv Z;
  loclist_n : dlv (list Dwarf_Locdesc)
}.

(** A DIE, seen through the calls made on it. [dietype] is
    [dwarf_dietype_offset] followed by [dwarf_offdie_b] at that offset;
    [die_children] is the walk with [dwarf_child] and [dwarf_siblingof_b],
    [None] when libdwarf reports an error on the way. The records form a
    finite tree: a by-value anonymous member cannot contain its own type. *)
#[local] Unset Elimination Schemes.
Inductive Dwarf_Die : Type :=
  mk_die (diename : dlv string)
         (dietype : dlv (dlv Dwarf_Die))
         (die_children : option (list Dwarf_Die))
         (attr_data_member_location : dlv Dwarf_Attribute)
         (bytesize : dlv Z).
#[local] Set Elimination Schemes.

Definition diename (d : Dwarf_Die) : dlv string :=
  match d with mk_die n _ _ _ _ => n end.
Definition dietype (d : Dwarf_Die) : dlv (dlv Dwarf_Die) :=
  match d with mk_die _ ty _ _ _ => ty end.
Definition die_children (d : Dwarf_Die) : option (list Dwarf_Die) :=
  match d with mk_die _ _ c _ _ => c end.
Definition attr_data_member_location (d : Dwarf_Die) : dlv Dwarf_Attribute :=
  match d with mk_die _ _ _ a _ => a end.
Definition bytesize (d : Dwarf_Die) : dlv Z :=
  match d with mk_die _ _ _ _ b => b end.

(** [read_children]: [Some children] for [true], [None] for [false]. *)
Definition read_children (parent : Dwarf_Die) : option (list Dwarf_Die) :=
  die_children parent.

(** The first turn of a loop that leaves with a value. *)
Fixpoint first_some {A B : Type} (f : A -> option B) (l : list A) : option B :=
  match l with
  | [] => None
  | x :: l' => match f x with
               | Some r => Some r
               | None => first_some f l'
               end
  end.

(** One turn of the loop of [get_structure]: [Some d] when the turn returns
    [d], [None] when the loop goes on to the next DIE. *)
Fixpoint get_structure_turn (name : string)
    (pass_through_anonymous_struct : bool) (structure : Dwarf_Die)
    {struct structure} : option Dwarf_Die :=
  match structure with
  | mk_die ok_diename ty _ _ _ =>
      let through :=
        match pass_through_anonymous_struct, ok_diename with
        | true, DW_DLV_NO_ENTRY =>
            match ty with
            | DW_DLV_OK (DW_DLV_OK (mk_die _ _ (Some children) _ _)) =>
                (fix scan (l : list Dwarf_Die) : option Dwarf_Die :=
                   match l with
                   | [] => None
                   | c :: l' =>
                       match get_structure_turn name true c with
                       | Some r => Some r
                       | None => scan l'
                       end
                   end) children
            | _ => None
            end
        | _, _ => None
        end in
      match through with
      | Some child => Some child
      | None =>
          match ok_diename with
          | DW_DLV_OK structure_name =>
              if String.eqb structure_name name then Some structure else None
          | _ => None
          end
      end
  end.

(** [get_structure(p, name, collection_of_dies, pass_through_anonymous_struct)] *)
Definition get_structure (name : string) (collection_of_dies : list Dwarf_Die)
    (pass_through_anonymous_struct : bool) : option Dwarf_Die :=
  first_some (get_structure_turn name pass_through_anonymous_struct)
             collection_of_dies.

Definition is_data_form (form : Z) : bool :=
  ((form =? DW_FORM_data1) || (form =? DW_FORM_data2) || (form =? DW_FORM_data4)
   || (form =? DW_FORM_data8) || (form =? DW_FORM_udata))%Z.

(** [get_attr_member_location] *)
Definition get_attr_member_location (die : Dwarf_Die) : option Z :=
  match attr_data_member_location die with
  | DW_DLV_ERROR => None
  | DW_DLV_NO_ENTRY => None
  | DW_DLV_OK attr =>
      match whatform attr with
      | DW_DLV_OK form =>
          if is_data_form form then
            match formudata attr with
            | DW_DLV_OK offset => Some (u64 offset)
            | _ => None
            end
          else if (form =? DW_FORM_sdata)%Z then
            match formsdata attr with
            | DW_DLV_OK soffset =>
                if (soffset <? 0)%Z then None else Some (u64 soffset)
            | _ => None
            end
          else
            match loclist_n attr with
            | DW_DLV_OK llbuf =>
                let listlen := length llbuf in
                match llbuf with
                | ld :: _ =>
                    if negb (Nat.eqb listlen 1) then None
                    else if negb (Nat.eqb (ld_cents ld) 1) then None
                    else match ld_s ld with
                         | op :: _ =>
                             if (lr_atom op =? DW_OP_plus_uconst)%Z
                             then Some (u64 (lr_number op))
                             else None
                         | [] => None
                         end
                | [] => None
                end
            | _ => None
            end
      | _ => None
      end
  end.

(** [struc_size_internal] *)
Definition struc_size_internal (struc : Dwarf_Die) : option Z :=
  match bytesize struc with
  | DW_DLV_OK size => Some size
  | _ => None
  end.

(** What the open file gives to [setup]: the answer of [dwarf_init_path],
    and the compilation-unit headers in order, each with the answer of
    [dwarf_siblingof_b] for its first DIE, up to the header call that ends
    the walk: [cu_error] tells whether that call answers [DW_DLV_ERROR]
    rather than [DW_DLV_NO_ENTRY]. *)
Record DwarfFile : Type := mk_dfile {
  init_path : dlv unit;
  cu_headers : list (dlv Dwarf_Die);
  cu_error : bool
}.

Record t : Type := mk_dwarf {
  file_ : DwarfFile;
  structures : list Dwarf_Die
}.

Definition ctor (file : DwarfFile) : t := mk_dwarf file [].

(** [open_file] *)
Definition open_file (p : t) : bool :=
  match init_path (file_ p) with
  | DW_DLV_OK _ => true
  | _ => false
  end.

(** The [while(true)] loop of [read_cu]; [cu] grows by [push_back]. *)
Fixpoint read_cu_loop (hs : list (dlv Dwarf_Die)) (last_error : bool)
    (cu : list Dwarf_Die) : option (list Dwarf_Die) :=
  match hs with
  | [] => if last_error then None else Some cu
  | DW_DLV_NO_ENTRY :: hs' => read_cu_loop hs' last_error cu
  | DW_DLV_ERROR :: _ => None
  | DW_DLV_OK die :: hs' => read_cu_loop hs' last_error (cu ++ [die])
  end.

Definition read_cu (p : t) : option (list Dwarf_Die) :=
  match read_cu_loop (cu_headers (file_ p)) (cu_error (file_ p)) [] with
  | None => None
  | Some [] => None
  | Some cu => Some cu
  end.

(** [Dwarf::setup] *)
Definition setup (p : t) : bool * t :=
  if negb (open_file p) then (false, p)
  else
    match read_cu p with
    | None => (false, p)
    | Some cu =>
        let structures' :=
          fold_left (fun acc die =>
                       match read_children die with
                       | Some children => acc ++ children
                       | None => acc
                       end) cu (structures p) in
        let p' := mk_dwarf (file_ p) structures' in
        match structures' with
        | [] => (false, p')
        | _ => (true, p')
        end
    end.

(** [sym::make_dwarf(span_t, module, guid)]: [path] is what
    [getenv("_LINUX_SYMBOL_PATH")] answers, [file] the file found under it.
    The span argument has no name in the source and is not used. *)
Definition make_dwarf (_ : span_t) (path : option string) (file : DwarfFile)
  : option t :=
  match path with
  | None => None
  | Some _ =>
      let '(ok, p) := setup (ctor file) in
      if ok then Some p else None
  end.

(** [Dwarf::span]: [return {};] *)
Definition span (p : t) : span_t := span_default.

(** [Dwarf::struc_offset] *)
Definition struc_offset (p : t) (struc member : string) : option Z :=
  match get_structure struc (structures p) false with
  | None => None
  | Some structure =>
      match read_children structure with
      | None => None
      | Some children =>
          match get_structure member children true with
          | None => None
          | Some child => get_attr_member_location child
          end
      end
  end.

(** [Dwarf::struc_size] *)
Definition struc_size (p : t) (struc : string) : option Z :=
  match get_structure struc (structures p) false with
  | None => None
  | Some structure => struc_size_internal structure
  end.

(** [Dwarf::symbol(const std::string&)], [Dwarf::sym_list] and
    [Dwarf::symbol(uint64_t)]: [return {};] and [return false;]. *)
Definition symbol_by_name (p : t) (_ : string) : option Z := None.
Definition sym_list {F : Type} (p : t) (_ : F) : bool := false.
Definition symbol_by_addr (p : t) (_ : Z) : option ModCursor := None.

(** The DIEs that the walk of [read_cu] collects, whether it meets an
    error on a first DIE, the children [setup] takes from a DIE, and whether
    a DIE has a given name. *)
Fixpoint cu_dies (hs : list (dlv Dwarf_Die)) : list Dwarf_Die :=
  match hs with
  | [] => []
  | DW_DLV_OK die :: hs' => die :: cu_dies hs'
  | _ :: hs' => cu_dies hs'
  end.

Definition cu_failed (hs : list (dlv Dwarf_Die)) : bool :=
  existsb (fun h => match h with DW_DLV_ERROR => true | _ => false end) hs.

Definition children_of (die : Dwarf_Die) : list Dwarf_Die :=
  match read_children die with
  | Some children => children
  | None => []
  end.

Definition has_name (name : string) (d : Dwarf_Die) : bool :=
  match diename d with
  | DW_DLV_OK n => String.eqb n name
  | _ => false
  end.

(** The number of DIEs that a search starting at a DIE can reach: the DIE,
    the DIE of its type and the children of both. *)
Fixpoint die_size (d : Dwarf_Die) : nat :=
  match d with
  | mk_die _ ty ch _ _ =>
      S ((match ty with
          | DW_DLV_OK (DW_DLV_OK a) => die_size a
          | _ => 0
          end)
         + (match ch with
            | Some l =>
                (fix sum (l : list Dwarf_Die) : nat :=
                   match l with
                   | [] => 0
                   | c :: l' => die_size c + sum l'
                   end) l
            | None => 0
            end))
  end.

(** The DIEs that the search through anonymous members compares with the
    name, in the order in which it meets them: an unnamed DIE whose type
    and whose type's children can be read gives way to those children, read
    the same way; every other DIE stands for itself. *)
Fixpoint members_turn (d : Dwarf_Die) : list Dwarf_Die :=
  match d with
  | mk_die DW_DLV_NO_ENTRY
           (DW_DLV_OK (DW_DLV_OK (mk_die _ _ (Some children) _ _))) _ _ _ =>
      (fix walk (l : list Dwarf_Die) : list Dwarf_Die :=
         match l with
         | [] => []
         | c :: l' => members_turn c ++ walk l'
         end) children
  | _ => [d]
  end.

Definition members (collection_of_dies : list Dwarf_Die) : list Dwarf_Die :=
  flat_map members_turn collection_of_dies.

(** The spec's words for anonymous nesting, "as if it were a direct member
    of the parent": [spec_direct_members] lists the members of a structure
    with the members of its anonymous members in their place, each with its
    offset in the structure, which is its own location moved by the
    locations of the anonymous members around it; [spec_member_offset] is
    the offset of the first member of a name in that list. *)
Definition spec_moved (base : option Z) (m : Dwarf_Die * option Z)
  : Dwarf_Die * option Z :=
  (fst m, match base, snd m with
          | Some b, Some o => Some (b + o)%Z
          | _, _ => None
          end).

Fixpoint spec_direct_members_turn (d : Dwarf_Die)
  : list (Dwarf_Die * option Z) :=
  match d with
  | mk_die DW_DLV_NO_ENTRY
           (DW_DLV_OK (DW_DLV_OK (mk_die _ _ (Some children) _ _))) _ _ _ =>
      map (spec_moved (get_attr_member_location d))
          ((fix walk (l : list Dwarf_Die) : list (Dwarf_Die * option Z) :=
              match l with
              | [] => []
              | c :: l' => spec_direct_members_turn c ++ walk l'
              end) children)
  | _ => [(d, get_attr_member_location d)]
  end.

Definition spec_direct_members (children : list Dwarf_Die)
  : list (Dwarf_Die * option Z) :=
  flat_map spec_direct_members_turn children.

Definition spec_member_offset (member : string) (children : list Dwarf_Die)
  : option Z :=
  match List.find (fun m => has_name member (fst m))
                  (spec_direct_members children) with
  | Some (_, o) => o
  | None => None
  end.

(** Whether the anonymous members that the search looks through, at every
    depth, lie at offset 0 of the structure that holds them. *)
Fixpoint anonymous_at_zero (d : Dwarf_Die) : bool :=
  match d with
  | mk_die DW_DLV_NO_ENTRY
           (DW_DLV_OK (DW_DLV_OK (mk_die _ _ (Some children) _ _))) _ _ _ =>
      match get_attr_member_location d with
      | Some 0%Z =>
          (fix walk (l : list Dwarf_Die) : bool :=
             match l with
             | [] => true
             | c :: l' => anonymous_at_zero c && walk l'
             end) children
      | _ => false
      end
  | _ => true
  end.

End Dwarf.

(** ** Construction from a raw image (pdb.cpp and dwarf.cpp, the
       [(span, data, data_size)] overloads) *)

Module Sym.

(** [sym::make_pdb(span, module, guid)] with its environment: [symbol_path]
    is what [getenv("_NT_SYMBOL_PATH")] answers, [None] for the null pointer
    of an unset variable, and [files root module guid] is the file at
    [fs::path(root) / module / guid / module]. The answer of [getenv] goes
    to [fs::path] without a test: from a null pointer no path can be built
    and the call has no defined result. *)
Definition make_pdb (symbol_path : option string)
    (files : string -> string -> string -> Pdb.PDBFile)
    (span : span_t) (module guid : string) : outcome (option Pdb.t) :=
  match symbol_path with
  | None => Undefined
  | Some root => Ret (Pdb.make_pdb span (files root module guid))
  end.

(** [sym::make_pdb(span, data, data_size)]: [files] is the symbol store, from
    a module name and an identifier string to the file found there. *)
Definition make_pdb_from_image (span : span_t) (data : list Z)
    (data_size : nat) (files : string -> string -> Pdb.PDBFile)
  : outcome (option Pdb.t) :=
  match Scanner.read_pdb data data_size with
  | Scanner.Done None => Ret None
  | Scanner.Done (Some pdb) =>
      Ret (Pdb.make_pdb span (files (Scanner.name pdb) (Scanner.guid pdb)))
  | Scanner.Fault => Undefined
  | Scanner.Exhausted => Undefined
  end.

(** [sym::make_dwarf(span, data, data_size)]: not implemented, no resolver. *)
Definition make_dwarf_from_image (_ : span_t) (_ : list Z) (_ : nat)
  : option Dwarf.t := None.

End Sym.

(** ** Concrete inputs used below *)

Module Samples.

Definition sample_span : span_t := mk_span 4096 8192.

(** One symbol, at runtime address 4096 + 256. *)
Definition one_symbol : Pdb.PDBFile :=
  Pdb.mk_file Pdb.PDB_STATE_OK
    [Pdb.mk_var "KiSystemCall" (Pdb.BASE_ADDRESS + 256)].

(** Two records of one name, at different addresses. *)
Definition same_name : Pdb.PDBFile :=
  Pdb.mk_file Pdb.PDB_STATE_OK
    [Pdb.mk_var "tick" (Pdb.BASE_ADDRESS + 16);
     Pdb.mk_var "tick" (Pdb.BASE_ADDRESS + 32)].

(** Two records of different names at one address. *)
Definition same_address : Pdb.PDBFile :=
  Pdb.mk_file Pdb.PDB_STATE_OK
    [Pdb.mk_var "alpha" (Pdb.BASE_ADDRESS + 16);
     Pdb.mk_var "beta" (Pdb.BASE_ADDRESS + 16)].

Definition three_symbols : Pdb.PDBFile :=
  Pdb.mk_file Pdb.PDB_STATE_OK
    [Pdb.mk_var "gamma" (Pdb.BASE_ADDRESS + 48);
     Pdb.mk_var "alpha" (Pdb.BASE_ADDRESS + 16);
     Pdb.mk_var "beta" (Pdb.BASE_ADDRESS + 32)].

(** An identifier, an age of 300 and the name "foo.pdb". *)
Definition sample_guid : list Z :=
  [0x01; 0x23; 0x45; 0x67; 0x89; 0xAB; 0xCD; 0xEF;
   0x10; 0x32; 0x54; 0x76; 0x98; 0xBA; 0xDC; 0xFE]%Z.
Definition sample_age : list Z := [44; 1; 0; 0]%Z.
Definition foo_pdb : list Z := [102; 111; 111; 46; 112; 100; 98]%Z.

Definition well_formed : list Z :=
  Scanner.rsds_magic ++ sample_guid ++ sample_age ++ foo_pdb ++ [0%Z].

(** The same record with an empty name: 25 bytes. *)
Definition empty_name : list Z :=
  Scanner.rsds_magic ++ sample_guid ++ sample_age ++ [] ++ [0%Z].

(** A record whose name holds the byte 1, then a well-formed one. *)
Definition bad_then_good : list Z :=
  Scanner.rsds_magic ++ sample_guid ++ sample_age ++ [1; 0]%Z ++ well_formed.

(** The marker and 22 letters 'A': 26 bytes, none of them zero. *)
Definition unterminated : list Z := Scanner.rsds_magic ++ repeat 65%Z 22.

(** That buffer in memory, followed by 24 letters 'B', and followed by a
    zero byte. *)
Definition unterminated_then_letters : list Z := unterminated ++ repeat 66%Z 24.
Definition unterminated_then_zero : list Z := unterminated ++ [0%Z].

(** DIEs as a compiler emits them: a member with a name and a one-byte
    constant location, a structure type with its members, and an unnamed
    member whose type is such a structure. *)
Definition location (off : Z) : Dwarf.dlv Dwarf.Dwarf_Attribute :=
  Dwarf.DW_DLV_OK
    (Dwarf.mk_attr (Dwarf.DW_DLV_OK Dwarf.DW_FORM_data1) (Dwarf.DW_DLV_OK off)
                   Dwarf.DW_DLV_ERROR Dwarf.DW_DLV_ERROR).

Definition member (n : string) (off : Z) : Dwarf.Dwarf_Die :=
  Dwarf.mk_die (Dwarf.DW_DLV_OK n) Dwarf.DW_DLV_NO_ENTRY (Some [])
               (location off) Dwarf.DW_DLV_NO_ENTRY.

Definition struct_type (n : Dwarf.dlv string) (members : list Dwarf.Dwarf_Die)
    (size : Z) : Dwarf.Dwarf_Die :=
  Dwarf.mk_die n Dwarf.DW_DLV_NO_ENTRY (Some members)
               Dwarf.DW_DLV_NO_ENTRY (Dwarf.DW_DLV_OK size).

Definition anonymous_member (ty : Dwarf.Dwarf_Die) (off : Z)
  : Dwarf.Dwarf_Die :=
  Dwarf.mk_die Dwarf.DW_DLV_NO_ENTRY (Dwarf.DW_DLV_OK (Dwarf.DW_DLV_OK ty))
               (Some []) (location off) Dwarf.DW_DLV_NO_ENTRY.

(** [m] wrapped in [depth] levels of anonymous structures. *)
Fixpoint nest (depth : nat) (m : Dwarf.Dwarf_Die) : Dwarf.Dwarf_Die :=
  match depth with
  | O => m
  | S depth' =>
      anonymous_member
        (struct_type Dwarf.DW_DLV_NO_ENTRY [nest depth' m] 0) 0
  end.

(** [struct S { struct { int x; }; int x; }] as a DIE tree: the anonymous
    member comes first, its [x] at 4, the direct [x] at 8. *)
Definition shadowed : Dwarf.Dwarf_Die :=
  struct_type (Dwarf.DW_DLV_OK "S")
    [anonymous_member
       (struct_type Dwarf.DW_DLV_NO_ENTRY [member "x" 4] 8) 0;
     member "x" 8]
    16.

(** [struct S2 { int a; struct { int x; }; }] as a DIE tree: the anonymous
    member lies at 4 and its [x] at 0 inside it; and the structure with [x]
    written as a direct member, at 4. *)
Definition moved : Dwarf.Dwarf_Die :=
  struct_type (Dwarf.DW_DLV_OK "S2")
    [member "a" 0;
     anonymous_member
       (struct_type Dwarf.DW_DLV_NO_ENTRY [member "x" 0] 4) 4]
    8.
Definition moved_flat : Dwarf.Dwarf_Die :=
  struct_type (Dwarf.DW_DLV_OK "S2") [member "a" 0; member "x" 4] 8.

(** A structure with a member at a negative signed offset and a member at
    offset 8. *)
Definition odd_offsets : Dwarf.Dwarf_Die :=
  struct_type (Dwarf.DW_DLV_OK "T")
    [Dwarf.mk_die (Dwarf.DW_DLV_OK "below") Dwarf.DW_DLV_NO_ENTRY (Some [])
       (Dwarf.DW_DLV_OK
          (Dwarf.mk_attr (Dwarf.DW_DLV_OK Dwarf.DW_FORM_sdata)
                         Dwarf.DW_DLV_ERROR (Dwarf.DW_DLV_OK (-4)%Z)
                         Dwarf.DW_DLV_ERROR))
       Dwarf.DW_DLV_NO_ENTRY;
     member "field" 8]
    16.

(** A debug file with one compilation unit that declares [shadowed] and
    [odd_offsets]. *)
Definition elf : Dwarf.DwarfFile :=
  Dwarf.mk_dfile (Dwarf.DW_DLV_OK tt)
    [Dwarf.DW_DLV_OK
       (Dwarf.mk_die (Dwarf.DW_DLV_OK "unit.c") Dwarf.DW_DLV_NO_ENTRY
                     (Some [shadowed; odd_offsets])
                     Dwarf.DW_DLV_NO_ENTRY Dwarf.DW_DLV_NO_ENTRY)]
    false.

(** [struct point { int x; int y; }], and the same with its members listed
    the other way round. *)
Definition point : Dwarf.Dwarf_Die :=
  struct_type (Dwarf.DW_DLV_OK "point") [member "x" 0; member "y" 4] 8.
Definition point_swapped : Dwarf.Dwarf_Die :=
  struct_type (Dwarf.DW_DLV_OK "point") [member "y" 4; member "x" 0] 8.

(** A structure of the PDB backend, the same with its members listed in
    another order, and a container that knows it beside a type that is not
    a structure. *)
Definition eprocess : PdbStruc.PDBTypeDef :=
  PdbStruc.mk_type PdbStruc.PDBTYPE_STRUCT
    [PdbStruc.mk_member "Pcb" 0;
     PdbStruc.mk_member "UniqueProcessId" 0x2e0;
     PdbStruc.mk_member "ImageFileName" 0x450]
    0x850.
Definition eprocess_shuffled : PdbStruc.PDBTypeDef :=
  PdbStruc.mk_type PdbStruc.PDBTYPE_STRUCT
    [PdbStruc.mk_member "ImageFileName" 0x450;
     PdbStruc.mk_member "Pcb" 0;
     PdbStruc.mk_member "UniqueProcessId" 0x2e0]
    0x850.
Definition types_of (e : PdbStruc.PDBTypeDef) : PdbStruc.PDBTypesContainer :=
  fun n =>
    if String.eqb n "_EPROCESS" then Some e
    else if String.eqb n "_LARGE_INTEGER"
         then Some (PdbStruc.mk_type PdbStruc.PDBTYPE_other [] 8)
         else None.

End Samples.

(** * Facts *)

(** ** The ordered table *)

Section OrderedMapFacts.
Context {V : Type}.
Implicit Types (m : OrderedMap.t V) (k : Z) (v : V).
Import OrderedMap.

Lemma keys_emplace k v m x :
  In x (keys (emplace k v m)) -> x = k \/ In x (keys m).
Proof.
  unfold keys.
  induction m as [|[k' v'] m IH]; simpl.
  - intros [->|[]]; auto.
  - destruct (k <? k')%Z; [simpl; intuition auto|].
    destruct (k =? k')%Z; simpl; [intuition auto|].
    intros [->|H]; auto. destruct (IH H); auto.
Qed.

Lemma sorted_emplace k v m : sorted m -> sorted (emplace k v m).
Proof.
  induction m as [|[k' v'] m IH]; simpl.
  - intros _. split; [constructor|exact I].
  - intros [Hk Hs].
    destruct (k <? k')%Z eqn:Hlt.
    + apply Z.ltb_lt in Hlt. simpl. repeat split; auto.
      constructor; [exact Hlt|].
      eapply Forall_impl; [exact Hk|]. simpl. intros; lia.
    + destruct (k =? k')%Z eqn:Heq; simpl; [auto|].
      apply Z.ltb_ge in Hlt. apply Z.eqb_neq in Heq.
      split; [|auto].
      apply Forall_forall. intros x Hx.
      apply list_elem_of_In in Hx.
      destruct (keys_emplace _ _ _ _ Hx) as [->|Hin]; [lia|].
      rewrite Forall_forall in Hk. apply Hk. by apply list_elem_of_In.
Qed.

Lemma find_above k m :
  Forall (fun k' => (k < k')%Z) (keys m) -> find k m = None.
Proof.
  induction m as [|[k' v'] m IH]; simpl; [done|].
  intros H. apply Forall_cons in H as [H1 H2].
  destruct (k =? k')%Z eqn:E; [apply Z.eqb_eq in E; lia|auto].
Qed.

(** [emplace] keeps the entry already stored under the key. *)
Lemma find_emplace k v m k' :
  sorted m ->
  find k' (emplace k v m) =
    if (k' =? k)%Z
    then match find k m with Some x => Some x | None => Some v end
    else find k' m.
Proof.
  induction m as [|[k0 v0] m IH]; simpl.
  - intros _. destruct (k' =? k)%Z; done.
  - intros [Hk Hs].
    destruct (k <? k0)%Z eqn:Hlt.
    + apply Z.ltb_lt in Hlt. simpl.
      destruct (k' =? k)%Z eqn:E; [|done].
      destruct (k =? k0)%Z eqn:E0; [apply Z.eqb_eq in E0; lia|].
      rewrite find_above; [done|].
      eapply Forall_impl; [exact Hk|]. simpl. intros; lia.
    + destruct (k =? k0)%Z eqn:E0.
      * apply Z.eqb_eq in E0. subst k0. simpl.
        destruct (k' =? k)%Z eqn:E; done.
      * simpl. rewrite (IH Hs).
        destruct (k' =? k)%Z eqn:E.
        -- apply Z.eqb_eq in E. subst k'. by rewrite E0.
        -- done.
Qed.

Lemma sorted_app m1 m2 :
  sorted (m1 ++ m2) <->
  sorted m1 /\ sorted m2 /\
  (forall a b, In a (keys m1) -> In b (keys m2) -> (a < b)%Z).
Proof.
  induction m1 as [|[k v] m1 IH]; simpl.
  - split; [intros; repeat split; auto; intros; tauto|tauto].
  - unfold keys in *. rewrite map_app, Forall_app, IH.
    rewrite !Forall_forall.
    setoid_rewrite list_elem_of_In.
    split.
    + intros [[H1 H2] (H3 & H4 & H5)]. repeat split; auto.
      intros a b [<-|Ha] Hb; auto.
    + intros ([H1 H2] & H3 & H4). repeat split; auto.
Qed.

Lemma find_In k v m : sorted m -> (In (k, v) m <-> find k m = Some v).
Proof.
  induction m as [|[k0 v0] m IH]; simpl; [intros _; split; [tauto|done]|].
  intros [Hk Hs]. specialize (IH Hs).
  destruct (k =? k0)%Z eqn:E.
  - apply Z.eqb_eq in E. subst k0. split.
    + intros [[= ->]|Hin]; [done|].
      rewrite Forall_forall in Hk.
      assert ((k < k)%Z); [|lia].
      apply Hk. apply list_elem_of_In. apply (in_map fst) in Hin. exact Hin.
    + intros [= ->]. auto.
  - apply Z.eqb_neq in E. rewrite <- IH. split; [|auto].
    intros [[= -> ->]|]; [lia|done].
Qed.

(** [lower_bound] stops at the border between the keys below [k] and the
    others. *)
Lemma lower_bound_app k m1 m2 :
  Forall (fun k' => (k' < k)%Z) (keys m1) ->
  match m2 with [] => True | (k2, _) :: _ => (k <= k2)%Z end ->
  lower_bound k (m1 ++ m2) = length m1.
Proof.
  induction m1 as [|[k1 v1] m1 IH]; simpl.
  - intros _. destruct m2 as [|[k2 v2] m2]; simpl; [done|].
    intros H. apply Z.leb_le in H. by rewrite H.
  - intros H H2. apply Forall_cons in H as [H1 H].
    destruct (k <=? k1)%Z eqn:E; [apply Z.leb_le in E; lia|].
    by rewrite IH.
Qed.
End OrderedMapFacts.

Section LowerBound.
Context {V : Type}.
Implicit Types (m : OrderedMap.t V) (k : Z) (v : V).
Import OrderedMap.

Lemma lower_bound_le k m : lower_bound k m <= length m.
Proof.
  induction m as [|[k' v'] m IH]; simpl; [lia|].
  destruct (k <=? k')%Z; simpl; lia.
Qed.

Lemma lower_bound_before k m j kj vj :
  m !! j = Some (kj, vj) -> j < lower_bound k m -> (kj < k)%Z.
Proof.
  revert j. induction m as [|[k' v'] m IH]; intros j; simpl; [done|].
  destruct (k <=? k')%Z eqn:E; [lia|]. apply Z.leb_gt in E.
  destruct j as [|j]; simpl.
  - intros [= <- <-] _. lia.
  - intros H Hj. apply (IH j H). lia.
Qed.

Lemma lower_bound_at k m kj vj :
  m !! lower_bound k m = Some (kj, vj) -> (k <= kj)%Z.
Proof.
  induction m as [|[k' v'] m IH]; simpl; [done|].
  destruct (k <=? k')%Z eqn:E; simpl; [|exact IH].
  apply Z.leb_le in E. intros [= <- <-]. lia.
Qed.
End LowerBound.

(** ** The PDB symbol index *)

Section PdbFacts.
Import Pdb.
Implicit Types (p : Pdb.t) (var : PDBGlobalVariable) (gs : list PDBGlobalVariable).

Lemma span_fold gs p : span_ (fold_left setup_insert gs p) = span_ p.
Proof. revert p. induction gs as [|g gs IH]; intros p; simpl; [done|]. by rewrite IH. Qed.

Lemma offset_range sp var : (0 <= offset_in sp var < 2 ^ 64)%Z.
Proof. unfold offset_in, u64. apply Z.mod_pos_bound. lia. Qed.

(** The name table keeps, for every name, the first record of the walk. *)
Lemma symbols_fold gs p n :
  symbols_ (fold_left setup_insert gs p) !! n =
    match symbols_ p !! n with
    | Some var => Some var
    | None => List.find (fun var => String.eqb (name var) n) gs
    end.
Proof.
  revert p. induction gs as [|g gs IH]; intros p; simpl.
  - by destruct (symbols_ p !! n).
  - rewrite IH. simpl. unfold emplace.
    destruct (String.eqb (name g) n) eqn:E.
    + apply String.eqb_eq in E. subst n.
      destruct (symbols_ p !! name g) eqn:F; [by rewrite F|].
      by rewrite lookup_insert_eq.
    + apply String.eqb_neq in E.
      destruct (symbols_ p !! name g) eqn:F; [done|].
      by rewrite lookup_insert_ne.
Qed.

Lemma sorted_fold gs p :
  OrderedMap.sorted (symbols_by_offset p) ->
  OrderedMap.sorted (symbols_by_offset (fold_left setup_insert gs p)).
Proof.
  revert p. induction gs as [|g gs IH]; intros p H; simpl; [done|].
  apply IH. simpl. by apply sorted_emplace.
Qed.

(** The address table keeps, for every runtime address, the first record
    of the walk. *)
Lemma by_offset_fold gs p k :
  OrderedMap.sorted (symbols_by_offset p) ->
  OrderedMap.find k (symbols_by_offset (fold_left setup_insert gs p)) =
    match OrderedMap.find k (symbols_by_offset p) with
    | Some var => Some var
    | None => List.find (fun var => (offset_in (span_ p) var =? k)%Z) gs
    end.
Proof.
  revert p. induction gs as [|g gs IH]; intros p H; simpl.
  - by destruct (OrderedMap.find k _).
  - rewrite IH; [|by apply sorted_emplace]. simpl.
    rewrite find_emplace by done. unfold get_offset.
    rewrite (Z.eqb_sym (offset_in (span_ p) g) k).
    destruct (k =? offset_in (span_ p) g)%Z eqn:E; [|done].
    apply Z.eqb_eq in E. subst k.
    by destruct (OrderedMap.find _ _).
Qed.

Lemma make_pdb_built sp file p :
  make_pdb sp file = Some p ->
  load_pdb_file file = PDB_STATE_OK /\
  p = fold_left setup_insert (get_global_variables file) (ctor file sp).
Proof.
  unfold make_pdb, setup. simpl.
  destruct (load_pdb_file file); simpl; intros [= <-]; done.
Qed.

Lemma built_span sp file p : make_pdb sp file = Some p -> span_ p = sp.
Proof. intros [_ ->]%make_pdb_built. by rewrite span_fold. Qed.

Lemma built_sorted sp file p :
  make_pdb sp file = Some p -> OrderedMap.sorted (symbols_by_offset p).
Proof. intros [_ ->]%make_pdb_built. by apply sorted_fold. Qed.

Lemma built_symbols sp file p n :
  make_pdb sp file = Some p ->
  symbols_ p !! n =
    List.find (fun var => String.eqb (name var) n) (get_global_variables file).
Proof. intros [_ ->]%make_pdb_built. by rewrite symbols_fold. Qed.

Lemma built_by_offset sp file p k :
  make_pdb sp file = Some p ->
  OrderedMap.find k (symbols_by_offset p) =
    List.find (fun var => (offset_in sp var =? k)%Z) (get_global_variables file).
Proof. intros [_ ->]%make_pdb_built. by rewrite by_offset_fold. Qed.

(** Every entry of the address table sits under its own runtime address. *)
Lemma built_entry sp file p k var :
  make_pdb sp file = Some p ->
  In (k, var) (symbols_by_offset p) ->
  k = get_offset p var /\ In var (get_global_variables file).
Proof.
  intros Hp Hin.
  apply (find_In k var _ (built_sorted _ _ _ Hp)) in Hin.
  rewrite (built_by_offset _ _ _ _ Hp) in Hin.
  apply List.find_some in Hin as [Hin E]. apply Z.eqb_eq in E.
  unfold get_offset. rewrite (built_span _ _ _ Hp). done.
Qed.

(** The lookup, read off a cut of the table at [addr]. *)
Lemma symbol_by_addr_cut p addr l1 l2 :
  symbols_by_offset p = l1 ++ l2 ->
  Forall (fun k' => (k' < addr)%Z) (OrderedMap.keys l1) ->
  match l2 with [] => True | (k2, _) :: _ => (addr <= k2)%Z end ->
  symbol_by_addr p addr =
    match l2, last l1 with
    | [], None => Ret None
    | [], Some (_, var) => Ret (Some (cursor_at p addr var))
    | (k2, v2) :: _, prev =>
        if (k2 =? addr)%Z then Ret (Some (cursor_at p addr v2))
        else match prev with
             | None => Undefined
             | Some (_, var) => Ret (Some (cursor_at p addr var))
             end
    end.
Proof.
  intros Hm H1 H2. unfold symbol_by_addr, make_cursor, cursor_at. rewrite Hm.
  rewrite lower_bound_app by done. rewrite length_app.
  destruct l2 as [|[k2 v2] l2]; simpl.
  - rewrite Nat.add_0_r, Nat.eqb_refl, app_nil_r.
    destruct l1 as [|x l1 _] using rev_ind; simpl; [done|].
    rewrite last_snoc, length_app. simpl.
    replace (length l1 + 1) with (S (length l1)) by lia. simpl.
    rewrite lookup_app_r by lia. rewrite Nat.sub_diag. simpl.
    by destruct x.
  - destruct (Nat.eqb_spec (length l1) (length l1 + S (length l2))); [lia|].
    rewrite lookup_app_r by lia. rewrite Nat.sub_diag. simpl.
    destruct (k2 =? addr)%Z.
    + done.
    + destruct l1 as [|x l1 _] using rev_ind; simpl; [done|].
      rewrite last_snoc, length_app. simpl.
      replace (length l1 + 1) with (S (length l1)) by lia.
      destruct (Nat.eqb_spec (length l1) (S (length l1) + S (length l2))); [lia|].
      rewrite <- app_assoc. rewrite lookup_app_r by lia.
      rewrite Nat.sub_diag. simpl. by destruct x.
Qed.
End PdbFacts.

Section SortedLookup.
Context {V : Type}.
Implicit Types (m : OrderedMap.t V).
Import OrderedMap.

Lemma sorted_lookup_lt m i j ki vi kj vj :
  sorted m -> m !! i = Some (ki, vi) -> m !! j = Some (kj, vj) ->
  i < j -> (ki < kj)%Z.
Proof.
  revert i j. induction m as [|[k v] m IH]; intros i j; simpl; [done|].
  intros [Hk Hs] Hi Hj Hlt.
  destruct j as [|j]; [lia|]. simpl in Hj.
  destruct i as [|i]; simpl in Hi.
  - injection Hi as <- <-. rewrite Forall_forall in Hk. apply Hk.
    apply list_elem_of_lookup_2 in Hj.
    apply (list_elem_of_fmap_2 fst) in Hj. exact Hj.
  - apply (IH i j); auto. lia.
Qed.

Lemma sorted_lookup_le m i j ki vi kj vj :
  sorted m -> m !! i = Some (ki, vi) -> m !! j = Some (kj, vj) ->
  i <= j -> (ki <= kj)%Z.
Proof.
  intros Hs Hi Hj Hle. destruct (decide (i = j)) as [->|Hne].
  - rewrite Hi in Hj. injection Hj as -> _. lia.
  - assert (ki < kj)%Z; [|lia].
    eapply sorted_lookup_lt; eauto. lia.
Qed.
End SortedLookup.

Lemma find_first {A : Type} (f : A -> bool) (l1 l2 : list A) (a : A) :
  (forall x, In x l1 -> f x = false) -> f a = true ->
  List.find f (l1 ++ a :: l2) = Some a.
Proof.
  induction l1 as [|x l1 IH]; simpl; intros H Ha.
  - by rewrite Ha.
  - rewrite (H x) by auto. apply IH; auto.
Qed.

Lemma find_is_some {A : Type} (f : A -> bool) (l : list A) (a : A) :
  In a l -> f a = true -> exists b, List.find f l = Some b.
Proof.
  intros Hin Ha. destruct (List.find f l) eqn:E; [eauto|].
  rewrite (List.find_none _ _ E a Hin) in Ha. done.
Qed.

Section SymbolByAddr.
Import Pdb.
Variables (sp : span_t) (file : PDBFile) (p : Pdb.t).
Hypothesis built : make_pdb sp file = Some p.

Lemma cursor_at_entry addr k var :
  In (k, var) (symbols_by_offset p) -> (k <= addr < 2 ^ 64)%Z ->
  cursor_at p addr var = mk_cursor (name var) (addr - k).
Proof.
  intros Hin Ha. destruct (built_entry _ _ _ _ _ built Hin) as [Hk _].
  unfold cursor_at. f_equal. rewrite <- Hk.
  pose proof (offset_range (span_ p) var) as Hr.
  unfold get_offset in Hk. rewrite <- Hk in Hr.
  unfold u64. apply Z.mod_small. lia.
Qed.

(** The entry with the greatest key not above [addr] is the one returned. *)
Lemma symbol_by_addr_greatest addr k var :
  (0 <= addr < 2 ^ 64)%Z ->
  In (k, var) (symbols_by_offset p) -> (k <= addr)%Z ->
  (forall k' var', In (k', var') (symbols_by_offset p) ->
                   (k' <= addr)%Z -> (k' <= k)%Z) ->
  symbol_by_addr p addr = Ret (Some (mk_cursor (name var) (addr - k))).
Proof.
  intros Ha Hin Hle Hmax.
  pose proof (built_sorted _ _ _ built) as Hs.
  rewrite <- (cursor_at_entry addr k var Hin) by lia.
  destruct (in_split _ _ Hin) as (l1 & l2 & Hm).
  rewrite Hm in Hs. apply sorted_app in Hs as (Hs1 & Hs2 & H12).
  simpl in Hs2. destruct Hs2 as [Hk2 Hs2]. rewrite Forall_forall in Hk2.
  destruct (decide (k = addr)) as [->|Hne].
  - rewrite (symbol_by_addr_cut p addr l1 ((addr, var) :: l2) Hm).
    + by rewrite Z.eqb_refl.
    + apply Forall_forall. intros x Hx. apply list_elem_of_In in Hx.
      apply H12; simpl; auto.
    + lia.
  - assert (Hm' : symbols_by_offset p = (l1 ++ [(k, var)]) ++ l2)
      by (by rewrite <- app_assoc).
    assert (Hl2 : forall k2 v2, In (k2, v2) l2 -> (addr < k2)%Z).
    { intros k2 v2 H2.
      assert (k < k2)%Z.
      { apply Hk2. apply list_elem_of_In. apply (in_map fst) in H2. exact H2. }
      destruct (Z_lt_le_dec addr k2) as [|Hc]; [done|].
      assert (k2 <= k)%Z; [|lia].
      apply (Hmax k2 v2); [|done]. rewrite Hm. apply in_or_app. simpl. auto. }
    rewrite (symbol_by_addr_cut p addr (l1 ++ [(k, var)]) l2 Hm').
    + rewrite last_snoc. destruct l2 as [|[k2 v2] l2]; [done|].
      specialize (Hl2 k2 v2 (or_introl eq_refl)).
      destruct (Z.eqb_spec k2 addr); [lia|done].
    + unfold OrderedMap.keys. rewrite map_app. apply Forall_app. split.
      * apply Forall_forall. intros x Hx. apply list_elem_of_In in Hx.
        assert (x < k)%Z; [|lia]. apply H12; simpl; auto.
      * repeat constructor. simpl. lia.
    + destruct l2 as [|[k2 v2] l2]; [done|].
      specialize (Hl2 k2 v2 (or_introl eq_refl)). lia.
Qed.
End SymbolByAddr.

(** X25: on an index built by [setup], [symbol_by_addr addr] takes the
    first entry whose key is >= [addr] and applies the tie-break: key equal
    to [addr], that entry; key strictly greater and an entry before it,
    that previous entry, whose key is strictly smaller; no entry >= [addr],
    the entry with the largest key. Whenever some key is <= [addr], the
    entry returned is the one with the greatest such key, with offset
    [addr - key]; the offset is 0 when [addr] is the runtime address of a
    symbol; the lookup on an empty index is not-found. *)
Theorem symbol_by_addr_nearest sp file p addr :
  Pdb.make_pdb sp file = Some p ->
  (0 <= addr < 2 ^ 64)%Z ->
  let m := Pdb.symbols_by_offset p in
  let it := OrderedMap.lower_bound addr m in
  ((forall j kj vj, m !! j = Some (kj, vj) -> j < it -> (kj < addr)%Z) /\
   (forall kj vj, m !! it = Some (kj, vj) -> (addr <= kj)%Z)) /\
  (forall var, m !! it = Some (addr, var) ->
     Pdb.symbol_by_addr p addr = Ret (Some (mk_cursor (Pdb.name var) 0))) /\
  (forall k v it' k' var',
     m !! it = Some (k, v) -> k <> addr ->
     it = S it' -> m !! it' = Some (k', var') ->
     (k' < addr)%Z /\
     Pdb.symbol_by_addr p addr
       = Ret (Some (mk_cursor (Pdb.name var') (addr - k')))) /\
  (forall k var,
     it = length m -> last m = Some (k, var) ->
     (forall k' var', In (k', var') m -> (k' <= k)%Z) /\
     Pdb.symbol_by_addr p addr
       = Ret (Some (mk_cursor (Pdb.name var) (addr - k)))) /\
  (forall k var,
     In (k, var) m -> (k <= addr)%Z ->
     (forall k' var', In (k', var') m -> (k' <= addr)%Z -> (k' <= k)%Z) ->
     k = Pdb.get_offset p var /\
     Pdb.symbol_by_addr p addr
       = Ret (Some (mk_cursor (Pdb.name var) (addr - k)))) /\
  (forall var,
     In var (Pdb.get_global_variables file) -> Pdb.get_offset p var = addr ->
     exists n, Pdb.symbol_by_addr p addr = Ret (Some (mk_cursor n 0))) /\
  (m = [] -> Pdb.symbol_by_addr p addr = Ret None).
Proof.
  intros Hp Ha m it.
  pose proof (built_sorted _ _ _ Hp) as Hs. fold m in Hs.
  assert (Hnear : forall k var,
     In (k, var) m -> (k <= addr)%Z ->
     (forall k' var', In (k', var') m -> (k' <= addr)%Z -> (k' <= k)%Z) ->
     Pdb.symbol_by_addr p addr
       = Ret (Some (mk_cursor (Pdb.name var) (addr - k)))).
  { intros. by eapply symbol_by_addr_greatest. }
  assert (Hbefore : forall j kj vj,
     m !! j = Some (kj, vj) -> j < it -> (kj < addr)%Z).
  { intros j kj vj Hj Hlt. by eapply lower_bound_before. }
  assert (Hat : forall kj vj, m !! it = Some (kj, vj) -> (addr <= kj)%Z).
  { intros kj vj Hj. by eapply lower_bound_at. }
  assert (Hin : forall j k v, m !! j = Some (k, v) -> In (k, v) m).
  { intros j k v Hj. apply list_elem_of_In. by eapply list_elem_of_lookup_2. }
  split; [split; [exact Hbefore|exact Hat]|].
  split; [|split; [|split; [|split; [|split]]]].
  - intros var Hit.
    replace 0%Z with (addr - addr)%Z by lia.
    apply Hnear; [by eapply Hin|lia|auto].
  - intros k v it' k' var' Hit Hne Hsucc Hprev.
    assert (k' < addr)%Z by (eapply Hbefore; [eassumption|lia]).
    split; [done|].
    apply Hnear; [by eapply Hin|lia|].
    intros k2 v2 H2 Hle.
    apply list_elem_of_In, list_elem_of_lookup_1 in H2 as [j Hj].
    assert (addr <= k)%Z by (by eapply Hat).
    destruct (Nat.lt_ge_cases j it) as [Hlt|Hge].
    + eapply (sorted_lookup_le m j it'); eauto. lia.
    + assert (k <= k2)%Z; [|lia].
      eapply (sorted_lookup_le m it j); eauto.
  - intros k var Hend Hlast.
    rewrite last_lookup in Hlast.
    assert (Hmax : forall k' var', In (k', var') m -> (k' <= k)%Z).
    { intros k' var' H'.
      apply list_elem_of_In, list_elem_of_lookup_1 in H' as [j Hj].
      eapply (sorted_lookup_le m j (pred (length m))); eauto.
      apply lookup_lt_Some in Hj. lia. }
    split; [exact Hmax|].
    assert (Hlen : pred (length m) < it).
    { apply lookup_lt_Some in Hlast. lia. }
    apply Hnear; [by eapply Hin| |].
    + assert (k < addr)%Z; [|lia]. by eapply Hbefore.
    + intros k' var' H' _. by eapply Hmax.
  - intros k var Hk Hle Hmax. split.
    + by destruct (built_entry _ _ _ _ _ Hp Hk).
    + by apply Hnear.
  - intros var Hvar Hoff.
    pose proof (built_by_offset _ _ _ addr Hp) as Hf.
    destruct (find_is_some (fun v => (Pdb.offset_in sp v =? addr)%Z)
                (Pdb.get_global_variables file) var Hvar) as [b Hb].
    { apply Z.eqb_eq. unfold Pdb.get_offset in Hoff.
      by rewrite (built_span _ _ _ Hp) in Hoff. }
    rewrite Hb in Hf. apply (find_In _ _ _ Hs) in Hf.
    exists (Pdb.name b). replace 0%Z with (addr - addr)%Z by lia.
    apply Hnear; [done|lia|auto].
  - intros Hm. unfold Pdb.symbol_by_addr. fold m. by rewrite Hm.
Qed.

Lemma symbol_by_addr_nearest_witness :
  exists p,
    Pdb.make_pdb Samples.sample_span Samples.three_symbols = Some p /\
    (0 <= 4140 < 2 ^ 64)%Z /\
    Pdb.symbol_by_addr p 4140
      = Ret (Some (mk_cursor "beta" (4140 - (4096 + 32)))).
Proof.
  eexists. split; [reflexivity|]. split; [lia|].
  pose proof (symbol_by_addr_nearest Samples.sample_span Samples.three_symbols
                _ 4140 eq_refl ltac:(lia)) as H.
  destruct H as (_ & _ & _ & _ & Hnear & _).
  apply (Hnear (4096 + 32)%Z (Pdb.mk_var "beta" (Pdb.BASE_ADDRESS + 32))).
  - vm_compute. tauto.
  - lia.
  - intros k' var' Hin Hle. vm_compute in Hin.
    destruct Hin as [[= <- <-]|[[= <- <-]|[[= <- <-]|[]]]]; lia.
Defined.

(** C1, the defect: [Pdb::symbol(uint64_t)] steps to the previous item
    without a test against [begin()]. With symbols at the runtime addresses
    4112, 4128 and 4144, the lookup of the lower address 16 finds the entry
    at 4112 as the first one >= 16, its key is not 16, and there is no entry
    before it to step to: the step has no defined result and no symbol is
    returned, where the claim has the lookup return some result. *)
Lemma symbol_by_addr_below_smallest :
  exists p,
    Pdb.make_pdb Samples.sample_span Samples.three_symbols = Some p /\
    OrderedMap.keys (Pdb.symbols_by_offset p) = [4112; 4128; 4144]%Z /\
    OrderedMap.lower_bound 16 (Pdb.symbols_by_offset p) = 0 /\
    Pdb.symbol_by_addr p 16 = Undefined /\
    ~ (exists c, Pdb.symbol_by_addr p 16 = Ret (Some c)).
Proof.
  eexists. split; [reflexivity|]. split; [reflexivity|].
  split; [reflexivity|]. split; [reflexivity|].
  intros [c Hc]. vm_compute in Hc. discriminate.
Qed.

(** C5 (as amended): both tables are filled with [emplace], so the first
    record of the walk wins: a name is mapped to the earliest record of
    that name, a runtime address to the earliest record at that address.
    After construction, the runtime address of every record of the name
    table is a key of the address table, the name of every record of the
    address table is a key of the name table, and every key of the address
    table is the runtime address of its record; when names are pairwise
    distinct and runtime addresses are pairwise distinct, the two tables
    hold the same records. *)
Theorem setup_first_write_wins sp file p :
  Pdb.make_pdb sp file = Some p ->
  let gs := Pdb.get_global_variables file in
  (forall l1 var l2,
     gs = l1 ++ var :: l2 ->
     (forall x, In x l1 -> Pdb.name x <> Pdb.name var) ->
     Pdb.symbols_ p !! Pdb.name var = Some var) /\
  (forall l1 var l2,
     gs = l1 ++ var :: l2 ->
     (forall x, In x l1 -> Pdb.get_offset p x <> Pdb.get_offset p var) ->
     OrderedMap.find (Pdb.get_offset p var) (Pdb.symbols_by_offset p)
       = Some var) /\
  (forall n var,
     Pdb.symbols_ p !! n = Some var ->
     n = Pdb.name var /\ In var gs /\
     exists var',
       OrderedMap.find (Pdb.get_offset p var) (Pdb.symbols_by_offset p)
         = Some var' /\
       Pdb.get_offset p var' = Pdb.get_offset p var) /\
  (forall k var,
     In (k, var) (Pdb.symbols_by_offset p) ->
     k = Pdb.get_offset p var /\ In var gs /\
     exists var',
       Pdb.symbols_ p !! Pdb.name var = Some var' /\
       Pdb.name var' = Pdb.name var) /\
  (NoDup (map Pdb.name gs) -> NoDup (map (Pdb.get_offset p) gs) ->
   forall var,
     Pdb.symbols_ p !! Pdb.name var = Some var <->
     In (Pdb.get_offset p var, var) (Pdb.symbols_by_offset p)).
Proof.
  intros Hp gs.
  pose proof (built_sorted _ _ _ Hp) as Hs.
  pose proof (built_span _ _ _ Hp) as Hsp.
  assert (Hname : forall n var, Pdb.symbols_ p !! n = Some var ->
                                n = Pdb.name var /\ In var gs).
  { intros n var H. rewrite (built_symbols _ _ _ n Hp) in H.
    apply List.find_some in H as [Hin E]. apply String.eqb_eq in E. auto. }
  assert (Hfirst_name : forall l1 var l2,
     gs = l1 ++ var :: l2 ->
     (forall x, In x l1 -> Pdb.name x <> Pdb.name var) ->
     Pdb.symbols_ p !! Pdb.name var = Some var).
  { intros l1 var l2 Hgs Hl1. rewrite (built_symbols _ _ _ _ Hp).
    fold gs. rewrite Hgs. apply find_first.
    - intros x Hx. apply String.eqb_neq. auto.
    - apply String.eqb_refl. }
  assert (Hfirst_addr : forall l1 var l2,
     gs = l1 ++ var :: l2 ->
     (forall x, In x l1 -> Pdb.get_offset p x <> Pdb.get_offset p var) ->
     OrderedMap.find (Pdb.get_offset p var) (Pdb.symbols_by_offset p)
       = Some var).
  { intros l1 var l2 Hgs Hl1. rewrite (built_by_offset _ _ _ _ Hp).
    fold gs. rewrite Hgs. unfold Pdb.get_offset in *. rewrite Hsp in *.
    apply find_first.
    - intros x Hx. apply Z.eqb_neq. auto.
    - apply Z.eqb_refl. }
  assert (Hkey_present : forall var, In var gs ->
     exists var',
       OrderedMap.find (Pdb.get_offset p var) (Pdb.symbols_by_offset p)
         = Some var' /\
       Pdb.get_offset p var' = Pdb.get_offset p var).
  { intros var Hin. rewrite (built_by_offset _ _ _ _ Hp). fold gs.
    unfold Pdb.get_offset. rewrite Hsp.
    destruct (find_is_some
                (fun v => (Pdb.offset_in sp v =? Pdb.offset_in sp var)%Z)
                gs var Hin (Z.eqb_refl _)) as [b Hb].
    exists b. split; [done|].
    apply List.find_some in Hb as [_ E]. by apply Z.eqb_eq in E. }
  assert (Hname_present : forall var, In var gs ->
     exists var',
       Pdb.symbols_ p !! Pdb.name var = Some var' /\
       Pdb.name var' = Pdb.name var).
  { intros var Hin. rewrite (built_symbols _ _ _ _ Hp). fold gs.
    destruct (find_is_some
                (fun v => String.eqb (Pdb.name v) (Pdb.name var))
                gs var Hin (String.eqb_refl _)) as [b Hb].
    exists b. split; [done|].
    apply List.find_some in Hb as [_ E]. by apply String.eqb_eq in E. }
  split; [exact Hfirst_name|]. split; [exact Hfirst_addr|].
  split; [|split].
  - intros n var H. destruct (Hname n var H) as [-> Hin]. auto.
  - intros k var H. destruct (built_entry _ _ _ _ _ Hp H) as [-> Hin]. auto.
  - intros Hn Ha var.
    assert (Huniq_n : forall a b, In a gs -> In b gs ->
                                  Pdb.name a = Pdb.name b -> a = b).
    { intros a b Ia Ib E. apply list_elem_of_In in Ia, Ib.
      apply list_elem_of_lookup_1 in Ia as [i Hi], Ib as [j Hj].
      assert (i = j); [|congruence].
      eapply (NoDup_lookup (map Pdb.name gs) i j (Pdb.name a)); [done| |].
      - by rewrite list_lookup_fmap, Hi.
      - by rewrite list_lookup_fmap, Hj, E. }
    assert (Huniq_a : forall a b, In a gs -> In b gs ->
              Pdb.get_offset p a = Pdb.get_offset p b -> a = b).
    { intros a b Ia Ib E. apply list_elem_of_In in Ia, Ib.
      apply list_elem_of_lookup_1 in Ia as [i Hi], Ib as [j Hj].
      assert (i = j); [|congruence].
      eapply (NoDup_lookup (map (Pdb.get_offset p) gs) i j
                           (Pdb.get_offset p a)); [done| |].
      - by rewrite list_lookup_fmap, Hi.
      - by rewrite list_lookup_fmap, Hj, E. }
    rewrite (find_In _ _ _ Hs). split; intros H.
    + destruct (Hname _ _ H) as [_ Hin].
      destruct (Hkey_present var Hin) as (var' & Hf & E).
      rewrite Hf. f_equal. apply Huniq_a; auto.
      apply (find_In _ _ _ Hs) in Hf.
      by destruct (built_entry _ _ _ _ _ Hp Hf).
    + apply (find_In _ _ _ Hs) in H.
      destruct (built_entry _ _ _ _ _ Hp H) as [_ Hin].
      destruct (Hname_present var Hin) as (var' & Hf & E).
      rewrite Hf. f_equal. apply Huniq_n; auto.
      by destruct (Hname _ _ Hf).
Qed.

Lemma setup_first_write_wins_witness :
  exists p,
    Pdb.make_pdb Samples.sample_span Samples.same_name = Some p /\
    Pdb.symbols_ p !! "tick"
      = Some (Pdb.mk_var "tick" (Pdb.BASE_ADDRESS + 16)).
Proof.
  eexists. split; [reflexivity|].
  pose proof (setup_first_write_wins Samples.sample_span Samples.same_name
                _ eq_refl) as H.
  destruct H as (Hfirst & _).
  apply (Hfirst [] (Pdb.mk_var "tick" (Pdb.BASE_ADDRESS + 16))
                [Pdb.mk_var "tick" (Pdb.BASE_ADDRESS + 32)]).
  - reflexivity.
  - intros x [].
Defined.

(** C5, the claim as stated fails. Two records named "tick": the name table
    keeps the earlier one, and the later one sits in the address table at
    4128 while its name resolves to 4112. Two records at one address: the
    address table keeps the earlier one. *)
Lemma setup_not_last_write_wins :
  (exists p,
     Pdb.make_pdb Samples.sample_span Samples.same_name = Some p /\
     Pdb.symbols_ p !! "tick"
       = Some (Pdb.mk_var "tick" (Pdb.BASE_ADDRESS + 16)) /\
     Pdb.symbols_ p !! "tick"
       <> Some (Pdb.mk_var "tick" (Pdb.BASE_ADDRESS + 32)) /\
     In (4128%Z, Pdb.mk_var "tick" (Pdb.BASE_ADDRESS + 32))
        (Pdb.symbols_by_offset p) /\
     Pdb.symbol_by_name p "tick" = Some 4112%Z) /\
  (exists p,
     Pdb.make_pdb Samples.sample_span Samples.same_address = Some p /\
     OrderedMap.find 4112 (Pdb.symbols_by_offset p)
       = Some (Pdb.mk_var "alpha" (Pdb.BASE_ADDRESS + 16)) /\
     OrderedMap.find 4112 (Pdb.symbols_by_offset p)
       <> Some (Pdb.mk_var "beta" (Pdb.BASE_ADDRESS + 16)) /\
     Pdb.symbols_ p !! "beta"
       = Some (Pdb.mk_var "beta" (Pdb.BASE_ADDRESS + 16)) /\
     ~ In (4112%Z, Pdb.mk_var "beta" (Pdb.BASE_ADDRESS + 16))
          (Pdb.symbols_by_offset p)).
Proof.
  split.
  - eexists. split; [reflexivity|]. split; [reflexivity|].
    split; [vm_compute; discriminate|].
    split; [vm_compute; tauto|reflexivity].
  - eexists. split; [reflexivity|]. split; [reflexivity|].
    split; [vm_compute; discriminate|]. split; [reflexivity|].
    vm_compute. intros [H|[]]. discriminate.
Qed.

(** C6 (as amended): when the name lookup resolves [s] to [a], the address
    lookup at [a] returns offset 0 together with the name of the first
    record of the collection whose runtime address is [a]; that name is [s]
    whenever the records that share a runtime address share their name, as
    they do when runtime addresses are pairwise distinct. *)
Theorem name_then_addr_lookup sp file p s a :
  Pdb.make_pdb sp file = Some p ->
  Pdb.symbol_by_name p s = Some a ->
  let gs := Pdb.get_global_variables file in
  exists var,
    List.find (fun v => (Pdb.offset_in sp v =? a)%Z) gs = Some var /\
    Pdb.symbol_by_addr p a = Ret (Some (mk_cursor (Pdb.name var) 0)) /\
    ((forall v1 v2, In v1 gs -> In v2 gs ->
                    Pdb.get_offset p v1 = Pdb.get_offset p v2 ->
                    Pdb.name v1 = Pdb.name v2) ->
     Pdb.name var = s).
Proof.
  intros Hp Hs gs. unfold Pdb.symbol_by_name in Hs.
  destruct (Pdb.symbols_ p !! s) as [v0|] eqn:E; [|done].
  injection Hs as <-.
  rewrite (built_symbols _ _ _ _ Hp) in E.
  apply List.find_some in E as [Hin0 En]. apply String.eqb_eq in En.
  pose proof (built_span _ _ _ Hp) as Hsp.
  pose proof (built_sorted _ _ _ Hp) as Hsorted.
  assert (Ha : Pdb.get_offset p v0 = Pdb.offset_in sp v0)
    by (unfold Pdb.get_offset; by rewrite Hsp).
  destruct (find_is_some
              (fun v => (Pdb.offset_in sp v =? Pdb.get_offset p v0)%Z)
              gs v0 Hin0) as [var Hvar].
  { apply Z.eqb_eq. by rewrite Ha. }
  exists var. split; [exact Hvar|].
  pose proof (built_by_offset _ _ _ (Pdb.get_offset p v0) Hp) as Hf.
  fold gs in Hf. rewrite Hvar in Hf. apply (find_In _ _ _ Hsorted) in Hf.
  split.
  - replace 0%Z with (Pdb.get_offset p v0 - Pdb.get_offset p v0)%Z by lia.
    pose proof (offset_range sp v0) as Hr. rewrite <- Ha in Hr.
    eapply symbol_by_addr_greatest; eauto; lia.
  - intros Hshare. rewrite <- En. apply Hshare.
    + by destruct (built_entry _ _ _ _ _ Hp Hf).
    + exact Hin0.
    + by destruct (built_entry _ _ _ _ _ Hp Hf) as [<- _].
Qed.

Lemma name_then_addr_lookup_witness :
  exists p,
    Pdb.make_pdb Samples.sample_span Samples.three_symbols = Some p /\
    Pdb.symbol_by_name p "beta" = Some 4128%Z /\
    Pdb.symbol_by_addr p 4128 = Ret (Some (mk_cursor "beta" 0)).
Proof.
  eexists. split; [reflexivity|]. split; [reflexivity|].
  destruct (name_then_addr_lookup Samples.sample_span Samples.three_symbols
              _ "beta" 4128%Z eq_refl eq_refl) as (var & Hfind & Hres & _).
  vm_compute in Hfind. injection Hfind as <-. exact Hres.
Defined.

(** C6, the claim as stated fails: "alpha" and "beta" share the runtime
    address 4112; the name lookup of "beta" gives 4112, and the address
    lookup at 4112 answers ("alpha", 0). *)
Lemma name_addr_disagree :
  exists p,
    Pdb.make_pdb Samples.sample_span Samples.same_address = Some p /\
    Pdb.symbol_by_name p "beta" = Some 4112%Z /\
    Pdb.symbol_by_addr p 4112 = Ret (Some (mk_cursor "alpha" 0)) /\
    Pdb.symbol_by_addr p 4112 <> Ret (Some (mk_cursor "beta" 0)).
Proof.
  eexists. split; [reflexivity|]. split; [reflexivity|].
  split; [reflexivity|]. vm_compute. discriminate.
Qed.

(** ** Substring search *)

Lemma prefix_app (s hay : string) :
  String.prefix s hay = true <-> exists post, hay = s +:+ post.
Proof.
  revert hay. induction s as [|c s IH]; intros hay.
  - destruct hay; simpl; (split; [intros _; by eexists|done]).
  - destruct hay as [|c' hay]; simpl.
    + split; [done|intros [post [=]]].
    + destruct (Ascii.ascii_dec c c') as [->|Hne].
      * rewrite IH. split; intros [post E]; exists post.
        -- simpl. by rewrite E.
        -- simpl in E. by injection E.
      * split; [done|]. intros [post E]. simpl in E. injection E as E _. done.
Qed.

Lemma find_eq (s hay : string) :
  Pdb.find s hay =
    if String.prefix s hay then Some 0
    else match hay with
         | EmptyString => None
         | String _ hay' => option_map S (Pdb.find s hay')
         end.
Proof. destruct hay; reflexivity. Qed.

Lemma find_contains (s hay : string) :
  is_Some (Pdb.find s hay) <-> Pdb.contains s hay.
Proof.
  unfold Pdb.contains. split.
  - induction hay as [|c hay IH]; rewrite find_eq.
    + destruct (String.prefix s "") eqn:E; [|by intros [? [=]]].
      intros _. apply prefix_app in E as [post E]. by exists ""%string, post.
    + destruct (String.prefix s (String c hay)) eqn:E.
      * intros _. apply prefix_app in E as [post E]. by exists ""%string, post.
      * intros [i Hi]. destruct (Pdb.find s hay) as [j|]; [|done].
        destruct IH as (pre & post & E'); [done|].
        exists (String c pre), post. simpl. by rewrite E'.
  - intros (pre & post & ->).
    induction pre as [|c pre IH]; rewrite find_eq.
    + assert (E : String.prefix s (s +:+ post) = true)
        by (apply prefix_app; eauto).
      change ("" +:+ s +:+ post)%string with (s +:+ post)%string.
      by rewrite E.
    + destruct (String.prefix s (String c pre +:+ s +:+ post)); [done|].
      change (String c pre +:+ s +:+ post)%string
        with (String c (pre +:+ s +:+ post)).
      destruct IH as [i ->]. done.
Qed.

(** ** Substring lookup *)

Lemma collect_fold p s (m : gmap string Pdb.PDBGlobalVariable) n a :
  map_fold (Pdb.collect p s) ∅ m !! n = Some a <->
  exists var, m !! n = Some var /\ Pdb.contains s n /\ a = Pdb.get_offset p var.
Proof.
  revert n a.
  apply (map_fold_weak_ind
           (fun (found : gmap string Z) (m : gmap string Pdb.PDBGlobalVariable) =>
              forall n a, found !! n = Some a <->
                exists var, m !! n = Some var /\ Pdb.contains s n
                            /\ a = Pdb.get_offset p var)).
  - intros n a. rewrite lookup_empty. split; [done|].
    intros (var & H & _). by rewrite lookup_empty in H.
  - intros i x m' r Hnone IH n a. unfold Pdb.collect, Pdb.emplace.
    assert (Hr : r !! i = None).
    { destruct (r !! i) as [b|] eqn:E; [|done].
      apply IH in E as (var & E & _). congruence. }
    destruct (Pdb.find s i) as [pos|] eqn:Ef.
    + rewrite Hr. destruct (decide (i = n)) as [->|Hne].
      * rewrite !lookup_insert_eq. split.
        -- intros [= <-]. exists x. repeat split.
           apply find_contains. by rewrite Ef.
        -- intros (var & [= <-] & _ & ->). done.
      * rewrite !lookup_insert_ne by done. apply IH.
    + destruct (decide (i = n)) as [->|Hne].
      * rewrite lookup_insert_eq, Hr. split; [done|].
        intros (var & _ & Hc & _). apply find_contains in Hc.
        rewrite Ef in Hc. by destruct Hc.
      * rewrite lookup_insert_ne by done. apply IH.
Qed.

(** C7: [symbols_that_contains] answers with exactly the symbols of the
    name table whose name contains the substring at any position, each
    mapped to its runtime address; when no symbol matches, it answers
    not-found, and a mapping that is returned is never empty. *)
Theorem symbols_that_contains_exact p s :
  match Pdb.symbols_that_contains p s with
  | None =>
      forall n var, Pdb.symbols_ p !! n = Some var -> ~ Pdb.contains s n
  | Some found =>
      found <> ∅ /\
      forall n a, found !! n = Some a <->
        exists var, Pdb.symbols_ p !! n = Some var /\ Pdb.contains s n
                    /\ a = Pdb.get_offset p var
  end.
Proof.
  unfold Pdb.symbols_that_contains.
  destruct (Nat.eqb_spec
              (base.size (map_fold (Pdb.collect p s) ∅ (Pdb.symbols_ p))) 0)
    as [Hz|Hnz].
  - apply map_size_empty_iff in Hz.
    intros n var Hn Hc.
    assert (H : map_fold (Pdb.collect p s) ∅ (Pdb.symbols_ p) !! n
                = Some (Pdb.get_offset p var)).
    { apply collect_fold. eauto. }
    rewrite Hz, lookup_empty in H. done.
  - split.
    + by apply map_size_non_empty_iff.
    + intros n a. apply collect_fold.
Qed.

(** ** Bytes, byte order and hexadecimal digits *)

Section Bytes.
Import Scanner.
Local Open Scope Z_scope.

Lemma lor_shiftl_8 a b :
  is_byte a -> 0 <= b -> Z.lor a (Z.shiftl b 8) = a + 256 * b.
Proof.
  intros [Ha1 Ha2] Hb.
  pose proof (Z.add_lor_land a (Z.shiftl b 8)) as Hsum.
  assert (E : Z.land a (Z.shiftl b 8) = 0).
  { apply Z.bits_inj'. intros n Hn.
    rewrite Z.land_spec, Z.bits_0, Z.shiftl_spec by done.
    destruct (Z_lt_le_dec n 8) as [Hlt|Hge].
    - rewrite (Z.testbit_neg_r b) by lia. apply andb_false_r.
    - assert (Hf : Z.testbit a n = false); [|by rewrite Hf].
      apply Z.testbit_false; [done|].
      rewrite Z.div_small; [done|].
      split; [done|].
      apply Z.lt_le_trans with (2 ^ 8); [done|].
      apply Z.pow_le_mono_r; lia. }
  rewrite E, Z.add_0_r in Hsum. rewrite Hsum.
  rewrite Z.shiftl_mul_pow2 by lia. change (2 ^ 8) with 256. lia.
Qed.

Lemma le_value_nonneg bs : Forall is_byte bs -> 0 <= le_value bs.
Proof.
  induction 1 as [|b bs Hb _ IH]; simpl; [done|].
  rewrite lor_shiftl_8 by done. destruct Hb. lia.
Qed.

Lemma le_value_cons b bs :
  is_byte b -> Forall is_byte bs ->
  le_value (b :: bs) = b + 256 * le_value bs.
Proof.
  intros Hb Hbs. simpl. apply lor_shiftl_8; [done|].
  by apply le_value_nonneg.
Qed.

Lemma byte_of_div v shift :
  0 <= shift -> byte_of v shift = (v / 2 ^ shift) mod 256.
Proof.
  intros Hs. unfold byte_of. rewrite Z.shiftr_div_pow2 by done.
  change 255 with (Z.ones 8). by rewrite Z.land_ones.
Qed.

Lemma le_value_4 a b c d :
  is_byte a -> is_byte b -> is_byte c -> is_byte d ->
  le_value [a; b; c; d] = a + 256 * b + 65536 * c + 16777216 * d.
Proof.
  intros Ha Hb Hc Hd.
  rewrite (le_value_cons a), (le_value_cons b), (le_value_cons c),
    (le_value_cons d) by (try done; repeat (constructor; try done)).
  simpl. lia.
Qed.

Lemma le_value_2 a b :
  is_byte a -> is_byte b -> le_value [a; b] = a + 256 * b.
Proof.
  intros Ha Hb.
  rewrite (le_value_cons a), (le_value_cons b)
    by (try done; repeat (constructor; try done)).
  simpl. lia.
Qed.

(** Reading little-endian and writing big-endian reverses the bytes. *)
Lemma write_be32_read_le32 a b c d :
  is_byte a -> is_byte b -> is_byte c -> is_byte d ->
  write_be32 (le_value [a; b; c; d]) = [d; c; b; a].
Proof.
  intros Ha Hb Hc Hd. rewrite le_value_4 by done.
  unfold write_be32. rewrite !byte_of_div by lia.
  unfold is_byte in *.
  change (2 ^ 24) with 16777216. change (2 ^ 16) with 65536.
  change (2 ^ 8) with 256. change (2 ^ 0) with 1.
  repeat f_equal; Z.div_mod_to_equations; lia.
Qed.

Lemma write_be16_read_le16 a b :
  is_byte a -> is_byte b -> write_be16 (le_value [a; b]) = [b; a].
Proof.
  intros Ha Hb. rewrite le_value_2 by done.
  unfold write_be16. rewrite !byte_of_div by lia.
  unfold is_byte in *.
  change (2 ^ 8) with 256. change (2 ^ 0) with 1.
  repeat f_equal; Z.div_mod_to_equations; lia.
Qed.

Lemma hex_convert_length bs :
  String.length (hex_convert bs) = (2 * length bs)%nat.
Proof. induction bs as [|b bs IH]; simpl; [done|]. rewrite IH. lia. Qed.

Lemma hex_digit_upper n : 0 <= n < 16 -> In (hex_digit n) chars_upper.
Proof.
  intros Hn. unfold hex_digit. apply nth_In.
  change (length chars_upper) with 16%nat. lia.
Qed.

Lemma hex_convert_upper bs :
  Forall is_byte bs ->
  Forall (fun c => In c chars_upper) (list_ascii_of_string (hex_convert bs)).
Proof.
  induction 1 as [|b bs [Hb1 Hb2] _ IH]; simpl; [constructor|].
  constructor; [|constructor; [|exact IH]].
  - apply hex_digit_upper. rewrite Z.shiftr_div_pow2 by lia.
    change (2 ^ 4) with 16. Z.div_mod_to_equations; lia.
  - apply hex_digit_upper. change 15 with (Z.ones 4).
    rewrite Z.land_ones by lia. change (2 ^ 4) with 16.
    Z.div_mod_to_equations; lia.
Qed.
End Bytes.

(** ** The scanner's memory accesses *)

Section ScannerFacts.
Import Scanner.

Lemma search_ge mem first last pat r :
  search mem first last pat = Some r -> first <= r.
Proof.
  unfold search. destruct (find_sub _ _); simpl; [|done].
  intros [= <-]. lia.
Qed.

Lemma bind_Ret {A B : Type} (a : A) (f : A -> outcome B) :
  (Ret a ≫= f) = f a.
Proof. reflexivity. Qed.

Lemma load_ok mem p n :
  p + n <= length mem -> load mem p n = Ret (take n (drop p mem)).
Proof.
  intros H. unfold load. by destruct (Nat.leb_spec (p + n) (length mem)); [|lia].
Qed.

(** What a successful [memchr] tells about the memory it walked over. *)
Lemma memchr_Some mem p c n q :
  memchr mem p c n = Ret (Some q) ->
  p <= q < p + n /\ mem !! q = Some c /\
  forall j, p <= j < q -> exists b, mem !! j = Some b /\ b <> c.
Proof.
  revert p. induction n as [|n IH]; intros p; simpl; [done|].
  destruct (mem !! p) as [b|] eqn:E; [|done].
  destruct (Z.eqb_spec b c) as [->|Hne].
  - intros [= <-]. repeat split; [lia|lia|done|]. intros j ?. lia.
  - intros H. destruct (IH _ H) as (Hq & Hc & Hbefore).
    repeat split; [lia|lia|done|].
    intros j Hj. destruct (decide (j = p)) as [->|]; [eauto|].
    apply Hbefore. lia.
Qed.

Lemma memchr_found pre nm rest n :
  Forall (fun b => b <> 0%Z) nm -> length nm < n ->
  memchr (pre ++ nm ++ 0%Z :: rest) (length pre) 0 n
    = Ret (Some (length pre + length nm)).
Proof.
  revert pre n. induction nm as [|b nm IH]; intros pre n Hnz Hn.
  - destruct n as [|n]; [simpl in Hn; lia|]. simpl.
    rewrite list_lookup_middle by done. simpl. by rewrite Nat.add_0_r.
  - destruct n as [|n]; [simpl in Hn; lia|].
    apply Forall_cons in Hnz as [Hb Hnz]. simpl.
    rewrite list_lookup_middle by done.
    destruct (Z.eqb_spec b 0) as [|_]; [done|].
    replace (pre ++ b :: nm ++ 0%Z :: rest)
      with ((pre ++ [b]) ++ nm ++ 0%Z :: rest) by (by rewrite <- app_assoc).
    replace (S (length pre)) with (length (pre ++ [b]))
      by (rewrite length_app; simpl; lia).
    rewrite IH; [|done|simpl in Hn; lia].
    rewrite length_app. simpl. f_equal. f_equal. lia.
Qed.

(** A candidate that passes the size check and has a terminator in the
    range handed to [memchr] is accepted or skipped on the printability
    of its name alone. *)
Lemma read_pdb_iter_candidate mem src end_ rsds name_end :
  end_ <= length mem ->
  search mem src end_ rsds_magic = Some rsds ->
  26 <= end_ - rsds ->
  memchr mem (rsds + 24) 0 (end_ - rsds) = Ret (Some name_end) ->
  read_pdb_iter mem src end_ =
    Ret (let guid := write_be32 (le_value (take 4 (drop (rsds + 4) mem)))
                     ++ write_be16 (le_value (take 2 (drop (rsds + 8) mem)))
                     ++ write_be16 (le_value (take 2 (drop (rsds + 10) mem)))
                     ++ take 8 (drop (rsds + 12) mem) in
         let age := le_value (take 4 (drop (rsds + 20) mem)) in
         let nm := take (name_end - (rsds + 24)) (drop (rsds + 24) mem) in
         if forallb isprint nm
         then Return (Some (mk_ctx (hex_convert guid +:+ to_string age)
                                   (string_of_bytes nm)))
         else Resume (rsds + 1)).
Proof.
  intros Hend Hsearch Hsize Hchr. unfold read_pdb_iter.
  rewrite Hsearch. cbv zeta.
  destruct (Nat.ltb_spec (end_ - rsds) (4 + 16 + 4 + 2)) as [Hlt|_];
    [simpl in Hlt; lia|].
  change (4 + 16 + 4) with 24. rewrite Hchr.
  destruct (memchr_Some _ _ _ _ _ Hchr) as (Hq & Hz & _).
  apply lookup_lt_Some in Hz.
  unfold read_le32, read_le16, read_pdb_name.
  change (4 + 0) with 4. change (4 + 4) with 8. change (4 + 6) with 10.
  change (4 + 8) with 12. change (4 + 16) with 20.
  repeat first [rewrite load_ok by lia | rewrite bind_Ret].
  by destruct (forallb isprint _).
Qed.

(** A turn that goes round again has moved [src] forward inside the
    buffer. *)
Lemma read_pdb_iter_progress mem src end_ src' :
  read_pdb_iter mem src end_ = Ret (Resume src') -> src < src' <= end_.
Proof.
  unfold read_pdb_iter.
  destruct (search mem src end_ rsds_magic) as [rsds|] eqn:Hs; [|done].
  apply search_ge in Hs. cbv zeta.
  destruct (Nat.ltb_spec (end_ - rsds) (4 + 16 + 4 + 2)) as [|Hge]; [done|].
  simpl in Hge.
  unfold read_le32, read_le16, read_pdb_name, mbind, outcome_bind.
  repeat case_match; try done.
  intros [= <-]. lia.
Qed.

(** The turn budget of [read_pdb] is never used up. *)
Lemma read_pdb_loop_total fuel mem src end_ :
  end_ - src < fuel -> read_pdb_loop fuel mem src end_ <> Exhausted.
Proof.
  revert src. induction fuel as [|fuel IH]; intros src Hf; [lia|]. simpl.
  destruct (read_pdb_iter mem src end_) as [[r|src']|] eqn:E; [done| |done].
  apply read_pdb_iter_progress in E. apply IH. lia.
Qed.

(** Any budget above the bytes left gives the same scan. *)
Lemma read_pdb_loop_fuel fuel fuel' mem src end_ :
  end_ - src < fuel -> end_ - src < fuel' ->
  read_pdb_loop fuel mem src end_ = read_pdb_loop fuel' mem src end_.
Proof.
  revert fuel' src. induction fuel as [|fuel IH]; intros fuel' src Hf Hf'; [lia|].
  destruct fuel' as [|fuel']; [lia|]. simpl.
  destruct (read_pdb_iter mem src end_) as [[r|src']|] eqn:E; [done| |done].
  apply read_pdb_iter_progress in E. apply IH; lia.
Qed.

Lemma read_pdb_total mem src_size : read_pdb mem src_size <> Exhausted.
Proof.
  unfold read_pdb. destruct (Nat.leb _ _); [|done].
  apply read_pdb_loop_total. lia.
Qed.
End ScannerFacts.

(** ** The scanner on single records *)

(** C2 (as amended): on a buffer made of the marker "RSDS", a 16-byte
    identifier, a little-endian 4-byte age [N] and a printable,
    null-terminated name of at least one character, whatever lies behind the
    buffer, the scanner succeeds; it returns the name without its terminator
    and an identifier string made of 32 uppercase hexadecimal characters,
    which render the identifier with its fields of widths 4, 2, 2 written
    big-endian and its last 8 bytes verbatim, followed by [N] in decimal. *)
Theorem read_pdb_round_trip (g : list Z) (a0 a1 a2 a3 : Z) (nm beyond : list Z) :
  length g = 16 ->
  Forall Scanner.is_byte g ->
  Forall Scanner.is_byte [a0; a1; a2; a3] ->
  nm <> [] ->
  Forall (fun b => Scanner.isprint b = true) nm ->
  let buf := Scanner.rsds_magic ++ g ++ [a0; a1; a2; a3] ++ nm ++ [0%Z] in
  let N := (a0 + 256 * a1 + 65536 * a2 + 16777216 * a3)%Z in
  let id := Scanner.hex_convert (Scanner.guid_big_endian g) in
  Scanner.read_pdb (buf ++ beyond) (length buf)
    = Scanner.Done
        (Some (Scanner.mk_ctx (id +:+ Scanner.to_string N)
                              (Scanner.string_of_bytes nm))) /\
  String.length id = 32 /\
  Forall (fun c => In c Scanner.chars_upper) (list_ascii_of_string id).
Proof.
  intros Hlen Hg Ha Hne Hprint buf N id.
  assert (Hbe : Forall Scanner.is_byte (Scanner.guid_big_endian g)).
  { unfold Scanner.guid_big_endian.
    do 17 (destruct g as [|? g]; try discriminate). simpl.
    repeat (apply Forall_cons in Hg as [? Hg]).
    repeat (constructor; try done). }
  split; [|split].
  2: { subst id. rewrite hex_convert_length.
       unfold Scanner.guid_big_endian.
       do 17 (destruct g as [|? g]; try discriminate). reflexivity. }
  2: { by apply hex_convert_upper. }
  assert (Hnz : Forall (fun b => b <> 0%Z) nm).
  { eapply Forall_impl; [exact Hprint|]. simpl. intros b Hb ->. done. }
  assert (Hall : forallb Scanner.isprint nm = true).
  { apply forallb_forall. intros b Hb. rewrite Forall_forall in Hprint.
    apply Hprint. by apply list_elem_of_In. }
  do 17 (destruct g as [|? g]; try discriminate).
  repeat (apply Forall_cons in Hg as [? Hg]).
  repeat (apply Forall_cons in Ha as [? Ha]).
  destruct nm as [|n0 nm]; [done|].
  subst buf id N. unfold Scanner.read_pdb.
  set (mem := (Scanner.rsds_magic ++ _) ++ beyond).
  set (end_ := length (Scanner.rsds_magic ++ _)).
  assert (Hend : end_ = 26 + length nm).
  { subst end_. simpl. rewrite length_app. simpl. lia. }
  assert (Hmem : end_ <= length mem).
  { subst mem end_. rewrite (length_app _ beyond). lia. }
  destruct (Nat.leb_spec end_ (length mem)) as [_|]; [|lia].
  assert (Hshape : mem =
    [82; 83; 68; 83; z; z0; z1; z2; z3; z4; z5; z6; z7; z8; z9; z10; z11;
     z12; z13; z14; a0; a1; a2; a3]%Z ++ (n0 :: nm) ++ 0%Z :: beyond).
  { subst mem. simpl. rewrite <- !app_assoc. reflexivity. }
  assert (Hsearch : Scanner.search mem 0 end_ Scanner.rsds_magic = Some 0).
  { rewrite Hshape, Hend. reflexivity. }
  assert (Hchr : Scanner.memchr mem (0 + 24) 0 (end_ - 0)
                 = Ret (Some (24 + length (n0 :: nm)))).
  { rewrite Hshape.
    apply (memchr_found [82; 83; 68; 83; z; z0; z1; z2; z3; z4; z5; z6; z7;
                         z8; z9; z10; z11; z12; z13; z14; a0; a1; a2; a3]%Z
                        (n0 :: nm) beyond); [done|].
    rewrite Hend. simpl. lia. }
  simpl Scanner.read_pdb_loop.
  rewrite (read_pdb_iter_candidate mem 0 end_ 0 _ Hmem Hsearch ltac:(lia) Hchr).
  cbv zeta.
  replace (24 + length (n0 :: nm) - (0 + 24)) with (length (n0 :: nm)) by lia.
  rewrite Hshape.
  change (drop (0 + 24) (?pre ++ (n0 :: nm) ++ 0%Z :: beyond))
    with ((n0 :: nm) ++ 0%Z :: beyond).
  rewrite take_app_length, Hall.
  do 2 f_equal. f_equal.
  change (0 + 4) with 4. change (0 + 8) with 8. change (0 + 10) with 10.
  change (0 + 12) with 12. change (0 + 20) with 20.
  cbn [drop take app].
  rewrite write_be32_read_le32, !write_be16_read_le16, le_value_4 by done.
  reflexivity.
Qed.

Lemma read_pdb_round_trip_witness :
  Scanner.read_pdb Samples.well_formed (length Samples.well_formed)
    = Scanner.Done
        (Some (Scanner.mk_ctx "67452301AB89EFCD1032547698BADCFE300" "foo.pdb")).
Proof.
  pose proof (read_pdb_round_trip Samples.sample_guid 44 1 0 0
                Samples.foo_pdb []) as H.
  destruct H as (Hres & _).
  - reflexivity.
  - unfold Scanner.is_byte. repeat constructor; lia.
  - unfold Scanner.is_byte. repeat constructor; lia.
  - discriminate.
  - repeat constructor.
  - rewrite app_nil_r in Hres. exact Hres.
Defined.

(** C2, the claim as stated fails: with an empty name the record has 25
    bytes, one less than the 4 + 16 + 4 + 2 the scanner asks for, and the
    scan fails. *)
Lemma read_pdb_empty_name :
  Forall (fun b => Scanner.isprint b = true) [] /\
  length Samples.empty_name = 25 /\
  Scanner.read_pdb Samples.empty_name (length Samples.empty_name)
    = Scanner.Done None.
Proof. repeat split. constructor. Qed.

(** ** Rejected candidates *)

(** C4 (as amended): at a candidate "RSDS" match, a non-printable byte in
    the name makes the scanner drop that candidate alone and go on one byte
    past the marker, the scan then being the scan from there; a remainder
    shorter than 4 + 16 + 4 + 2 bytes, and equally a search for the
    terminator that finds none, end the whole scan at once with failure. *)
Theorem read_pdb_reject_and_resume mem src end_ rsds :
  end_ <= length mem ->
  Scanner.search mem src end_ Scanner.rsds_magic = Some rsds ->
  (end_ - rsds < 26 ->
     Scanner.read_pdb_iter mem src end_ = Ret (Scanner.Return None) /\
     forall fuel,
       Scanner.read_pdb_loop (S fuel) mem src end_ = Scanner.Done None) /\
  (26 <= end_ - rsds ->
   Scanner.memchr mem (rsds + 24) 0 (end_ - rsds) = Ret None ->
     Scanner.read_pdb_iter mem src end_ = Ret (Scanner.Return None) /\
     forall fuel,
       Scanner.read_pdb_loop (S fuel) mem src end_ = Scanner.Done None) /\
  (forall name_end i b,
     26 <= end_ - rsds ->
     Scanner.memchr mem (rsds + 24) 0 (end_ - rsds) = Ret (Some name_end) ->
     rsds + 24 <= i < name_end ->
     mem !! i = Some b -> Scanner.isprint b = false ->
     Scanner.read_pdb_iter mem src end_ = Ret (Scanner.Resume (rsds + 1)) /\
     forall fuel,
       end_ - src < fuel ->
       Scanner.read_pdb_loop fuel mem src end_
         = Scanner.read_pdb_loop fuel mem (rsds + 1) end_).
Proof.
  intros Hend Hsearch.
  assert (Hloop : forall st,
    Scanner.read_pdb_iter mem src end_ = Ret st ->
    forall fuel,
      Scanner.read_pdb_loop (S fuel) mem src end_ =
        match st with
        | Scanner.Return r => Scanner.Done r
        | Scanner.Resume src' => Scanner.read_pdb_loop fuel mem src' end_
        end).
  { intros st Hst fuel. simpl. by rewrite Hst. }
  split; [|split].
  - intros Hshort.
    assert (E : Scanner.read_pdb_iter mem src end_ = Ret (Scanner.Return None)).
    { unfold Scanner.read_pdb_iter. rewrite Hsearch. cbv zeta.
      destruct (Nat.ltb_spec (end_ - rsds) (4 + 16 + 4 + 2)) as [|Hge];
        [done|simpl in Hge; lia]. }
    split; [exact E|]. intros fuel. by rewrite (Hloop _ E).
  - intros Hsize Hchr.
    assert (E : Scanner.read_pdb_iter mem src end_ = Ret (Scanner.Return None)).
    { unfold Scanner.read_pdb_iter. rewrite Hsearch. cbv zeta.
      destruct (Nat.ltb_spec (end_ - rsds) (4 + 16 + 4 + 2)) as [Hlt|_];
        [simpl in Hlt; lia|].
      change (4 + 16 + 4) with 24. by rewrite Hchr. }
    split; [exact E|]. intros fuel. by rewrite (Hloop _ E).
  - intros name_end i b Hsize Hchr Hi Hb Hnp.
    assert (E : Scanner.read_pdb_iter mem src end_
                = Ret (Scanner.Resume (rsds + 1))).
    { rewrite (read_pdb_iter_candidate _ _ _ _ _ Hend Hsearch Hsize Hchr).
      cbv zeta.
      destruct (forallb Scanner.isprint _) eqn:Hall; [|done].
      rewrite forallb_forall in Hall.
      rewrite (Hall b) in Hnp; [done|].
      apply list_elem_of_In.
      apply (list_elem_of_lookup_2 _ (i - (rsds + 24))).
      rewrite lookup_take_lt by lia. rewrite lookup_drop.
      replace (rsds + 24 + (i - (rsds + 24))) with i by lia. done. }
    split; [exact E|]. intros fuel Hfuel.
    destruct fuel as [|fuel]; [lia|]. rewrite (Hloop _ E).
    pose proof (read_pdb_iter_progress _ _ _ _ E).
    apply read_pdb_loop_fuel; lia.
Qed.

Lemma read_pdb_reject_and_resume_witness :
  Scanner.read_pdb Samples.bad_then_good (length Samples.bad_then_good)
    = Scanner.Done
        (Some (Scanner.mk_ctx "67452301AB89EFCD1032547698BADCFE300" "foo.pdb")).
Proof.
  pose proof (read_pdb_reject_and_resume Samples.bad_then_good 0
                (length Samples.bad_then_good) 0) as H.
  destruct H as (_ & _ & Hskip).
  - reflexivity.
  - reflexivity.
  - destruct (Hskip 25 24 1%Z) as [_ Hloop].
    + vm_compute. lia.
    + reflexivity.
    + lia.
    + reflexivity.
    + reflexivity.
    + unfold Scanner.read_pdb.
      change (Nat.leb _ _) with true. cbv iota.
      rewrite Hloop by lia. reflexivity.
Defined.

(** C4, the claim as stated fails: the marker followed by 22 letters, with
    no zero byte in the 26 bytes searched, passes the size check; the turn
    ends the scan with failure and does not go on at offset 1. *)
Lemma read_pdb_unterminated_aborts :
  Scanner.search Samples.unterminated_then_letters 0 26 Scanner.rsds_magic
    = Some 0 /\
  Scanner.memchr Samples.unterminated_then_letters 24 0 26 = Ret None /\
  Scanner.read_pdb_iter Samples.unterminated_then_letters 0 26
    = Ret (Scanner.Return None) /\
  Scanner.read_pdb_iter Samples.unterminated_then_letters 0 26
    <> Ret (Scanner.Resume 1) /\
  Scanner.read_pdb Samples.unterminated_then_letters 26 = Scanner.Done None.
Proof. repeat split. vm_compute. discriminate. Qed.

(** ** Reads behind the buffer *)

Section OverRead.
Import Scanner.

Lemma memchr_reads_seq mem p c n :
  memchr_reads mem p c n = seq p (length (memchr_reads mem p c n)).
Proof.
  revert p. induction n as [|n IH]; intros p; simpl; [done|].
  destruct (mem !! p) as [b|]; [|done].
  destruct (b =? c)%Z; [done|]. simpl. by rewrite <- IH.
Qed.

(** [memchr] answers with the last offset it looked at. *)
Lemma memchr_reads_found mem p c n q :
  memchr mem p c n = Ret (Some q) -> last (memchr_reads mem p c n) = Some q.
Proof.
  revert p. induction n as [|n IH]; intros p; simpl; [done|].
  destruct (mem !! p) as [b|]; [|done].
  destruct (b =? c)%Z; [by intros [= <-]|].
  intros H. specialize (IH _ H).
  destruct (memchr_reads mem (S p) c n); [done|exact IH].
Qed.

Lemma memchr_reads_until mem p c n j :
  (forall i, p <= i < j -> exists b, mem !! i = Some b /\ b <> c) ->
  p <= j < p + n -> In j (memchr_reads mem p c n).
Proof.
  revert p. induction n as [|n IH]; intros p Hbefore Hj; [lia|]. simpl.
  destruct (decide (j = p)) as [->|Hne].
  - destruct (mem !! p) as [b|]; [|by left].
    destruct (b =? c)%Z; by left.
  - destruct (Hbefore p) as (b & -> & Hb); [lia|].
    destruct (Z.eqb_spec b c); [done|]. right.
    apply IH; [|lia]. intros i Hi. apply Hbefore. lia.
Qed.

(** Whenever a candidate passes the size check and the buffer holds no
    zero byte behind the fixed prefix, the search for the terminator looks
    at the byte at offset [end_], the first one behind the buffer. *)
Lemma memchr_reads_past_end mem src end_ rsds :
  search mem src end_ rsds_magic = Some rsds ->
  26 <= end_ - rsds ->
  (forall i, rsds + 24 <= i < end_ ->
             exists b, mem !! i = Some b /\ b <> 0%Z) ->
  In end_ (memchr_reads mem (rsds + 24) 0 (end_ - rsds)).
Proof.
  intros _ Hsize Hnz. apply memchr_reads_until; [exact Hnz|lia].
Qed.
End OverRead.

(** C9 fails on the code. [memchr] is told to look at as many bytes as are
    left from the marker on, counted from the end of the 24-byte prefix:
    whenever a candidate passes the size check and the buffer holds no zero
    byte behind the prefix, the byte at offset [end_], the first one behind
    the buffer, is read. On the marker and 22 letters 'A', 26 bytes with no
    zero byte, the search goes up to offset 49: with letters behind the
    buffer the scan fails; with a zero byte at offset 26 it reads that byte
    and succeeds with the name "AA", so that the answer depends on a byte
    that is not in the buffer. *)
Theorem read_pdb_reads_past_buffer :
  (forall mem src end_ rsds,
     Scanner.search mem src end_ Scanner.rsds_magic = Some rsds ->
     26 <= end_ - rsds ->
     (forall i, rsds + 24 <= i < end_ ->
                exists b, mem !! i = Some b /\ b <> 0%Z) ->
     In end_ (Scanner.memchr_reads mem (rsds + 24) 0 (end_ - rsds))) /\
  length Samples.unterminated = 26 /\
  Forall (fun b => b <> 0%Z) Samples.unterminated /\
  Scanner.search Samples.unterminated_then_zero 0 26 Scanner.rsds_magic
    = Some 0 /\
  Scanner.memchr_reads Samples.unterminated_then_zero 24 0 26 = [24; 25; 26] /\
  Scanner.read_pdb Samples.unterminated_then_zero 26
    = Scanner.Done
        (Some (Scanner.mk_ctx
                 "414141414141414141414141414141411094795585" "AA")) /\
  Scanner.memchr_reads Samples.unterminated_then_letters 24 0 26
    = seq 24 26 /\
  Scanner.read_pdb Samples.unterminated_then_letters 26 = Scanner.Done None.
Proof.
  split; [exact memchr_reads_past_end|].
  repeat split.
  unfold Samples.unterminated. simpl. repeat constructor; discriminate.
Qed.

(** ** The DWARF member search *)

Section DwarfFacts.
Import Dwarf.

Lemma get_structure_turn_eq name pass d :
  get_structure_turn name pass d =
    match (if pass then
             match diename d, dietype d with
             | DW_DLV_NO_ENTRY, DW_DLV_OK (DW_DLV_OK a) =>
                 match read_children a with
                 | Some cs => get_structure name cs true
                 | None => None
                 end
             | _, _ => None
             end
           else None) with
    | Some child => Some child
    | None =>
        match diename d with
        | DW_DLV_OK n => if String.eqb n name then Some d else None
        | _ => None
        end
    end.
Proof.
  destruct d as [nm ty ch at_ bs]. simpl.
  destruct pass; [|by destruct nm].
  destruct nm as [n| |]; try done.
  destruct ty as [[[nm' ty' [cs|] at' bs']| |]| |]; try done.
  simpl. unfold get_structure.
  assert (E : forall l,
    (fix scan (l : list Dwarf_Die) : option Dwarf_Die :=
       match l with
       | [] => None
       | c :: l' =>
           match get_structure_turn name true c with
           | Some r => Some r
           | None => scan l'
           end
       end) l = first_some (get_structure_turn name true) l).
  { induction l as [|c l IH]; simpl; [done|]. by rewrite IH. }
  by rewrite E.
Qed.

Lemma get_structure_cons name d rest pass :
  get_structure name (d :: rest) pass =
    match get_structure_turn name pass d with
    | Some r => Some r
    | None => get_structure name rest pass
    end.
Proof. reflexivity. Qed.

Lemma get_structure_app name pre post pass :
  get_structure name (pre ++ post) pass =
    match get_structure name pre pass with
    | Some r => Some r
    | None => get_structure name post pass
    end.
Proof.
  induction pre as [|d pre IH]; simpl; [done|].
  rewrite !get_structure_cons, IH.
  by destruct (get_structure_turn name pass d).
Qed.

Lemma get_structure_turn_named name pass d n :
  diename d = DW_DLV_OK n ->
  get_structure_turn name pass d = if String.eqb n name then Some d else None.
Proof.
  intros H. rewrite get_structure_turn_eq, H. by destruct pass.
Qed.

Lemma get_structure_turn_anonymous name d a cs :
  diename d = DW_DLV_NO_ENTRY ->
  dietype d = DW_DLV_OK (DW_DLV_OK a) ->
  read_children a = Some cs ->
  get_structure_turn name true d = get_structure name cs true.
Proof.
  intros H1 H2 H3. rewrite get_structure_turn_eq, H1, H2, H3.
  by destruct (get_structure name cs true).
Qed.

Lemma get_structure_nest name depth m :
  diename m = DW_DLV_OK name ->
  get_structure name [Samples.nest depth m] true = Some m.
Proof.
  intros Hm. induction depth as [|depth IH].
  - simpl. rewrite get_structure_cons, (get_structure_turn_named _ _ _ _ Hm).
    by rewrite String.eqb_refl.
  - rewrite get_structure_cons.
    rewrite (get_structure_turn_anonymous name _ _ [Samples.nest depth m])
      by done.
    by rewrite IH.
Qed.

Lemma first_some_Some {A B : Type} (f : A -> option B) (l : list A) (r : B) :
  first_some f l = Some r -> exists x, In x l /\ f x = Some r.
Proof.
  induction l as [|x l IH]; simpl; [done|].
  destruct (f x) as [y|] eqn:E.
  - intros [= <-]. exists x. auto.
  - intros H. destruct (IH H) as (x' & Hin & Hx). exists x'. auto.
Qed.

Lemma die_size_type d a :
  dietype d = DW_DLV_OK (DW_DLV_OK a) -> die_size a < die_size d.
Proof. destruct d as [nm ty ch at_ bs]. simpl. intros ->. lia. Qed.

Lemma die_size_child d cs c :
  read_children d = Some cs -> In c cs -> die_size c < die_size d.
Proof.
  destruct d as [nm ty ch at_ bs]. unfold read_children. simpl. intros ->.
  intros Hin.
  assert (H : die_size c <=
              (fix sum (l : list Dwarf_Die) : nat :=
                 match l with
                 | [] => 0
                 | c :: l' => die_size c + sum l'
                 end) cs).
  { induction cs as [|x cs IH]; [done|].
    destruct Hin as [->|Hin]; [lia|]. specialize (IH Hin). lia. }
  lia.
Qed.

Lemma members_turn_eq d :
  members_turn d =
    match diename d, dietype d with
    | DW_DLV_NO_ENTRY, DW_DLV_OK (DW_DLV_OK a) =>
        match read_children a with
        | Some cs => members cs
        | None => [d]
        end
    | _, _ => [d]
    end.
Proof.
  destruct d as [nm ty ch at_ bs]. simpl.
  destruct nm as [n| |]; try done.
  by destruct ty as [[[nm' ty' [cs|] at' bs']| |]| |].
Qed.

Lemma spec_direct_members_turn_eq d :
  spec_direct_members_turn d =
    match diename d, dietype d with
    | DW_DLV_NO_ENTRY, DW_DLV_OK (DW_DLV_OK a) =>
        match read_children a with
        | Some cs =>
            map (spec_moved (get_attr_member_location d))
                (spec_direct_members cs)
        | None => [(d, get_attr_member_location d)]
        end
    | _, _ => [(d, get_attr_member_location d)]
    end.
Proof.
  destruct d as [nm ty ch at_ bs].
  destruct nm as [n| |]; try done.
  by destruct ty as [[[nm' ty' [cs|] at' bs']| |]| |].
Qed.

Lemma anonymous_at_zero_eq d :
  anonymous_at_zero d =
    match diename d, dietype d with
    | DW_DLV_NO_ENTRY, DW_DLV_OK (DW_DLV_OK a) =>
        match read_children a with
        | Some cs =>
            match get_attr_member_location d with
            | Some 0%Z => forallb anonymous_at_zero cs
            | _ => false
            end
        | None => true
        end
    | _, _ => true
    end.
Proof.
  destruct d as [nm ty ch at_ bs].
  destruct nm as [n| |]; try done.
  by destruct ty as [[[nm' ty' [cs|] at' bs']| |]| |].
Qed.

Lemma find_app_first {A : Type} (f : A -> bool) (l1 l2 : list A) :
  List.find f (l1 ++ l2) =
    match List.find f l1 with
    | Some x => Some x
    | None => List.find f l2
    end.
Proof.
  induction l1 as [|x l1 IH]; simpl; [done|]. by destruct (f x).
Qed.

Lemma find_paired {A B : Type} (f : A -> bool) (g : A -> B) (l : list A) :
  List.find (fun m => f (fst m)) (map (fun x => (x, g x)) l) =
    match List.find f l with
    | Some x => Some (x, g x)
    | None => None
    end.
Proof.
  induction l as [|x l IH]; simpl; [done|]. by destruct (f x).
Qed.

(** The search over a list follows the searches of its elements. *)
Lemma get_structure_by_turns name cs :
  (forall c, In c cs ->
     get_structure_turn name true c
       = List.find (has_name name) (members_turn c)) ->
  get_structure name cs true = List.find (has_name name) (members cs).
Proof.
  induction cs as [|c cs IH]; intros H; [done|].
  rewrite get_structure_cons. unfold members. simpl.
  rewrite find_app_first, (H c) by (by left).
  fold (members cs). rewrite IH by (intros; apply H; by right). done.
Qed.

Lemma get_structure_turn_members n :
  forall d, die_size d < n ->
  forall name,
    get_structure_turn name true d
      = List.find (has_name name) (members_turn d).
Proof.
  induction n as [|n IH]; intros d Hd name; [lia|].
  rewrite get_structure_turn_eq, members_turn_eq.
  unfold has_name.
  destruct (diename d) as [nm| |] eqn:En.
  - simpl. rewrite En. by destruct (String.eqb nm name).
  - destruct (dietype d) as [[a| |]| |] eqn:Ety;
      try (simpl; by rewrite En).
    destruct (read_children a) as [cs|] eqn:Ecs; [|simpl; by rewrite En].
    rewrite (get_structure_by_turns name cs).
    + fold (has_name name).
      by destruct (List.find (has_name name) (members cs)).
    + intros c Hin. apply IH.
      pose proof (die_size_type _ _ Ety).
      pose proof (die_size_child _ _ _ Ecs Hin). lia.
  - simpl. by rewrite En.
Qed.

(** The search through anonymous members is the search for the first DIE
    of that name among the members in their order. *)
Lemma get_structure_members name cs :
  get_structure name cs true = List.find (has_name name) (members cs).
Proof.
  apply get_structure_by_turns. intros c _.
  apply (get_structure_turn_members (S (die_size c))). lia.
Qed.

Lemma spec_moved_zero (l : list Dwarf_Die) :
  map (spec_moved (Some 0%Z))
      (map (fun m => (m, get_attr_member_location m)) l)
  = map (fun m => (m, get_attr_member_location m)) l.
Proof.
  rewrite map_map. apply map_ext. intros m. unfold spec_moved. simpl.
  by destruct (get_attr_member_location m).
Qed.

Lemma spec_direct_members_by_turns cs :
  (forall c, In c cs ->
     spec_direct_members_turn c
       = map (fun m => (m, get_attr_member_location m)) (members_turn c)) ->
  spec_direct_members cs
    = map (fun m => (m, get_attr_member_location m)) (members cs).
Proof.
  induction cs as [|c cs IH]; intros H; [done|].
  unfold spec_direct_members, members. simpl.
  rewrite map_app, (H c) by (by left). f_equal.
  apply IH. intros; apply H; by right.
Qed.

Lemma spec_direct_members_turn_zero n :
  forall d, die_size d < n ->
  anonymous_at_zero d = true ->
  spec_direct_members_turn d
    = map (fun m => (m, get_attr_member_location m)) (members_turn d).
Proof.
  induction n as [|n IH]; intros d Hd; [lia|].
  rewrite anonymous_at_zero_eq, spec_direct_members_turn_eq, members_turn_eq.
  destruct (diename d) as [nm| |] eqn:En; try done.
  destruct (dietype d) as [[a| |]| |] eqn:Ety; try done.
  destruct (read_children a) as [cs|] eqn:Ecs; [|done].
  destruct (get_attr_member_location d) as [[| |]|]; try done.
  intros Hall. rewrite spec_direct_members_by_turns; [apply spec_moved_zero|].
  intros c Hin. apply IH.
  - pose proof (die_size_type _ _ Ety).
    pose proof (die_size_child _ _ _ Ecs Hin). lia.
  - rewrite forallb_forall in Hall. by apply Hall.
Qed.

(** Where the anonymous members lie at offset 0, a member's offset in the
    structure is its own location. *)
Lemma spec_member_offset_zero name cs :
  forallb anonymous_at_zero cs = true ->
  spec_member_offset name cs =
    match List.find (has_name name) (members cs) with
    | Some m => get_attr_member_location m
    | None => None
    end.
Proof.
  intros Hall. unfold spec_member_offset.
  rewrite spec_direct_members_by_turns.
  - rewrite find_paired. by destruct (List.find _ _).
  - intros c Hin. apply (spec_direct_members_turn_zero (S (die_size c)));
      [lia|]. rewrite forallb_forall in Hall. by apply Hall.
Qed.
End DwarfFacts.

(** C3 (as amended): the member search is one pass over the children in
    declaration order. A named child is compared with the name; an unnamed
    child whose type and children can be read has the members of that type
    searched the same way, to any depth, before the pass goes on to the next
    child: the search is the search for the first DIE of the name in
    [members]. The first match in that order is resolved, and where the
    anonymous members lie at offset 0 of the structure that holds them, a
    member inside anonymous nesting is resolved as if it were a direct
    member of the parent, to [spec_member_offset]. A direct member wins
    over a same-named member of an anonymous structure declared after it;
    one found in an earlier child wins over it. *)
Theorem get_structure_depth_first name :
  Dwarf.get_structure name [] true = None /\
  (forall d rest,
     Dwarf.get_structure name (d :: rest) true =
       match Dwarf.get_structure_turn name true d with
       | Some r => Some r
       | None => Dwarf.get_structure name rest true
       end) /\
  (forall d n,
     Dwarf.diename d = Dwarf.DW_DLV_OK n ->
     Dwarf.get_structure_turn name true d =
       if String.eqb n name then Some d else None) /\
  (forall d a cs,
     Dwarf.diename d = Dwarf.DW_DLV_NO_ENTRY ->
     Dwarf.dietype d = Dwarf.DW_DLV_OK (Dwarf.DW_DLV_OK a) ->
     Dwarf.read_children a = Some cs ->
     Dwarf.get_structure_turn name true d = Dwarf.get_structure name cs true) /\
  (forall depth m,
     Dwarf.diename m = Dwarf.DW_DLV_OK name ->
     Dwarf.get_structure name [Samples.nest depth m] true = Some m) /\
  (forall cs,
     Dwarf.get_structure name cs true
       = List.find (Dwarf.has_name name) (Dwarf.members cs)) /\
  (forall p struc st cs,
     Dwarf.get_structure struc (Dwarf.structures p) false = Some st ->
     Dwarf.read_children st = Some cs ->
     forallb Dwarf.anonymous_at_zero cs = true ->
     Dwarf.struc_offset p struc name = Dwarf.spec_member_offset name cs) /\
  (forall pre d post,
     Dwarf.diename d = Dwarf.DW_DLV_OK name ->
     Dwarf.get_structure name pre true = None ->
     Dwarf.get_structure name (pre ++ d :: post) true = Some d) /\
  (forall pre post r,
     Dwarf.get_structure name pre true = Some r ->
     Dwarf.get_structure name (pre ++ post) true = Some r).
Proof.
  split; [reflexivity|].
  split; [intros; apply get_structure_cons|].
  split; [intros d n H; by apply get_structure_turn_named|].
  split; [intros d a cs H1 H2 H3; by apply (get_structure_turn_anonymous _ _ a)|].
  split; [intros depth m H; by apply get_structure_nest|].
  split; [intros cs; apply get_structure_members|].
  split; [|split].
  - intros p struc st cs Hst Hch Hzero. unfold Dwarf.struc_offset.
    by rewrite Hst, Hch, get_structure_members, spec_member_offset_zero.
  - intros pre d post Hd Hpre.
    rewrite get_structure_app, Hpre, get_structure_cons.
    by rewrite (get_structure_turn_named _ _ _ _ Hd), String.eqb_refl.
  - intros pre post r Hpre. by rewrite get_structure_app, Hpre.
Qed.

(** C3, the claim as stated fails: in [shadowed] the anonymous member comes
    before the direct member [x]; the search goes into it first and
    resolves [x] to the nested member at 4, not to the direct one at 8. *)
Lemma struc_offset_nested_first :
  exists p,
    Dwarf.make_dwarf Samples.sample_span (Some "/symbols") Samples.elf
      = Some p /\
    Dwarf.get_structure "S" (Dwarf.structures p) false = Some Samples.shadowed /\
    Dwarf.read_children Samples.shadowed
      = Some [Samples.anonymous_member
                (Samples.struct_type Dwarf.DW_DLV_NO_ENTRY
                                     [Samples.member "x" 4] 8) 0;
              Samples.member "x" 8] /\
    Dwarf.get_attr_member_location (Samples.member "x" 8) = Some 8%Z /\
    Dwarf.struc_offset p "S" "x" = Some 4%Z /\
    Dwarf.struc_offset p "S" "x" <> Some 8%Z.
Proof.
  eexists. split; [reflexivity|]. repeat split. vm_compute. discriminate.
Qed.

(** The location of an anonymous member is not added: in [moved] the
    anonymous member lies at 4 and holds [x] at 0, so that [x] lies at 4 of
    the structure, where the structure written flat has it; the query
    answers 0. *)
Lemma struc_offset_anonymous_not_added :
  Dwarf.struc_offset (Dwarf.mk_dwarf Samples.elf [Samples.moved]) "S2" "x"
    = Some 0%Z /\
  Dwarf.spec_member_offset "x" (Dwarf.children_of Samples.moved)
    = Some 4%Z /\
  Dwarf.struc_offset (Dwarf.mk_dwarf Samples.elf [Samples.moved_flat]) "S2" "x"
    = Some 4%Z.
Proof. repeat split. Qed.

(** ** Member locations *)

(** C8: a data-member-location in one of the forms data1, data2, data4,
    data8 or udata is accepted and its value returned as an unsigned offset;
    in the form sdata it is accepted when it is not negative and answered
    not-found when it is; in any other form it is read as a location
    expression and accepted exactly when that is one description of one
    operation, DW_OP_plus_uconst, whose operand is returned. A member that
    is answered not-found makes [struc_offset] answer not-found for that
    query, and the other members of the structure still resolve. *)
Theorem get_attr_member_location_forms die attr form :
  Dwarf.attr_data_member_location die = Dwarf.DW_DLV_OK attr ->
  Dwarf.whatform attr = Dwarf.DW_DLV_OK form ->
  (In form [Dwarf.DW_FORM_data1; Dwarf.DW_FORM_data2; Dwarf.DW_FORM_data4;
            Dwarf.DW_FORM_data8; Dwarf.DW_FORM_udata] ->
   forall v, Dwarf.formudata attr = Dwarf.DW_DLV_OK v ->
             (0 <= v < 2 ^ 64)%Z ->
             Dwarf.get_attr_member_location die = Some v) /\
  (form = Dwarf.DW_FORM_sdata ->
   forall v, Dwarf.formsdata attr = Dwarf.DW_DLV_OK v ->
             (- 2 ^ 63 <= v < 2 ^ 63)%Z ->
             Dwarf.get_attr_member_location die
               = if (v <? 0)%Z then None else Some v) /\
  (~ In form [Dwarf.DW_FORM_data1; Dwarf.DW_FORM_data2; Dwarf.DW_FORM_data4;
              Dwarf.DW_FORM_data8; Dwarf.DW_FORM_udata; Dwarf.DW_FORM_sdata] ->
   forall llbuf, Dwarf.loclist_n attr = Dwarf.DW_DLV_OK llbuf ->
     (forall op,
        llbuf = [Dwarf.mk_locdesc [op]] ->
        Dwarf.lr_atom op = Dwarf.DW_OP_plus_uconst ->
        (0 <= Dwarf.lr_number op < 2 ^ 64)%Z ->
        Dwarf.get_attr_member_location die = Some (Dwarf.lr_number op)) /\
     ((~ exists op, llbuf = [Dwarf.mk_locdesc [op]] /\
                    Dwarf.lr_atom op = Dwarf.DW_OP_plus_uconst) ->
      Dwarf.get_attr_member_location die = None)) /\
  (forall p struc st children member,
     Dwarf.get_structure struc (Dwarf.structures p) false = Some st ->
     Dwarf.read_children st = Some children ->
     Dwarf.get_structure member children true = Some die ->
     Dwarf.get_attr_member_location die = None ->
     Dwarf.struc_offset p struc member = None /\
     forall member' child',
       Dwarf.get_structure member' children true = Some child' ->
       Dwarf.struc_offset p struc member'
         = Dwarf.get_attr_member_location child').
Proof.
  intros Hattr Hform.
  assert (Hu64 : forall v, (0 <= v < 2 ^ 64)%Z -> u64 v = v).
  { intros v Hv. unfold u64. by apply Z.mod_small. }
  split; [|split; [|split]].
  - intros Hin v Hv Hrange. unfold Dwarf.get_attr_member_location.
    rewrite Hattr, Hform.
    assert (E : Dwarf.is_data_form form = true).
    { simpl in Hin. destruct Hin as [<-|[<-|[<-|[<-|[<-|[]]]]]]; reflexivity. }
    by rewrite E, Hv, Hu64.
  - intros -> v Hv Hrange. unfold Dwarf.get_attr_member_location.
    rewrite Hattr, Hform, Hv. simpl.
    destruct (Z.ltb_spec v 0); [done|]. rewrite Hu64; [done|lia].
  - intros Hnot llbuf Hll.
    assert (E1 : Dwarf.is_data_form form = false).
    { unfold Dwarf.is_data_form.
      repeat (apply orb_false_intro); apply Z.eqb_neq; intros ->;
        apply Hnot; simpl; tauto. }
    assert (E2 : (form =? Dwarf.DW_FORM_sdata)%Z = false).
    { apply Z.eqb_neq. intros ->. apply Hnot. simpl. tauto. }
    split.
    + intros op -> Hop Hrange. unfold Dwarf.get_attr_member_location.
      rewrite Hattr, Hform, E1, E2, Hll. simpl.
      rewrite Hop, Z.eqb_refl, Hu64; done.
    + intros Hshape. unfold Dwarf.get_attr_member_location.
      rewrite Hattr, Hform, E1, E2, Hll.
      destruct llbuf as [|[ops] [|ld' llbuf]]; try done.
      destruct ops as [|op [|op' ops]]; try done.
      simpl. destruct (Z.eqb_spec (Dwarf.lr_atom op) Dwarf.DW_OP_plus_uconst)
        as [Hop|]; [|done].
      exfalso. apply Hshape. eauto.
  - intros p struc st children member Hst Hch Hdie Hnone.
    unfold Dwarf.struc_offset. rewrite Hst, Hch. split.
    + by rewrite Hdie.
    + intros member' child' ->. done.
Qed.

Lemma get_attr_member_location_forms_witness :
  Dwarf.get_attr_member_location (Samples.member "field" 8) = Some 8%Z.
Proof.
  destruct (get_attr_member_location_forms (Samples.member "field" 8)
              (Dwarf.mk_attr (Dwarf.DW_DLV_OK Dwarf.DW_FORM_data1)
                             (Dwarf.DW_DLV_OK 8%Z)
                             Dwarf.DW_DLV_ERROR Dwarf.DW_DLV_ERROR)
              Dwarf.DW_FORM_data1 eq_refl eq_refl) as (Hdata & _).
  apply Hdata.
  - simpl. tauto.
  - reflexivity.
  - lia.
Defined.

(** ** The stored span *)

(** C10 (as amended): a PDB resolver that was constructed, from a module
    name and identifier or from a raw image, answers [span()] with the span
    handed to [make_pdb]; a DWARF resolver does not keep the span handed to
    [make_dwarf] and answers with the default span, and none is ever made
    from a raw image. *)
Theorem span_of_resolver :
  (forall sp file p, Pdb.make_pdb sp file = Some p -> Pdb.span p = sp) /\
  (forall sp data data_size files p,
     Sym.make_pdb_from_image sp data data_size files = Ret (Some p) ->
     Pdb.span p = sp) /\
  (forall sp path file d,
     Dwarf.make_dwarf sp path file = Some d -> Dwarf.span d = span_default) /\
  (forall sp data data_size d,
     Sym.make_dwarf_from_image sp data data_size <> Some d).
Proof.
  split; [|split; [|split]].
  - intros sp file p H. unfold Pdb.span. by eapply built_span.
  - intros sp data data_size files p. unfold Sym.make_pdb_from_image.
    destruct (Scanner.read_pdb data data_size) as [[pdb|]| |]; try done.
    intros [= H]. unfold Pdb.span. by eapply built_span.
  - reflexivity.
  - done.
Qed.

(** C10, the claim as stated fails for the DWARF backend: a resolver made
    with the span (4096, 8192) answers [span()] with (0, 0). *)
Lemma dwarf_span_not_stored :
  exists d,
    Dwarf.make_dwarf Samples.sample_span (Some "/symbols") Samples.elf
      = Some d /\
    Dwarf.span d = mk_span 0 0 /\
    Dwarf.span d <> Samples.sample_span.
Proof.
  eexists. split; [reflexivity|]. split; [reflexivity|]. discriminate.
Qed.

(** * Further properties of the code *)

(** ** The PDB index after [setup] *)

Section IndexInvariants.
Import Pdb.

Lemma emplace_length {V : Type} k (v : V) (m : OrderedMap.t V) :
  length m <= length (OrderedMap.emplace k v m) <= S (length m).
Proof.
  induction m as [|[k' v'] m IH]; simpl; [lia|].
  destruct (k <? k')%Z; simpl; [lia|].
  destruct (k =? k')%Z; simpl; lia.
Qed.

Lemma emplace_size {V : Type} k (v : V) (m : gmap string V) :
  base.size m <= base.size (Pdb.emplace k v m) <= S (base.size m).
Proof.
  unfold Pdb.emplace. destruct (m !! k) eqn:E; [lia|].
  rewrite map_size_insert_None by done. lia.
Qed.

Lemma fold_sizes gs p :
  length (symbols_by_offset p)
    <= length (symbols_by_offset (fold_left setup_insert gs p))
    <= length (symbols_by_offset p) + length gs /\
  base.size (symbols_ p)
    <= base.size (symbols_ (fold_left setup_insert gs p))
    <= base.size (symbols_ p) + length gs.
Proof.
  revert p. induction gs as [|g gs IH]; intros p; simpl; [lia|].
  destruct (IH (setup_insert p g)) as [H1 H2]. simpl in H1, H2.
  pose proof (emplace_length (get_offset p g) g (symbols_by_offset p)).
  pose proof (emplace_size (name g) g (symbols_ p)).
  lia.
Qed.

Lemma sorted_NoDup {V : Type} (m : OrderedMap.t V) :
  OrderedMap.sorted m -> NoDup (OrderedMap.keys m).
Proof.
  induction m as [|[k v] m IH]; simpl; [constructor|].
  intros [Hk Hs]. constructor; [|auto].
  intros Hin. rewrite Forall_forall in Hk. specialize (Hk k Hin). lia.
Qed.

Lemma below_or_not {V : Type} (m : OrderedMap.t V) addr :
  (exists k v, In (k, v) m /\ (k <= addr)%Z) \/
  ~ (exists k v, In (k, v) m /\ (k <= addr)%Z).
Proof.
  induction m as [|[k0 v0] m IH]; [right; intros (k & v & [] & _)|].
  destruct IH as [(k & v & Hin & Hle)|Hnone].
  - left. exists k, v. split; [by right|done].
  - destruct (Z_le_gt_dec k0 addr) as [H0|H0].
    + left. exists k0, v0. split; [by left|done].
    + right. intros (k & v & [[= <- <-]|Hin] & Hle); [lia|].
      apply Hnone. eauto.
Qed.

(** Some key not above [addr] is the greatest of them. *)
Lemma greatest_below {V : Type} (m : OrderedMap.t V) addr :
  (exists k v, In (k, v) m /\ (k <= addr)%Z) ->
  exists k v, In (k, v) m /\ (k <= addr)%Z /\
    forall k' v', In (k', v') m -> (k' <= addr)%Z -> (k' <= k)%Z.
Proof.
  induction m as [|[k0 v0] m IH]; [intros (k & v & [] & _)|].
  intros (k & v & Hin & Hle).
  destruct (below_or_not m addr) as [Hsome|Hnone].
  - destruct (IH Hsome) as (k1 & v1 & Hin1 & Hle1 & Hmax1).
    destruct (Z_le_gt_dec k0 addr) as [H0|H0].
    + destruct (Z_le_gt_dec k0 k1).
      * exists k1, v1. repeat split; [by right|done|].
        intros k' v' [[= <- <-]|H'] Hk'; [done|eauto].
      * exists k0, v0. repeat split; [by left|done|].
        intros k' v' [[= <- <-]|H'] Hk'; [lia|].
        specialize (Hmax1 _ _ H' Hk'). lia.
    + exists k1, v1. repeat split; [by right|done|].
      intros k' v' [[= <- <-]|H'] Hk'; [lia|eauto].
  - destruct Hin as [[= -> ->]|Hin]; [|exfalso; apply Hnone; eauto].
    exists k, v. repeat split; [by left|done|].
    intros k' v' [[= <- <-]|H'] Hk'; [lia|]. exfalso. apply Hnone. eauto.
Qed.
End IndexInvariants.

Lemma pdb_fold gs p :
  Pdb.pdb_ (fold_left Pdb.setup_insert gs p) = Pdb.pdb_ p.
Proof. revert p. induction gs as [|g gs IH]; intros p; simpl; [done|]. by rewrite IH. Qed.

(** X1: what [sym::make_pdb(span, module, guid)] gives. With
    [_NT_SYMBOL_PATH] unset the call has no defined result: the null
    pointer of [getenv] goes to [fs::path] untested. With the variable set,
    no resolver is made exactly when the parser does not answer
    [PDB_STATE_OK] for the file under that path. A resolver that is made
    keeps the span and the file, its address table has strictly increasing
    keys, all below 2^64, neither table has more entries than the parser
    has global variables, and a table is empty only when there are none. *)
Theorem setup_index_invariant symbol_path files sp module guid :
  (Sym.make_pdb symbol_path files sp module guid = Undefined <->
   symbol_path = None) /\
  (forall root,
     symbol_path = Some root ->
     let file := files root module guid in
     (Sym.make_pdb symbol_path files sp module guid = Ret None <->
      Pdb.load_pdb_file file <> Pdb.PDB_STATE_OK) /\
     (forall p,
        Sym.make_pdb symbol_path files sp module guid = Ret (Some p) ->
        Pdb.span_ p = sp /\ Pdb.pdb_ p = file /\
        OrderedMap.sorted (Pdb.symbols_by_offset p) /\
        NoDup (OrderedMap.keys (Pdb.symbols_by_offset p)) /\
        (forall k, In k (OrderedMap.keys (Pdb.symbols_by_offset p)) ->
                   (0 <= k < 2 ^ 64)%Z) /\
        length (Pdb.symbols_by_offset p)
          <= length (Pdb.get_global_variables file) /\
        base.size (Pdb.symbols_ p)
          <= length (Pdb.get_global_variables file) /\
        (Pdb.get_global_variables file = []
         <-> Pdb.symbols_by_offset p = []) /\
        (Pdb.get_global_variables file = [] <-> Pdb.symbols_ p = ∅))).
Proof.
  split; [destruct symbol_path; simpl; split; done|].
  intros root ->. cbv zeta. unfold Sym.make_pdb.
  generalize (files root module guid).
  intros file. simpl. split.
  - unfold Pdb.make_pdb, Pdb.setup. simpl.
    destruct (Pdb.load_pdb_file file); simpl; split; done.
  - intros p [= Hp].
    pose proof (built_sorted _ _ _ Hp) as Hs.
    destruct (make_pdb_built _ _ _ Hp) as [_ Hfold].
    destruct (fold_sizes (Pdb.get_global_variables file) (Pdb.ctor file sp))
      as [Hl Hz].
    rewrite <- Hfold in Hl, Hz. simpl in Hl, Hz.
    rewrite map_size_empty in Hz.
    split; [by eapply built_span|].
    split; [by rewrite Hfold, pdb_fold|].
    split; [done|]. split; [by apply sorted_NoDup|].
    split; [|split; [lia|split; [lia|]]].
    + intros k Hk. apply in_map_iff in Hk as ([k' v] & <- & Hin).
      destruct (built_entry _ _ _ _ _ Hp Hin) as [-> _].
      apply offset_range.
    + destruct (Pdb.get_global_variables file) as [|g gs] eqn:Egs.
      * subst p. simpl. split; [done|]. split; [done|]. reflexivity.
      * assert (Hin : In g (Pdb.get_global_variables file))
          by (rewrite Egs; by left).
        split; split; try done.
        -- intros Hnil.
           pose proof (built_by_offset _ _ _ (Pdb.offset_in sp g) Hp) as Hf.
           rewrite Hnil, Egs in Hf. simpl in Hf.
           by rewrite Z.eqb_refl in Hf.
        -- intros Hempty.
           pose proof (built_symbols _ _ _ (Pdb.name g) Hp) as Hf.
           rewrite Hempty, Egs, lookup_empty in Hf. simpl in Hf.
           by rewrite String.eqb_refl in Hf.
Qed.

(** X2: on a built index the name lookup is not-found exactly when no
    global variable has that name; an address it gives is below 2^64 and is
    the runtime address of a global variable of that name. *)
Theorem symbol_by_name_complete sp file p n :
  Pdb.make_pdb sp file = Some p ->
  (Pdb.symbol_by_name p n = None <->
   forall v, In v (Pdb.get_global_variables file) -> Pdb.name v <> n) /\
  (forall a,
     Pdb.symbol_by_name p n = Some a ->
     (0 <= a < 2 ^ 64)%Z /\
     exists v, In v (Pdb.get_global_variables file) /\ Pdb.name v = n /\
               a = Pdb.get_offset p v).
Proof.
  intros Hp. unfold Pdb.symbol_by_name.
  rewrite (built_symbols _ _ _ n Hp).
  destruct (List.find _ _) as [v|] eqn:E.
  - apply List.find_some in E as [Hin En]. apply String.eqb_eq in En.
    split.
    + split; [done|]. intros H. by destruct (H v Hin).
    + intros a [= <-]. split; [apply offset_range|eauto].
  - split; [|done]. split; [|done]. intros _ v Hin.
    apply String.eqb_neq. by apply (List.find_none _ _ E).
Qed.

Lemma symbol_by_name_complete_witness :
  exists p,
    Pdb.make_pdb Samples.sample_span Samples.three_symbols = Some p /\
    Pdb.symbol_by_name p "delta" = None.
Proof.
  eexists. split; [reflexivity|].
  apply (symbol_by_name_complete Samples.sample_span Samples.three_symbols
           _ "delta" eq_refl).
  intros v Hin. vm_compute in Hin.
  destruct Hin as [<-|[<-|[<-|[]]]]; discriminate.
Defined.

(** X3: on a built index and for an address below 2^64, the address lookup
    gives a symbol exactly when some key is not above the address, is
    not-found exactly when the index is empty, and has no defined result
    exactly when the index is not empty and all its keys are above the
    address. *)
Theorem symbol_by_addr_outcomes sp file p addr :
  Pdb.make_pdb sp file = Some p ->
  (0 <= addr < 2 ^ 64)%Z ->
  let m := Pdb.symbols_by_offset p in
  ((exists c, Pdb.symbol_by_addr p addr = Ret (Some c)) <->
   exists k, In k (OrderedMap.keys m) /\ (k <= addr)%Z) /\
  (Pdb.symbol_by_addr p addr = Ret None <-> m = []) /\
  (Pdb.symbol_by_addr p addr = Undefined <->
   m <> [] /\ forall k, In k (OrderedMap.keys m) -> (addr < k)%Z).
Proof.
  intros Hp Ha m.
  assert (Hkeys : (exists k, In k (OrderedMap.keys m) /\ (k <= addr)%Z) <->
                  exists k v, In (k, v) m /\ (k <= addr)%Z).
  { split.
    - intros (k & Hin & Hle). apply in_map_iff in Hin as ([k' v] & <- & Hin).
      eauto.
    - intros (k & v & Hin & Hle). exists k. split; [|done].
      apply (in_map fst) in Hin. exact Hin. }
  destruct (below_or_not m addr) as [Hsome|Hnone].
  - destruct (greatest_below m addr Hsome) as (k & v & Hin & Hle & Hmax).
    rewrite (symbol_by_addr_greatest sp file p Hp addr k v Ha Hin Hle Hmax).
    split; [|split].
    + split; [intros _; by apply Hkeys|eauto].
    + split; [done|]. intros Hm. fold m in Hin. rewrite Hm in Hin. done.
    + split; [done|]. intros [_ Hall]. apply (in_map fst) in Hin.
      specialize (Hall _ Hin). simpl in Hall. lia.
  - assert (Hall : forall k, In k (OrderedMap.keys m) -> (addr < k)%Z).
    { intros k Hk. destruct (Z_lt_le_dec addr k); [done|].
      exfalso. apply Hnone, Hkeys. eauto. }
    destruct m as [|[k0 v0] m'] eqn:Em.
    + assert (E : Pdb.symbol_by_addr p addr = Ret None).
      { unfold Pdb.symbol_by_addr. fold m. by rewrite Em. }
      rewrite E. split; [|split]; split; try done.
      * intros [c [=]].
      * intros (k & [] & _).
      * intros [H _]. done.
    + assert (E : Pdb.symbol_by_addr p addr = Undefined).
      { rewrite (symbol_by_addr_cut p addr [] ((k0, v0) :: m')).
        - specialize (Hall k0 (or_introl eq_refl)).
          simpl. destruct (Z.eqb_spec k0 addr); [lia|done].
        - done.
        - constructor.
        - specialize (Hall k0 (or_introl eq_refl)). lia. }
      rewrite E. split; [|split]; split; try done.
      * intros [c [=]].
      * intros H. exfalso. apply Hnone, Hkeys, H.
Qed.

Lemma symbol_by_addr_outcomes_witness :
  exists p,
    Pdb.make_pdb Samples.sample_span Samples.three_symbols = Some p /\
    (0 <= 5000 < 2 ^ 64)%Z /\
    exists c, Pdb.symbol_by_addr p 5000 = Ret (Some c).
Proof.
  eexists. split; [reflexivity|]. split; [lia|].
  apply (symbol_by_addr_outcomes Samples.sample_span Samples.three_symbols
           _ 5000 eq_refl ltac:(lia)).
  exists 4112%Z. split; [vm_compute; tauto|lia].
Defined.

Lemma find_unique {A : Type} (f : A -> string) (l : list A) (x : A) :
  NoDup (map f l) -> In x l ->
  List.find (fun y => String.eqb (f y) (f x)) l = Some x.
Proof.
  induction l as [|y l IH]; simpl; [done|].
  intros Hnd [->|Hin].
  - by rewrite String.eqb_refl.
  - apply NoDup_cons in Hnd as [Hy Hnd].
    destruct (String.eqb_spec (f y) (f x)) as [E|_]; [|auto].
    exfalso. apply Hy. rewrite E. apply list_elem_of_In. by apply in_map.
Qed.

(** X4: on a built index whose global variables have pairwise distinct
    names, an address lookup that gives (name, offset) is undone by the name
    lookup: the name resolves to an address that is not above [addr], and
    that address plus the offset is [addr]. *)
Theorem addr_then_name_lookup sp file p addr c :
  Pdb.make_pdb sp file = Some p ->
  NoDup (map Pdb.name (Pdb.get_global_variables file)) ->
  (0 <= addr < 2 ^ 64)%Z ->
  Pdb.symbol_by_addr p addr = Ret (Some c) ->
  exists a,
    Pdb.symbol_by_name p (symbol c) = Some a /\
    (a <= addr)%Z /\ (a + offset c = addr)%Z.
Proof.
  intros Hp Hnd Ha Hc.
  destruct (below_or_not (Pdb.symbols_by_offset p) addr) as [Hsome|Hnone].
  - destruct (greatest_below _ addr Hsome) as (k & v & Hin & Hle & Hmax).
    rewrite (symbol_by_addr_greatest sp file p Hp addr k v Ha Hin Hle Hmax)
      in Hc.
    injection Hc as <-. simpl.
    destruct (built_entry _ _ _ _ _ Hp Hin) as [Hk Hv].
    exists k. split; [|lia].
    unfold Pdb.symbol_by_name. rewrite (built_symbols _ _ _ _ Hp).
    rewrite (find_unique Pdb.name _ v Hnd Hv). by rewrite Hk.
  - destruct (Pdb.symbols_by_offset p) as [|[k0 v0] m'] eqn:Em.
    + unfold Pdb.symbol_by_addr in Hc. rewrite Em in Hc. done.
    + rewrite (symbol_by_addr_cut p addr [] ((k0, v0) :: m')) in Hc.
      * simpl in Hc. destruct (Z.eqb_spec k0 addr) as [->|]; [|done].
        exfalso. apply Hnone. exists addr, v0. split; [by left|lia].
      * done.
      * constructor.
      * destruct (Z_le_gt_dec addr k0); [done|].
        exfalso. apply Hnone. exists k0, v0. split; [by left|lia].
Qed.

Lemma addr_then_name_lookup_witness :
  exists p,
    Pdb.make_pdb Samples.sample_span Samples.three_symbols = Some p /\
    Pdb.symbol_by_addr p 4140 = Ret (Some (mk_cursor "beta" 12)) /\
    exists a, Pdb.symbol_by_name p "beta" = Some a /\ (a + 12 = 4140)%Z.
Proof.
  eexists. split; [reflexivity|]. split; [reflexivity|].
  destruct (addr_then_name_lookup Samples.sample_span Samples.three_symbols
              _ 4140 (mk_cursor "beta" 12) eq_refl)
    as (a & Hname & _ & Hsum).
  - simpl. repeat constructor; rewrite ?list_elem_of_In; simpl; intuition discriminate.
  - lia.
  - reflexivity.
  - exists a. split; [exact Hname|exact Hsum].
Defined.

(** X5: on a built index, every address from the key of an entry up to, and
    not including, the key of the next entry resolves to that entry, with
    the distance to its key as offset; behind the last entry every address
    below 2^64 resolves to the last entry. *)
Theorem symbol_by_addr_between sp file p addr l1 k1 v1 l2 :
  Pdb.make_pdb sp file = Some p ->
  Pdb.symbols_by_offset p = l1 ++ (k1, v1) :: l2 ->
  (k1 <= addr < 2 ^ 64)%Z ->
  match l2 with [] => True | (k2, _) :: _ => (addr < k2)%Z end ->
  Pdb.symbol_by_addr p addr
    = Ret (Some (mk_cursor (Pdb.name v1) (addr - k1))).
Proof.
  intros Hp Hm Ha Hnext.
  pose proof (built_sorted _ _ _ Hp) as Hs.
  assert (Hin : In (k1, v1) (Pdb.symbols_by_offset p)).
  { rewrite Hm. apply in_or_app. right. by left. }
  destruct (built_entry _ _ _ _ _ Hp Hin) as [Hk _].
  pose proof (offset_range (Pdb.span_ p) v1) as Hr.
  unfold Pdb.get_offset in Hk. rewrite <- Hk in Hr.
  apply (symbol_by_addr_greatest sp file p Hp); [lia|done|lia|].
  intros k' v' Hin' Hle.
  rewrite Hm in Hs, Hin'.
  apply sorted_app in Hs as (_ & Hs2 & H12).
  apply in_app_or in Hin' as [H'|[[= <- <-]|H']].
  - assert (k' < k1)%Z; [|lia].
    apply H12; [|by left]. apply (in_map fst) in H'. exact H'.
  - lia.
  - exfalso. destruct l2 as [|[k2 v2] l2]; [done|].
    simpl in Hs2. destruct Hs2 as (_ & Hk2 & _).
    destruct H' as [[= <- <-]|H']; [lia|].
    rewrite Forall_forall in Hk2.
    assert (k2 < k')%Z; [|lia].
    apply Hk2. apply list_elem_of_In. apply (in_map fst) in H'. exact H'.
Qed.

Lemma symbol_by_addr_between_witness :
  exists p,
    Pdb.make_pdb Samples.sample_span Samples.three_symbols = Some p /\
    Pdb.symbol_by_addr p 4127 = Ret (Some (mk_cursor "alpha" (4127 - 4112))).
Proof.
  eexists. split; [reflexivity|].
  apply (symbol_by_addr_between Samples.sample_span Samples.three_symbols _
           4127 [] 4112 (Pdb.mk_var "alpha" (Pdb.BASE_ADDRESS + 16))
           [(4128%Z, Pdb.mk_var "beta" (Pdb.BASE_ADDRESS + 32));
            (4144%Z, Pdb.mk_var "gamma" (Pdb.BASE_ADDRESS + 48))] eq_refl).
  - reflexivity.
  - lia.
  - simpl. lia.
Defined.

(** X6: mapping the same file at a span moved by [d] moves the address of
    every name by [d], modulo 2^64, and keeps the set of names that
    resolve. *)
Theorem symbol_by_name_rebased sp d file p p' n :
  Pdb.make_pdb sp file = Some p ->
  Pdb.make_pdb (mk_span (addr sp + d) (size sp)) file = Some p' ->
  Pdb.symbol_by_name p' n
    = option_map (fun a => u64 (a + d)) (Pdb.symbol_by_name p n).
Proof.
  intros Hp Hp'. unfold Pdb.symbol_by_name.
  rewrite (built_symbols _ _ _ n Hp), (built_symbols _ _ _ n Hp').
  destruct (List.find _ _) as [v|]; [|done]. simpl. f_equal.
  unfold Pdb.get_offset.
  rewrite (built_span _ _ _ Hp), (built_span _ _ _ Hp').
  unfold Pdb.offset_in, u64. simpl.
  rewrite Zplus_mod_idemp_l. f_equal. lia.
Qed.

Lemma symbol_by_name_rebased_witness :
  exists p p',
    Pdb.make_pdb Samples.sample_span Samples.three_symbols = Some p /\
    Pdb.make_pdb (mk_span (4096 + 65536) 8192) Samples.three_symbols
      = Some p' /\
    Pdb.symbol_by_name p' "beta" = Some (4128 + 65536)%Z.
Proof.
  eexists. eexists. split; [reflexivity|]. split; [reflexivity|].
  etransitivity;
    [apply (symbol_by_name_rebased Samples.sample_span 65536
              Samples.three_symbols _ _ "beta" eq_refl eq_refl)
    |reflexivity].
Defined.

(** ** Substring lookup and exact lookup together *)

Lemma string_app_assoc (a b c : string) :
  ((a +:+ b) +:+ c = a +:+ (b +:+ c))%string.
Proof.
  induction a as [|x a IH]; [done|].
  change (String x ((a +:+ b) +:+ c) = String x (a +:+ (b +:+ c)))%string.
  by rewrite IH.
Qed.

Lemma contains_trans (s1 s2 n : string) :
  Pdb.contains s1 s2 -> Pdb.contains s2 n -> Pdb.contains s1 n.
Proof.
  intros (pre1 & post1 & ->) (pre2 & post2 & ->).
  exists (pre2 +:+ pre1)%string, (post1 +:+ post2)%string.
  by rewrite !string_app_assoc.
Qed.

Lemma contains_refl (n : string) : Pdb.contains n n.
Proof.
  exists ""%string, ""%string.
  change (n = n +:+ "")%string.
  induction n as [|x n IH]; [done|].
  change (String x n = String x (n +:+ ""))%string. by rewrite <- IH.
Qed.

Lemma contains_empty (n : string) : Pdb.contains "" n.
Proof. by exists ""%string, n. Qed.

Lemma symbols_that_contains_Some p s found :
  Pdb.symbols_that_contains p s = Some found ->
  found = map_fold (Pdb.collect p s) ∅ (Pdb.symbols_ p).
Proof.
  unfold Pdb.symbols_that_contains. destruct (Nat.eqb _ 0); congruence.
Qed.

Lemma symbols_that_contains_hit p s n a :
  map_fold (Pdb.collect p s) ∅ (Pdb.symbols_ p) !! n = Some a ->
  exists found, Pdb.symbols_that_contains p s = Some found /\
                found !! n = Some a.
Proof.
  intros H. unfold Pdb.symbols_that_contains.
  destruct (Nat.eqb_spec
              (base.size (map_fold (Pdb.collect p s) ∅ (Pdb.symbols_ p))) 0)
    as [Hz|Hnz]; [|eauto].
  apply map_size_empty_iff in Hz. rewrite Hz, lookup_empty in H. done.
Qed.

Lemma symbol_by_name_Some p n a :
  Pdb.symbol_by_name p n = Some a <->
  exists var, Pdb.symbols_ p !! n = Some var /\ a = Pdb.get_offset p var.
Proof.
  unfold Pdb.symbol_by_name. destruct (Pdb.symbols_ p !! n) as [v|].
  - split; [intros [= <-]; eauto|]. by intros (var & [= <-] & ->).
  - split; [done|]. by intros (var & [=] & _).
Qed.

(** X7: the substring lookup and the exact lookup never disagree. Every
    entry of a mapping returned for [s] is a name that contains [s] and that
    the exact lookup resolves to the same address; a name that the exact
    lookup resolves is found, with that address, by the substring lookup of
    the name itself; and the lookup of the empty substring returns every
    symbol, being not-found only on an empty table. *)
Theorem symbols_that_contains_agrees p :
  (forall s found n a,
     Pdb.symbols_that_contains p s = Some found ->
     found !! n = Some a ->
     Pdb.contains s n /\ Pdb.symbol_by_name p n = Some a) /\
  (forall n a,
     Pdb.symbol_by_name p n = Some a ->
     exists found,
       Pdb.symbols_that_contains p n = Some found /\ found !! n = Some a) /\
  (forall found,
     Pdb.symbols_that_contains p "" = Some found ->
     forall n, found !! n = Pdb.symbol_by_name p n) /\
  (Pdb.symbols_that_contains p "" = None <-> Pdb.symbols_ p = ∅).
Proof.
  split; [|split; [|split]].
  - intros s found n a Hf Hn. apply symbols_that_contains_Some in Hf.
    subst found. apply collect_fold in Hn as (var & Hvar & Hc & ->).
    split; [done|]. apply symbol_by_name_Some. eauto.
  - intros n a Hn. apply symbol_by_name_Some in Hn as (var & Hvar & ->).
    apply symbols_that_contains_hit. apply collect_fold.
    exists var. repeat split; [done|apply contains_refl].
  - intros found Hf n. apply symbols_that_contains_Some in Hf. subst found.
    destruct (Pdb.symbol_by_name p n) as [a|] eqn:E.
    + apply symbol_by_name_Some in E as (var & Hvar & ->).
      apply collect_fold. exists var. repeat split; [done|apply contains_empty].
    + destruct (map_fold _ _ _ !! n) as [a|] eqn:F; [|done].
      apply collect_fold in F as (var & Hvar & _ & ->).
      assert (Pdb.symbol_by_name p n = Some (Pdb.get_offset p var))
        by (apply symbol_by_name_Some; eauto).
      congruence.
  - split.
    + intros Hnone. apply map_empty. intros n.
      destruct (Pdb.symbols_ p !! n) as [var|] eqn:E; [|done].
      destruct (symbols_that_contains_hit p "" n (Pdb.get_offset p var))
        as (found & Hf & _); [|congruence].
      apply collect_fold. exists var. repeat split; [done|apply contains_empty].
    + intros Hempty. unfold Pdb.symbols_that_contains.
      rewrite Hempty, map_fold_empty. reflexivity.
Qed.

(** X8: a shorter substring never finds less: when [s1] occurs in [s2],
    every entry of the mapping returned for [s2] is in the mapping returned
    for [s1], which is then not not-found. *)
Theorem symbols_that_contains_monotone p s1 s2 found2 :
  Pdb.contains s1 s2 ->
  Pdb.symbols_that_contains p s2 = Some found2 ->
  exists found1,
    Pdb.symbols_that_contains p s1 = Some found1 /\
    forall n a, found2 !! n = Some a -> found1 !! n = Some a.
Proof.
  intros Hc Hf2. pose proof Hf2 as Hsome.
  apply symbols_that_contains_Some in Hf2. subst found2.
  assert (Hsub : forall n a,
    map_fold (Pdb.collect p s2) ∅ (Pdb.symbols_ p) !! n = Some a ->
    map_fold (Pdb.collect p s1) ∅ (Pdb.symbols_ p) !! n = Some a).
  { intros n a H. apply collect_fold in H as (var & Hvar & Hn & ->).
    apply collect_fold. exists var. repeat split; [done|].
    by apply (contains_trans s1 s2). }
  unfold Pdb.symbols_that_contains in Hsome |- *.
  destruct (Nat.eqb_spec
              (base.size (map_fold (Pdb.collect p s2) ∅ (Pdb.symbols_ p))) 0)
    as [|Hnz2]; [done|].
  apply map_size_non_empty_iff, map_choose in Hnz2 as (n & a & Hna).
  destruct (Nat.eqb_spec
              (base.size (map_fold (Pdb.collect p s1) ∅ (Pdb.symbols_ p))) 0)
    as [Hz1|_].
  - apply map_size_empty_iff in Hz1. apply Hsub in Hna.
    rewrite Hz1, lookup_empty in Hna. done.
  - eexists. split; [reflexivity|exact Hsub].
Qed.

Lemma symbols_that_contains_monotone_witness :
  exists p found2 found1,
    Pdb.make_pdb Samples.sample_span Samples.three_symbols = Some p /\
    Pdb.symbols_that_contains p "alp" = Some found2 /\
    Pdb.symbols_that_contains p "a" = Some found1 /\
    forall n a, found2 !! n = Some a -> found1 !! n = Some a.
Proof.
  eexists. eexists.
  destruct (symbols_that_contains_monotone
              (snd (Pdb.setup (Pdb.ctor Samples.three_symbols
                                        Samples.sample_span)))
              "a" "alp" _ ltac:(by exists ""%string, "lp"%string) eq_refl)
    as (found1 & Hf1 & Hsub).
  exists found1. split; [reflexivity|]. split; [reflexivity|].
  split; [exact Hf1|exact Hsub].
Defined.

(** ** Structure queries of the PDB backend *)

Section PdbStrucFacts.
Import PdbStruc.

Lemma member_offset_Some n ms o :
  member_offset n ms = Some o ->
  exists m, In m ms /\ name m = n /\ o = u64 (offset m).
Proof.
  induction ms as [|m ms IH]; simpl; [done|].
  destruct (String.eqb_spec n (name m)) as [->|_].
  - intros [= <-]. exists m. auto.
  - intros H. destruct (IH H) as (m' & Hin & Hn & Ho). exists m'. auto.
Qed.

Lemma member_offset_None n ms :
  member_offset n ms = None <-> forall m, In m ms -> name m <> n.
Proof.
  induction ms as [|m ms IH]; simpl; [split; [intros _ m []|done]|].
  destruct (String.eqb_spec n (name m)) as [->|Hne].
  - split; [done|]. intros H. by destruct (H m (or_introl eq_refl)).
  - rewrite IH. split.
    + intros H m' [<-|Hin]; [congruence|auto].
    + intros H m' Hin. auto.
Qed.

Lemma member_offset_first n l1 m l2 :
  name m = n -> (forall x, In x l1 -> name x <> n) ->
  member_offset n (l1 ++ m :: l2) = Some (u64 (offset m)).
Proof.
  intros Hm. induction l1 as [|x l1 IH]; simpl; intros Hl1.
  - by rewrite <- Hm, String.eqb_refl.
  - destruct (String.eqb_spec n (name x)) as [E|_].
    + exfalso. apply (Hl1 x); auto.
    + apply IH. auto.
Qed.

Lemma member_offset_unique ms m :
  NoDup (map name ms) -> In m ms ->
  member_offset (name m) ms = Some (u64 (offset m)).
Proof.
  intros Hnd Hin. destruct (in_split _ _ Hin) as (l1 & l2 & ->).
  apply member_offset_first; [done|].
  intros x Hx E. rewrite map_app in Hnd. simpl in Hnd.
  apply NoDup_app in Hnd as (_ & Hdisj & _).
  apply (Hdisj (name x)).
  - apply list_elem_of_In. by apply in_map.
  - rewrite E. by left.
Qed.
End PdbStrucFacts.

(** X9: a structure query of the PDB backend is not-found exactly when the
    container has no type of that name or has one that is not of the
    structure class. A member offset is only ever given for a structure
    whose size is given too, both are below 2^64, and the offset is the one
    of a member of that name. *)
Theorem pdb_struc_queries types struc member :
  (PdbStruc.struc_size types struc = None <->
   types struc = None \/
   exists type, types struc = Some type /\
                PdbStruc.type_class type <> PdbStruc.PDBTYPE_STRUCT) /\
  (forall sz, PdbStruc.struc_size types struc = Some sz -> (0 <= sz < 2 ^ 64)%Z) /\
  (forall o,
     PdbStruc.struc_offset types struc member = Some o ->
     (0 <= o < 2 ^ 64)%Z /\
     (exists sz, PdbStruc.struc_size types struc = Some sz) /\
     exists stype m,
       types struc = Some stype /\ In m (PdbStruc.struct_members stype) /\
       PdbStruc.name m = member /\ o = u64 (PdbStruc.offset m)).
Proof.
  assert (Hr : forall z, (0 <= u64 z < 2 ^ 64)%Z).
  { intros z. unfold u64. apply Z.mod_pos_bound. lia. }
  unfold PdbStruc.struc_size, PdbStruc.struc_offset, PdbStruc.get_struc.
  destruct (types struc) as [type|] eqn:E.
  - destruct (PdbStruc.type_class type) eqn:C.
    + split; [|split].
      * split; [done|]. intros [|(type' & [= <-] & H)]; [done|]. by rewrite C in H.
      * intros sz [= <-]. apply Hr.
      * intros o Ho.
        destruct (member_offset_Some _ _ _ Ho) as (m & Hin & Hn & ->).
        split; [apply Hr|]. split; [eauto|]. exists type, m. auto.
    + split; [|split]; [|done|done].
      split; [|done]. intros _. right. exists type. split; [done|].
      by rewrite C.
  - split; [|split]; [|done|done]. split; auto.
Qed.

(** X10: in a structure of the PDB backend, the offset returned for a member
    name is the one of the first member of that name, and the query is
    not-found exactly when no member has that name. *)
Theorem pdb_struc_offset_first types struc stype member :
  PdbStruc.get_struc types struc = Some stype ->
  (forall l1 m l2,
     PdbStruc.struct_members stype = l1 ++ m :: l2 ->
     PdbStruc.name m = member ->
     (forall x, In x l1 -> PdbStruc.name x <> member) ->
     PdbStruc.struc_offset types struc member
       = Some (u64 (PdbStruc.offset m))) /\
  (PdbStruc.struc_offset types struc member = None <->
   forall m, In m (PdbStruc.struct_members stype) ->
             PdbStruc.name m <> member).
Proof.
  intros Hst. unfold PdbStruc.struc_offset. rewrite Hst. split.
  - intros l1 m l2 -> Hm Hl1. by apply member_offset_first.
  - apply member_offset_None.
Qed.

(** X11: when the members of a structure have pairwise distinct names, the
    offset returned for a member does not depend on the order in which the
    parser lists the members. *)
Theorem pdb_struc_offset_reorder types types' struc stype stype' member :
  PdbStruc.get_struc types struc = Some stype ->
  PdbStruc.get_struc types' struc = Some stype' ->
  Permutation (PdbStruc.struct_members stype)
              (PdbStruc.struct_members stype') ->
  NoDup (map PdbStruc.name (PdbStruc.struct_members stype)) ->
  PdbStruc.struc_offset types struc member
    = PdbStruc.struc_offset types' struc member.
Proof.
  intros Hst Hst' Hperm Hnd. unfold PdbStruc.struc_offset.
  rewrite Hst, Hst'.
  assert (Hnd' : NoDup (map PdbStruc.name (PdbStruc.struct_members stype'))).
  { pose proof (Permutation_map PdbStruc.name Hperm) as Hpm.
    by rewrite <- Hpm. }
  destruct (PdbStruc.member_offset member (PdbStruc.struct_members stype))
    as [o|] eqn:E.
  - destruct (member_offset_Some _ _ _ E) as (m & Hin & <- & ->).
    symmetry. apply member_offset_unique; [done|].
    by apply (Permutation_in _ Hperm).
  - symmetry. apply member_offset_None. intros m Hin.
    rewrite member_offset_None in E. apply E.
    apply (Permutation_in _ (Permutation_sym Hperm)). done.
Qed.

(** ** The scanner: markers and results *)

Section ScanFacts.
Import Scanner.

Lemma bytes_eqb_eq a b : bytes_eqb a b = true -> a = b.
Proof.
  unfold bytes_eqb. intros H. apply andb_prop in H as [Hl Hf].
  apply Nat.eqb_eq in Hl. revert b Hl Hf.
  induction a as [|x a IH]; intros [|y b] Hl Hf; simpl in *; try done.
  apply andb_prop in Hf as [Hxy Hf]. apply Z.eqb_eq in Hxy. subst y.
  f_equal. apply IH; [lia|done].
Qed.

Lemma bytes_eqb_refl a : bytes_eqb a a = true.
Proof.
  unfold bytes_eqb. rewrite Nat.eqb_refl. simpl.
  induction a as [|x a IH]; simpl; [done|]. by rewrite Z.eqb_refl.
Qed.

Lemma find_sub_eq pat l :
  find_sub pat l =
    if bytes_eqb pat (take (length pat) l) then Some 0
    else match l with
         | [] => None
         | _ :: l' => option_map S (find_sub pat l')
         end.
Proof. destruct l; reflexivity. Qed.

(** What [find_sub] finds is an occurrence of the pattern. *)
Lemma find_sub_sound pat l i :
  find_sub pat l = Some i ->
  take (length pat) (drop i l) = pat /\ i + length pat <= length l.
Proof.
  revert i. induction l as [|x l IH]; intros i; rewrite find_sub_eq.
  - destruct (bytes_eqb pat (take (length pat) [])) eqn:E; [|done].
    intros [= <-]. apply bytes_eqb_eq in E. rewrite take_nil in E.
    subst pat. done.
  - destruct (bytes_eqb pat (take (length pat) (x :: l))) eqn:E.
    + intros [= <-]. apply bytes_eqb_eq in E. split; [done|].
      rewrite E at 1. rewrite length_take. simpl. lia.
    + destruct (find_sub pat l) as [j|]; [|done]. simpl. intros [= <-].
      destruct (IH j eq_refl) as [H1 H2]. simpl. split; [done|lia].
Qed.

(** No occurrence starts at a byte that is not the first byte of the
    marker. *)
Lemma find_sub_skip pre rest :
  Forall (fun b => b <> 82%Z) pre ->
  find_sub rsds_magic (pre ++ rsds_magic ++ rest) = Some (length pre).
Proof.
  induction 1 as [|x pre Hx _ IH]; rewrite find_sub_eq.
  - reflexivity.
  - assert (E : bytes_eqb rsds_magic
                  (take (length rsds_magic)
                        ((x :: pre) ++ rsds_magic ++ rest)) = false).
    { unfold bytes_eqb. apply andb_false_intro2.
      change (take (length rsds_magic) ((x :: pre) ++ rsds_magic ++ rest))
        with (x :: take 3 (pre ++ rsds_magic ++ rest)).
      unfold rsds_magic at 1. cbn [combine forallb].
      assert (E : (82 =? x)%Z = false) by (apply Z.eqb_neq; congruence).
      by rewrite E. }
    rewrite E.
    change (option_map S (find_sub rsds_magic (pre ++ rsds_magic ++ rest))
            = Some (length (x :: pre))).
    by rewrite IH.
Qed.

Lemma find_sub_none l :
  Forall (fun b => b <> 82%Z) l -> find_sub rsds_magic l = None.
Proof.
  intros H. destruct (find_sub rsds_magic l) as [i|] eqn:E; [|done].
  apply find_sub_sound in E as [E Hi]. simpl in E, Hi.
  assert (Hl : l !! i = Some 82%Z).
  { rewrite <- (Nat.add_0_r i), <- lookup_drop.
    destruct (drop i l) as [|y t]; [done|].
    simpl in E. by injection E as ->. }
  apply list_elem_of_lookup_2 in Hl. rewrite Forall_forall in H.
  by destruct (H _ Hl).
Qed.

Lemma search_sound mem first last r :
  search mem first last rsds_magic = Some r ->
  first <= r /\ r + 4 <= last /\ take 4 (drop r mem) = rsds_magic.
Proof.
  unfold search.
  destruct (find_sub rsds_magic (take (last - first) (drop first mem)))
    as [i|] eqn:E; [|done].
  simpl. intros [= <-]. apply find_sub_sound in E as [E Hi].
  simpl in E, Hi. rewrite length_take, length_drop in Hi.
  split; [lia|]. split; [lia|].
  rewrite (take_drop_commute (take (last - first) (drop first mem))) in E.
  rewrite take_take in E.
  replace ((i + 4) `min` (last - first)) with (i + 4) in E by lia.
  rewrite <- take_drop_commute, drop_drop in E. exact E.
Qed.
End ScanFacts.

(** X12: the [while(true)] loop of [read_pdb] ends. A turn that goes round
    again has moved [src] forward by at least one byte and left at least 25
    bytes of the buffer behind it, so that the scan of [src_size] bytes is
    over within [src_size + 1] turns, and any larger number of turns gives
    the same result. *)
Theorem read_pdb_terminates mem :
  (forall src end_ src',
     Scanner.read_pdb_iter mem src end_ = Ret (Scanner.Resume src') ->
     src < src' /\ src' + 25 <= end_) /\
  (forall src_size, Scanner.read_pdb mem src_size <> Scanner.Exhausted) /\
  (forall src_size fuel,
     src_size < fuel ->
     Scanner.read_pdb_loop fuel mem 0 src_size
       = Scanner.read_pdb_loop (S src_size) mem 0 src_size).
Proof.
  split; [|split].
  - intros src end_ src'. unfold Scanner.read_pdb_iter.
    destruct (Scanner.search mem src end_ Scanner.rsds_magic) as [rsds|] eqn:Hs;
      [|done].
    apply search_ge in Hs. cbv zeta.
    destruct (Nat.ltb_spec (end_ - rsds) (4 + 16 + 4 + 2)) as [|Hge]; [done|].
    simpl in Hge.
    unfold Scanner.read_le32, Scanner.read_le16, Scanner.read_pdb_name,
      mbind, Scanner.outcome_bind.
    repeat case_match; try done.
    intros [= <-]. lia.
  - apply read_pdb_total.
  - intros src_size fuel Hf. apply read_pdb_loop_fuel; lia.
Qed.

(** X13: a buffer of fewer than 4 + 16 + 4 + 2 bytes never gives a result,
    whatever it holds and whatever lies behind it. *)
Theorem read_pdb_short_buffer mem src_size :
  src_size <= length mem ->
  src_size < 26 ->
  Scanner.read_pdb mem src_size = Scanner.Done None.
Proof.
  intros Hmem Hshort. unfold Scanner.read_pdb.
  destruct (Nat.leb_spec src_size (length mem)) as [_|]; [|lia].
  simpl. unfold Scanner.read_pdb_iter.
  destruct (Scanner.search mem 0 src_size Scanner.rsds_magic) as [rsds|];
    [|done].
  cbv zeta.
  destruct (Nat.ltb_spec (src_size - rsds) (4 + 16 + 4 + 2)) as [|Hge];
    [done|simpl in Hge; lia].
Qed.

Lemma read_pdb_short_buffer_witness :
  Scanner.read_pdb Samples.empty_name 25 = Scanner.Done None.
Proof.
  apply read_pdb_short_buffer.
  - vm_compute. lia.
  - lia.
Defined.

(** X14: a buffer that does not hold the byte 'R' holds no marker, and the
    scan fails without looking behind the buffer. *)
Theorem read_pdb_no_marker mem src_size :
  src_size <= length mem ->
  Forall (fun b => b <> 82%Z) (take src_size mem) ->
  Scanner.read_pdb mem src_size = Scanner.Done None /\
  forall beyond,
    Scanner.read_pdb (take src_size mem ++ beyond) src_size
      = Scanner.Done None.
Proof.
  intros Hmem Hno.
  assert (H : forall m, src_size <= length m ->
                        take src_size m = take src_size mem ->
                        Scanner.read_pdb m src_size = Scanner.Done None).
  { intros m Hm Hsame. unfold Scanner.read_pdb.
    destruct (Nat.leb_spec src_size (length m)) as [_|]; [|lia].
    simpl. unfold Scanner.read_pdb_iter, Scanner.search.
    rewrite Nat.sub_0_r. change (drop 0 m) with m. rewrite Hsame.
    by rewrite (find_sub_none _ Hno). }
  split; [by apply H|].
  intros beyond. apply H.
  - rewrite length_app, length_take. lia.
  - rewrite take_app_le by (rewrite length_take; lia).
    rewrite take_take. f_equal. lia.
Qed.

Lemma read_pdb_no_marker_witness :
  Scanner.read_pdb (repeat 65%Z 40) 40 = Scanner.Done None.
Proof.
  apply read_pdb_no_marker.
  - vm_compute. lia.
  - vm_compute. repeat constructor; discriminate.
Defined.

(** A record behind bytes that hold no 'R' is the first candidate, and it
    is accepted. *)
Lemma read_pdb_record_at (pre g : list Z) (a0 a1 a2 a3 : Z)
    (nm beyond : list Z) :
  Forall (fun b => b <> 82%Z) pre ->
  length g = 16 ->
  Forall Scanner.is_byte g ->
  Forall Scanner.is_byte [a0; a1; a2; a3] ->
  nm <> [] ->
  Forall (fun b => Scanner.isprint b = true) nm ->
  Scanner.read_pdb
    (pre ++ (Scanner.rsds_magic ++ g ++ [a0; a1; a2; a3] ++ nm ++ [0%Z])
         ++ beyond)
    (length pre
     + length (Scanner.rsds_magic ++ g ++ [a0; a1; a2; a3] ++ nm ++ [0%Z]))
  = Scanner.Done
      (Some (Scanner.mk_ctx
               (Scanner.hex_convert (Scanner.guid_big_endian g)
                +:+ Scanner.to_string
                      (a0 + 256 * a1 + 65536 * a2 + 16777216 * a3))
               (Scanner.string_of_bytes nm))).
Proof.
  intros Hpre Hlen Hg Ha Hne Hprint.
  assert (Hnz : Forall (fun b => b <> 0%Z) nm).
  { eapply Forall_impl; [exact Hprint|]. simpl. intros b Hb ->. done. }
  assert (Hall : forallb Scanner.isprint nm = true).
  { apply forallb_forall. intros b Hb. rewrite Forall_forall in Hprint.
    apply Hprint. by apply list_elem_of_In. }
  do 17 (destruct g as [|? g]; try discriminate).
  repeat (apply Forall_cons in Hg as [? Hg]).
  repeat (apply Forall_cons in Ha as [? Ha]).
  set (body := [82; 83; 68; 83; z; z0; z1; z2; z3; z4; z5; z6; z7; z8; z9;
                z10; z11; z12; z13; z14; a0; a1; a2; a3]%Z).
  set (rec := Scanner.rsds_magic ++ _).
  set (mem := pre ++ rec ++ beyond).
  set (end_ := length pre + length rec).
  assert (Hrec : rec = body ++ nm ++ [0%Z]) by reflexivity.
  assert (Hlrec : length rec = 25 + length nm).
  { rewrite Hrec, !length_app. simpl. lia. }
  assert (Hshape : mem = (pre ++ body) ++ nm ++ 0%Z :: beyond).
  { subst mem. rewrite Hrec. by rewrite <- !app_assoc. }
  assert (Hmem : end_ <= length mem).
  { subst mem end_. rewrite !length_app. lia. }
  assert (Hne' : 0 < length nm) by (destruct nm; [done|simpl; lia]).
  assert (Hsearch : Scanner.search mem 0 end_ Scanner.rsds_magic
                    = Some (length pre)).
  { unfold Scanner.search. rewrite Nat.sub_0_r. change (drop 0 mem) with mem.
    subst mem end_. rewrite app_assoc.
    rewrite take_app_length' by (by rewrite length_app).
    subst rec. by rewrite find_sub_skip. }
  assert (Hchr : Scanner.memchr mem (length pre + 24) 0 (end_ - length pre)
                 = Ret (Some (length pre + 24 + length nm))).
  { rewrite Hshape.
    replace (length pre + 24) with (length (pre ++ body))
      by (rewrite length_app; reflexivity).
    apply memchr_found; [done|]. subst end_. lia. }
  unfold Scanner.read_pdb.
  destruct (Nat.leb_spec end_ (length mem)) as [_|]; [|lia].
  simpl Scanner.read_pdb_loop.
  rewrite (read_pdb_iter_candidate mem 0 end_ (length pre) _ Hmem Hsearch
             ltac:(subst end_; lia) Hchr).
  cbv zeta.
  replace (length pre + 24 + length nm - (length pre + 24)) with (length nm)
    by lia.
  assert (Hdrop : forall k, drop (length pre + k) mem
                            = drop k (body ++ nm ++ 0%Z :: beyond)).
  { intros k. subst mem. rewrite Hrec, <- !app_assoc. apply drop_app_add. }
  rewrite !Hdrop.
  change (drop 24 (body ++ nm ++ 0%Z :: beyond)) with (nm ++ 0%Z :: beyond).
  rewrite take_app_length, Hall.
  do 2 f_equal. f_equal.
  subst body. cbn [drop take app].
  rewrite write_be32_read_le32, !write_be16_read_le16, le_value_4 by done.
  reflexivity.
Qed.

(** X15: bytes in front of a record do not hide it. When the buffer is any
    run of bytes other than 'R', followed by the marker, a 16-byte
    identifier, a 4-byte age and a printable name of at least one character
    with its terminator, the scanner returns the identifier string and the
    name of that record, whatever lies behind the buffer. *)
Theorem read_pdb_skips_prefix (pre g : list Z) (a0 a1 a2 a3 : Z)
    (nm beyond : list Z) :
  Forall (fun b => b <> 82%Z) pre ->
  length g = 16 ->
  Forall Scanner.is_byte g ->
  Forall Scanner.is_byte [a0; a1; a2; a3] ->
  nm <> [] ->
  Forall (fun b => Scanner.isprint b = true) nm ->
  let buf := pre ++ Scanner.rsds_magic ++ g ++ [a0; a1; a2; a3]
                 ++ nm ++ [0%Z] in
  Scanner.read_pdb (buf ++ beyond) (length buf)
  = Scanner.Done
      (Some (Scanner.mk_ctx
               (Scanner.hex_convert (Scanner.guid_big_endian g)
                +:+ Scanner.to_string
                      (a0 + 256 * a1 + 65536 * a2 + 16777216 * a3))
               (Scanner.string_of_bytes nm))).
Proof.
  intros Hpre Hlen Hg Ha Hne Hprint buf.
  pose proof (read_pdb_record_at pre g a0 a1 a2 a3 nm beyond
                Hpre Hlen Hg Ha Hne Hprint) as H.
  subst buf. rewrite (length_app pre), <- (app_assoc pre). exact H.
Qed.

Lemma read_pdb_skips_prefix_witness :
  Scanner.read_pdb ([77; 90; 0; 0]%Z ++ Samples.well_formed)
                   (4 + length Samples.well_formed)
    = Scanner.Done
        (Some (Scanner.mk_ctx "67452301AB89EFCD1032547698BADCFE300" "foo.pdb")).
Proof.
  pose proof (read_pdb_skips_prefix [77; 90; 0; 0]%Z Samples.sample_guid
                44 1 0 0 Samples.foo_pdb []) as H.
  cbv zeta in H. rewrite app_nil_r in H. apply H.
  - repeat constructor; discriminate.
  - reflexivity.
  - unfold Scanner.is_byte. repeat constructor; lia.
  - unfold Scanner.is_byte. repeat constructor; lia.
  - discriminate.
  - repeat constructor.
Defined.

Section ScanSound.
Import Scanner.

(** The candidate behind a result of the loop. *)
Lemma read_pdb_loop_sound fuel mem src end_ ctx :
  end_ <= length mem ->
  read_pdb_loop fuel mem src end_ = Done (Some ctx) ->
  exists rsds name_end,
    take 4 (drop rsds mem) = rsds_magic /\
    src <= rsds /\ 26 <= end_ - rsds /\
    memchr mem (rsds + 24) 0 (end_ - rsds) = Ret (Some name_end) /\
    forallb isprint (take (name_end - (rsds + 24)) (drop (rsds + 24) mem))
      = true /\
    ctx = mk_ctx
            (hex_convert
               (write_be32 (le_value (take 4 (drop (rsds + 4) mem)))
                ++ write_be16 (le_value (take 2 (drop (rsds + 8) mem)))
                ++ write_be16 (le_value (take 2 (drop (rsds + 10) mem)))
                ++ take 8 (drop (rsds + 12) mem))
             +:+ to_string (le_value (take 4 (drop (rsds + 20) mem))))
            (string_of_bytes
               (take (name_end - (rsds + 24)) (drop (rsds + 24) mem))).
Proof.
  intros Hend. revert src.
  induction fuel as [|fuel IH]; intros src; simpl; [done|].
  destruct (read_pdb_iter mem src end_) as [[r|src']|] eqn:E; [| |done].
  - intros [= ->]. unfold read_pdb_iter in E.
    destruct (search mem src end_ rsds_magic) as [rsds|] eqn:Hs; [|done].
    cbv zeta in E.
    destruct (Nat.ltb_spec (end_ - rsds) (4 + 16 + 4 + 2)) as [|Hge];
      [done|]. simpl in Hge.
    change (4 + 16 + 4) with 24 in E.
    destruct (memchr mem (rsds + 24) 0 (end_ - rsds)) as [[name_end|]|]
      eqn:Hchr; [| |done].
    + assert (Hiter : read_pdb_iter mem src end_ = Ret (Return (Some ctx))).
      { unfold read_pdb_iter. rewrite Hs. cbv zeta.
        destruct (Nat.ltb_spec (end_ - rsds) (4 + 16 + 4 + 2)) as [Hlt|_];
          [simpl in Hlt; lia|].
        change (4 + 16 + 4) with 24. rewrite Hchr. exact E. }
      rewrite (read_pdb_iter_candidate _ _ _ _ _ Hend Hs Hge Hchr) in Hiter.
      cbv zeta in Hiter.
      destruct (forallb isprint _) eqn:Hall; [|done].
      injection Hiter as <-.
      destruct (search_sound _ _ _ _ Hs) as (Hsrc & _ & Hm).
      exists rsds, name_end. repeat split; done.
    + done.
  - intros H. destruct (IH _ H) as (rsds & ne & H1 & H2 & Hrest).
    apply read_pdb_iter_progress in E.
    exists rsds, ne. repeat split; try tauto. lia.
Qed.
End ScanSound.

(** X16: a result of the scanner always comes from a marker in the buffer.
    When [read_pdb] succeeds there is an offset, at least 26 bytes before
    the end of the buffer, at which the four bytes "RSDS" stand, so that
    the marker, the identifier and the age lie inside the buffer. The name
    returned is made of the bytes from 24 bytes behind that offset up to the
    first zero byte, all of them printable. That zero byte lies inside the
    buffer when the buffer holds a zero byte behind the 24 bytes, and less
    than 24 bytes behind the end of the buffer otherwise: the name itself
    can run past the end. The identifier string is 32 characters followed
    by the decimal value of the four bytes at 20 bytes behind the marker,
    read little-endian. *)
Theorem read_pdb_result_sound mem src_size ctx :
  Scanner.read_pdb mem src_size = Scanner.Done (Some ctx) ->
  exists rsds name_end,
    rsds + 26 <= src_size /\
    take 4 (drop rsds mem) = Scanner.rsds_magic /\
    rsds + 24 <= name_end < src_size + 24 /\
    mem !! name_end = Some 0%Z /\
    (forall z, rsds + 24 <= z < src_size -> mem !! z = Some 0%Z ->
       name_end <= z) /\
    (forall i, rsds + 24 <= i < name_end ->
       exists b, mem !! i = Some b /\ b <> 0%Z /\ Scanner.isprint b = true) /\
    Scanner.name ctx
      = Scanner.string_of_bytes
          (take (name_end - (rsds + 24)) (drop (rsds + 24) mem)) /\
    exists hex,
      String.length hex = 32 /\
      Scanner.guid ctx
        = (hex +:+ Scanner.to_string
                     (Scanner.le_value (take 4 (drop (rsds + 20) mem))))%string.
Proof.
  unfold Scanner.read_pdb.
  destruct (Nat.leb_spec src_size (length mem)) as [Hmem|]; [|done].
  intros H.
  destruct (read_pdb_loop_sound _ _ _ _ _ Hmem H)
    as (rsds & name_end & Hmagic & _ & Hsize & Hchr & Hall & ->).
  destruct (memchr_Some _ _ _ _ _ Hchr) as (Hq & Hz & Hbefore).
  exists rsds, name_end.
  split; [lia|]. split; [done|]. split; [lia|]. split; [done|].
  split; [|split; [|split; [done|]]].
  - intros z Hzr Hzero. destruct (Nat.le_gt_cases name_end z) as [|Hlt]; [done|].
    destruct (Hbefore z ltac:(lia)) as (b & Hb & Hnz). congruence.
  - intros i Hi. destruct (Hbefore i Hi) as (b & Hb & Hnz).
    exists b. split; [done|]. split; [done|].
    rewrite forallb_forall in Hall. apply Hall.
    apply list_elem_of_In.
    apply (list_elem_of_lookup_2 _ (i - (rsds + 24))).
    rewrite lookup_take_lt by lia. rewrite lookup_drop.
    by replace (rsds + 24 + (i - (rsds + 24))) with i by lia.
  - eexists. split; [|reflexivity]. simpl Scanner.guid.
    rewrite hex_convert_length, !length_app, length_take, length_drop.
    unfold Scanner.write_be32, Scanner.write_be16. cbn [length]. lia.
Qed.

Lemma read_pdb_result_sound_witness :
  exists rsds name_end,
    rsds + 26 <= length Samples.bad_then_good /\
    take 4 (drop rsds Samples.bad_then_good) = Scanner.rsds_magic /\
    Samples.bad_then_good !! name_end = Some 0%Z.
Proof.
  destruct (read_pdb_result_sound Samples.bad_then_good
              (length Samples.bad_then_good)
              (Scanner.mk_ctx "67452301AB89EFCD1032547698BADCFE300" "foo.pdb")
              eq_refl)
    as (rsds & name_end & H1 & H2 & _ & H3 & _).
  exists rsds, name_end. auto.
Defined.

(** ** Resolvers made from a raw image *)



(** ** The DWARF resolver: construction *)

Section DwarfSetup.
Import Dwarf.

Lemma read_cu_loop_eq hs e acc :
  read_cu_loop hs e acc =
    if cu_failed hs || e then None else Some (acc ++ cu_dies hs).
Proof.
  revert acc. induction hs as [|[die| |] hs IH]; intros acc; simpl.
  - destruct e; [done|]. by rewrite app_nil_r.
  - rewrite IH. destruct (cu_failed hs || e); [done|].
    by rewrite <- app_assoc.
  - apply IH.
  - done.
Qed.

Lemma setup_fold cu acc :
  fold_left (fun acc die =>
               match read_children die with
               | Some children => acc ++ children
               | None => acc
               end) cu acc
  = acc ++ flat_map children_of cu.
Proof.
  revert acc. induction cu as [|die cu IH]; intros acc; simpl.
  - by rewrite app_nil_r.
  - rewrite IH. unfold children_of.
    destruct (read_children die); [by rewrite <- app_assoc|done].
Qed.
End DwarfSetup.

(** X18: [make_dwarf] gives a resolver exactly when the symbol path is set,
    the file opens, neither a compilation-unit header nor a first DIE
    answers with an error, and the compilation units have at least one
    child between them; the structures of the resolver are then the
    children of the compilation units whose children can be read, in the
    order of the file. *)
Theorem make_dwarf_structures sp path file p :
  Dwarf.make_dwarf sp path file = Some p <->
  path <> None /\
  Dwarf.init_path file = Dwarf.DW_DLV_OK tt /\
  Dwarf.cu_failed (Dwarf.cu_headers file) = false /\
  Dwarf.cu_error file = false /\
  flat_map Dwarf.children_of (Dwarf.cu_dies (Dwarf.cu_headers file)) <> [] /\
  p = Dwarf.mk_dwarf file
        (flat_map Dwarf.children_of (Dwarf.cu_dies (Dwarf.cu_headers file))).
Proof.
  unfold Dwarf.make_dwarf, Dwarf.setup, Dwarf.open_file, Dwarf.read_cu.
  simpl. rewrite read_cu_loop_eq. simpl.
  destruct path as [path|]; [|split; [done|by intros [H _]]].
  destruct (Dwarf.init_path file) as [[]| |]; simpl;
    [|split; [done|by intros (_ & H & _)]..].
  destruct (Dwarf.cu_failed (Dwarf.cu_headers file)); simpl;
    [split; [done|by intros (_ & _ & H & _)]|].
  destruct (Dwarf.cu_error file); simpl;
    [split; [done|by intros (_ & _ & _ & H & _)]|].
  destruct (Dwarf.cu_dies (Dwarf.cu_headers file)) as [|die cu] eqn:Ecu.
  - simpl. split; [done|]. by intros (_ & _ & _ & _ & H & _).
  - rewrite setup_fold.
    change ([] ++ flat_map Dwarf.children_of (die :: cu))
      with (flat_map Dwarf.children_of (die :: cu)).
    destruct (flat_map Dwarf.children_of (die :: cu)) as [|s l] eqn:Ef.
    + split; [done|]. by intros (_ & _ & _ & _ & H & _).
    + split.
      * intros [= <-]. repeat split; done.
      * intros (_ & _ & _ & _ & _ & ->). done.
Qed.

(** ** The DWARF resolver: what a search returns *)

Section DwarfSearch.
Import Dwarf.

Lemma get_structure_turn_sound n :
  forall d, die_size d < n ->
  forall name pass r,
    get_structure_turn name pass d = Some r -> diename r = DW_DLV_OK name.
Proof.
  induction n as [|n IH]; intros d Hd name pass r; [lia|].
  rewrite get_structure_turn_eq.
  destruct (if pass then _ else None) as [child|] eqn:Ethrough.
  - intros [= <-]. destruct pass; [|done].
    destruct (diename d) as [| |]; try done.
    destruct (dietype d) as [[a| |]| |] eqn:Ety; try done.
    destruct (read_children a) as [cs|] eqn:Ecs; [|done].
    apply first_some_Some in Ethrough as (c & Hin & Hc).
    apply (IH c) in Hc; [done|].
    pose proof (die_size_type _ _ Ety).
    pose proof (die_size_child _ _ _ Ecs Hin). lia.
  - destruct (diename d) as [nm| |] eqn:En; try done.
    destruct (String.eqb_spec nm name) as [->|]; [|done].
    by intros [= <-].
Qed.

Lemma get_structure_sound name coll pass r :
  get_structure name coll pass = Some r -> diename r = DW_DLV_OK name.
Proof.
  intros H. apply first_some_Some in H as (d & _ & Hd).
  by apply (get_structure_turn_sound (S (die_size d)) d ltac:(lia)) in Hd.
Qed.

(** Over DIEs that all have a name, with or without looking through
    anonymous members, the search is the plain search for the first DIE of
    that name. *)
Lemma get_structure_named name coll pass :
  (pass = false \/ forall d, In d coll -> exists n, diename d = DW_DLV_OK n) ->
  get_structure name coll pass = List.find (has_name name) coll.
Proof.
  intros H. induction coll as [|d coll IH]; [done|].
  rewrite get_structure_cons. simpl. unfold has_name at 1.
  assert (Hturn : get_structure_turn name pass d =
                  match diename d with
                  | DW_DLV_OK n => if String.eqb n name then Some d else None
                  | _ => None
                  end).
  { rewrite get_structure_turn_eq. destruct H as [->|H]; [done|].
    destruct (H d (or_introl eq_refl)) as [n ->]. by destruct pass. }
  rewrite Hturn.
  assert (IH' : get_structure name coll pass = List.find (has_name name) coll).
  { apply IH. destruct H as [->|H]; [by left|right]. intros; apply H; by right. }
  destruct (diename d) as [n| |]; [|done..].
  by destruct (String.eqb n name).
Qed.

Lemma find_perm {A : Type} (f : A -> bool) (l l' : list A) :
  Permutation l l' ->
  (forall x y, In x l -> In y l -> f x = true -> f y = true -> x = y) ->
  List.find f l = List.find f l'.
Proof.
  intros Hperm Huniq.
  destruct (List.find f l) as [x|] eqn:E.
  - apply List.find_some in E as [Hin Hx].
    destruct (List.find f l') as [y|] eqn:E'.
    + apply List.find_some in E' as [Hin' Hy]. f_equal. symmetry.
      apply Huniq; try done.
      apply (Permutation_in _ (Permutation_sym Hperm) Hin').
    + pose proof (List.find_none _ _ E' x
                    (Permutation_in _ Hperm Hin)) as Hf.
      congruence.
  - destruct (List.find f l') as [y|] eqn:E'; [|done].
    apply List.find_some in E' as [Hin' Hy].
    pose proof (List.find_none _ _ E y
                  (Permutation_in _ (Permutation_sym Hperm) Hin')) as Hf.
    congruence.
Qed.

Lemma get_attr_member_location_range die v :
  get_attr_member_location die = Some v -> (0 <= v < 2 ^ 64)%Z.
Proof.
  assert (Hr : forall z, (0 <= u64 z < 2 ^ 64)%Z).
  { intros z. unfold u64. apply Z.mod_pos_bound. lia. }
  unfold get_attr_member_location.
  repeat case_match; try done; intros [= <-]; apply Hr.
Qed.
End DwarfSearch.

(** X19: the search for a structure among the top-level DIEs, which does not
    look through anonymous DIEs, returns the first DIE of that name,
    whatever else the DIE is, and is not-found exactly when no top-level DIE
    has the name; the size query answers with the byte size of that first
    DIE, and is not-found when that DIE has none even if a later DIE of the
    same name has one. *)
Theorem get_structure_top_level name coll :
  Dwarf.get_structure name coll false
    = List.find (Dwarf.has_name name) coll /\
  (Dwarf.get_structure name coll false = None <->
   forall d, In d coll -> Dwarf.diename d <> Dwarf.DW_DLV_OK name) /\
  (forall p l1 d l2,
     Dwarf.structures p = l1 ++ d :: l2 ->
     Dwarf.diename d = Dwarf.DW_DLV_OK name ->
     (forall x, In x l1 -> Dwarf.diename x <> Dwarf.DW_DLV_OK name) ->
     Dwarf.struc_size p name = Dwarf.struc_size_internal d).
Proof.
  assert (Hfind : forall c, Dwarf.get_structure name c false
                            = List.find (Dwarf.has_name name) c).
  { intros c. apply get_structure_named. by left. }
  assert (Hname : forall d, Dwarf.has_name name d = true <->
                            Dwarf.diename d = Dwarf.DW_DLV_OK name).
  { intros d. unfold Dwarf.has_name. destruct (Dwarf.diename d) as [n| |].
    - rewrite String.eqb_eq. split; [by intros ->|by intros [= ->]].
    - split; done.
    - split; done. }
  split; [apply Hfind|]. split.
  - rewrite Hfind. split.
    + intros Hnone d Hin Hd. apply Hname in Hd.
      by rewrite (List.find_none _ _ Hnone d Hin) in Hd.
    + intros Hall. destruct (List.find _ coll) as [d|] eqn:E; [|done].
      apply List.find_some in E as [Hin Hd]. apply Hname in Hd.
      by destruct (Hall d Hin).
  - intros p l1 d l2 Hst Hd Hl1. unfold Dwarf.struc_size.
    rewrite Hfind, Hst, (find_first _ l1 l2 d); [done| |by apply Hname].
    intros x Hx. destruct (Dwarf.has_name name x) eqn:E; [|done].
    apply Hname in E. by destruct (Hl1 x Hx).
Qed.

(** X20: a DIE that a search returns always has the name that was searched
    for, also when it was found through anonymous members at any depth; and
    a search is never not-found when one of the DIEs it is given has the
    name. *)
Theorem get_structure_returns_name name coll pass :
  (forall r,
     Dwarf.get_structure name coll pass = Some r ->
     Dwarf.diename r = Dwarf.DW_DLV_OK name) /\
  (forall d,
     In d coll -> Dwarf.diename d = Dwarf.DW_DLV_OK name ->
     Dwarf.get_structure name coll pass <> None).
Proof.
  split; [intros r; apply get_structure_sound|].
  intros d Hin Hd. induction coll as [|x coll IH]; [done|].
  rewrite get_structure_cons.
  destruct (Dwarf.get_structure_turn name pass x) as [r|] eqn:E; [done|].
  destruct Hin as [->|Hin]; [|by apply IH].
  rewrite (get_structure_turn_named _ _ _ _ Hd), String.eqb_refl in E. done.
Qed.

(** X21: what the DWARF resolver answers comes from DIEs of the names that
    were asked for, the member under the structure. [struc_offset] answers
    [o] exactly when the first top-level DIE named as the structure has
    children that can be read and, among its members in their order, those
    of anonymous members read in their place, the first DIE named as the
    member has the location [o]; such an offset is below 2^64. [struc_size]
    answers [sz] exactly when that first top-level DIE has the byte size
    [sz]. When no top-level DIE has the name, both queries are not-found. *)
Theorem dwarf_answers_named p struc member :
  (forall o,
     Dwarf.struc_offset p struc member = Some o <->
     exists st cs child,
       List.find (Dwarf.has_name struc) (Dwarf.structures p) = Some st /\
       Dwarf.read_children st = Some cs /\
       List.find (Dwarf.has_name member) (Dwarf.members cs) = Some child /\
       Dwarf.get_attr_member_location child = Some o) /\
  (forall o,
     Dwarf.struc_offset p struc member = Some o ->
     (0 <= o < 2 ^ 64)%Z /\
     exists st cs child,
       In st (Dwarf.structures p) /\
       Dwarf.diename st = Dwarf.DW_DLV_OK struc /\
       Dwarf.read_children st = Some cs /\
       In child (Dwarf.members cs) /\
       Dwarf.diename child = Dwarf.DW_DLV_OK member /\
       Dwarf.get_attr_member_location child = Some o) /\
  (forall sz,
     Dwarf.struc_size p struc = Some sz <->
     exists st,
       List.find (Dwarf.has_name struc) (Dwarf.structures p) = Some st /\
       Dwarf.bytesize st = Dwarf.DW_DLV_OK sz) /\
  (forall sz,
     Dwarf.struc_size p struc = Some sz ->
     exists st,
       In st (Dwarf.structures p) /\
       Dwarf.diename st = Dwarf.DW_DLV_OK struc /\
       Dwarf.bytesize st = Dwarf.DW_DLV_OK sz) /\
  ((forall d, In d (Dwarf.structures p) ->
              Dwarf.diename d <> Dwarf.DW_DLV_OK struc) ->
   Dwarf.struc_offset p struc member = None /\
   Dwarf.struc_size p struc = None).
Proof.
  assert (Hname : forall n d, Dwarf.has_name n d = true ->
                              Dwarf.diename d = Dwarf.DW_DLV_OK n).
  { intros n d. unfold Dwarf.has_name.
    destruct (Dwarf.diename d) as [n'| |]; try done.
    by intros ->%String.eqb_eq. }
  assert (Hoff : forall o,
    Dwarf.struc_offset p struc member = Some o <->
    exists st cs child,
      List.find (Dwarf.has_name struc) (Dwarf.structures p) = Some st /\
      Dwarf.read_children st = Some cs /\
      List.find (Dwarf.has_name member) (Dwarf.members cs) = Some child /\
      Dwarf.get_attr_member_location child = Some o).
  { intros o. unfold Dwarf.struc_offset.
    rewrite get_structure_named by (by left).
    destruct (List.find (Dwarf.has_name struc) (Dwarf.structures p))
      as [st|]; [|split; [done|by intros (? & ? & ? & ? & _)]].
    destruct (Dwarf.read_children st) as [cs|] eqn:Ecs.
    - rewrite get_structure_members.
      destruct (List.find (Dwarf.has_name member) (Dwarf.members cs))
        as [child|] eqn:Ec.
      + split.
        * intros Ho. exists st, cs, child. by rewrite Ec.
        * intros (st' & cs' & child' & [= <-] & Hcs' & Hc' & Ho).
          rewrite Ecs in Hcs'. injection Hcs' as <-.
          rewrite Ec in Hc'. by injection Hc' as <-.
      + split; [done|].
        intros (st' & cs' & child' & [= <-] & Hcs' & Hc' & _).
        rewrite Ecs in Hcs'. injection Hcs' as <-. by rewrite Ec in Hc'.
    - split; [done|].
      intros (st' & cs' & child' & [= <-] & Hcs' & _). by rewrite Ecs in Hcs'. }
  assert (Hsz : forall sz,
    Dwarf.struc_size p struc = Some sz <->
    exists st,
      List.find (Dwarf.has_name struc) (Dwarf.structures p) = Some st /\
      Dwarf.bytesize st = Dwarf.DW_DLV_OK sz).
  { intros sz. unfold Dwarf.struc_size, Dwarf.struc_size_internal.
    rewrite get_structure_named by (by left).
    destruct (List.find (Dwarf.has_name struc) (Dwarf.structures p))
      as [st|]; [|split; [done|by intros (? & ? & _)]].
    split.
    - destruct (Dwarf.bytesize st) as [sz'| |] eqn:Eb; try done.
      intros [= <-]. by exists st.
    - intros (st' & [= <-] & ->). done. }
  split; [exact Hoff|]. split; [|split; [exact Hsz|split]].
  - intros o Ho. split.
    + unfold Dwarf.struc_offset in Ho.
      repeat case_match; try done.
      by eapply get_attr_member_location_range.
    + apply Hoff in Ho as (st & cs & child & Hst & Hcs & Hc & Ho).
      apply List.find_some in Hst as [Hin Hn], Hc as [Hinc Hnc].
      exists st, cs, child. repeat split; auto.
  - intros sz (st & Hst & Hb)%Hsz.
    apply List.find_some in Hst as [Hin Hn]. exists st. auto.
  - intros Hnone.
    assert (E : List.find (Dwarf.has_name struc) (Dwarf.structures p) = None).
    { destruct (List.find _ _) as [st|] eqn:E; [|done].
      apply List.find_some in E as [Hin Hn]. by destruct (Hnone st Hin); auto. }
    unfold Dwarf.struc_offset, Dwarf.struc_size.
    rewrite get_structure_named by (by left). by rewrite E.
Qed.

(** X22: when the members of a structure all have a name and the names are
    pairwise distinct, the offset returned for a member does not depend on
    the order in which the members are listed. *)
Theorem dwarf_struc_offset_reorder p p' struc st st' cs cs' member :
  Dwarf.get_structure struc (Dwarf.structures p) false = Some st ->
  Dwarf.get_structure struc (Dwarf.structures p') false = Some st' ->
  Dwarf.read_children st = Some cs ->
  Dwarf.read_children st' = Some cs' ->
  Permutation cs cs' ->
  (forall c, In c cs -> exists n, Dwarf.diename c = Dwarf.DW_DLV_OK n) ->
  NoDup (map Dwarf.diename cs) ->
  Dwarf.struc_offset p struc member = Dwarf.struc_offset p' struc member.
Proof.
  intros Hst Hst' Hcs Hcs' Hperm Hnamed Hnd.
  unfold Dwarf.struc_offset. rewrite Hst, Hst', Hcs, Hcs'.
  assert (Hnamed' : forall c, In c cs' ->
                              exists n, Dwarf.diename c = Dwarf.DW_DLV_OK n).
  { intros c Hc. apply Hnamed.
    apply (Permutation_in _ (Permutation_sym Hperm) Hc). }
  rewrite !get_structure_named by (by right).
  rewrite (find_perm (Dwarf.has_name member) cs cs' Hperm); [done|].
  intros x y Hx Hy Hfx Hfy.
  assert (E : Dwarf.diename x = Dwarf.diename y).
  { unfold Dwarf.has_name in Hfx, Hfy.
    destruct (Dwarf.diename x) as [nx| |]; try done.
    destruct (Dwarf.diename y) as [ny| |]; try done.
    apply String.eqb_eq in Hfx, Hfy. congruence. }
  apply list_elem_of_In in Hx, Hy.
  apply list_elem_of_lookup_1 in Hx as [i Hi], Hy as [j Hj].
  assert (i = j); [|congruence].
  eapply (NoDup_lookup (map Dwarf.diename cs) i j (Dwarf.diename x)); [done| |].
  - by rewrite list_lookup_fmap, Hi.
  - by rewrite list_lookup_fmap, Hj, E.
Qed.

Lemma dwarf_struc_offset_reorder_witness :
  Dwarf.struc_offset (Dwarf.mk_dwarf Samples.elf [Samples.point]) "point" "y"
  = Dwarf.struc_offset (Dwarf.mk_dwarf Samples.elf [Samples.point_swapped])
                       "point" "y".
Proof.
  apply (dwarf_struc_offset_reorder _ _ "point"
           Samples.point Samples.point_swapped
           [Samples.member "x" 0; Samples.member "y" 4]
           [Samples.member "y" 4; Samples.member "x" 0]);
    try reflexivity.
  - apply perm_swap.
  - intros c [<-|[<-|[]]]; eexists; reflexivity.
  - repeat constructor; rewrite ?list_elem_of_In; simpl;
      intuition discriminate.
Defined.

Lemma pdb_struc_offset_first_witness :
  PdbStruc.struc_offset (Samples.types_of Samples.eprocess)
                        "_EPROCESS" "UniqueProcessId"
  = Some 0x2e0%Z.
Proof.
  destruct (pdb_struc_offset_first (Samples.types_of Samples.eprocess)
              "_EPROCESS" Samples.eprocess "UniqueProcessId" eq_refl)
    as [Hfirst _].
  apply (Hfirst [PdbStruc.mk_member "Pcb" 0]
                (PdbStruc.mk_member "UniqueProcessId" 0x2e0)
                [PdbStruc.mk_member "ImageFileName" 0x450]).
  - reflexivity.
  - reflexivity.
  - intros x [<-|[]]. discriminate.
Defined.

Lemma pdb_struc_offset_reorder_witness :
  PdbStruc.struc_offset (Samples.types_of Samples.eprocess)
                        "_EPROCESS" "Pcb"
  = PdbStruc.struc_offset (Samples.types_of Samples.eprocess_shuffled)
                          "_EPROCESS" "Pcb".
Proof.
  apply (pdb_struc_offset_reorder _ _ "_EPROCESS"
           Samples.eprocess Samples.eprocess_shuffled);
    try reflexivity.
  - simpl. apply Permutation_sym.
    apply (Permutation_cons_app [_; _] [] _). reflexivity.
  - repeat constructor; rewrite ?list_elem_of_In; simpl;
      intuition discriminate.
Defined.

(** ** Nothing is lost when keys are distinct *)

Section IndexSizes.
Import Pdb.

Lemma emplace_length_absent {V : Type} k (v : V) (m : OrderedMap.t V) :
  OrderedMap.find k m = None ->
  length (OrderedMap.emplace k v m) = S (length m).
Proof.
  induction m as [|[k' v'] m IH]; simpl; [done|].
  destruct (k <? k')%Z; [done|].
  destruct (k =? k')%Z; [done|]. intros H. simpl. by rewrite IH.
Qed.

Lemma by_offset_length gs p :
  OrderedMap.sorted (symbols_by_offset p) ->
  NoDup (map (offset_in (span_ p)) gs) ->
  (forall g, In g gs ->
     OrderedMap.find (offset_in (span_ p) g) (symbols_by_offset p) = None) ->
  length (symbols_by_offset (fold_left setup_insert gs p))
    = length (symbols_by_offset p) + length gs.
Proof.
  revert p. induction gs as [|g gs IH]; intros p Hs Hnd Hfree; simpl; [lia|].
  apply NoDup_cons in Hnd as [Hg Hnd].
  rewrite IH; simpl.
  - unfold get_offset. rewrite emplace_length_absent; [lia|].
    apply Hfree. by left.
  - by apply sorted_emplace.
  - done.
  - intros g' Hin. rewrite find_emplace by done. unfold get_offset.
    destruct (Z.eqb_spec (offset_in (span_ p) g') (offset_in (span_ p) g))
      as [E|_]; [|apply Hfree; by right].
    exfalso. apply Hg. rewrite <- E. apply list_elem_of_In. by apply in_map.
Qed.

Lemma symbols_size gs p :
  NoDup (map name gs) ->
  (forall g, In g gs -> symbols_ p !! name g = None) ->
  base.size (symbols_ (fold_left setup_insert gs p))
    = base.size (symbols_ p) + length gs.
Proof.
  revert p. induction gs as [|g gs IH]; intros p Hnd Hfree; simpl; [lia|].
  apply NoDup_cons in Hnd as [Hg Hnd].
  assert (Hgfree : symbols_ p !! name g = None) by (apply Hfree; by left).
  rewrite IH; simpl.
  - unfold emplace. rewrite Hgfree, map_size_insert_None by done. lia.
  - done.
  - intros g' Hin. unfold emplace. rewrite Hgfree.
    rewrite lookup_insert_ne; [apply Hfree; by right|].
    intros E. apply Hg. rewrite E. apply list_elem_of_In. by apply in_map.
Qed.
End IndexSizes.

(** X23: [setup] loses no global variable whose key is its own: when the
    names are pairwise distinct the name table has as many entries as there
    are global variables, and when the runtime addresses are pairwise
    distinct so has the address table. *)
Theorem setup_keeps_distinct sp file p :
  Pdb.make_pdb sp file = Some p ->
  (NoDup (map Pdb.name (Pdb.get_global_variables file)) ->
   base.size (Pdb.symbols_ p) = length (Pdb.get_global_variables file)) /\
  (NoDup (map (Pdb.get_offset p) (Pdb.get_global_variables file)) ->
   length (Pdb.symbols_by_offset p)
     = length (Pdb.get_global_variables file)).
Proof.
  intros Hp. destruct (make_pdb_built _ _ _ Hp) as [_ Hfold].
  pose proof (built_span _ _ _ Hp) as Hsp. split.
  - intros Hnd. rewrite Hfold, symbols_size; [|done|done].
    simpl. by rewrite map_size_empty.
  - intros Hnd. rewrite Hfold, by_offset_length; [done|exact I| |done].
    simpl. unfold Pdb.get_offset in Hnd. by rewrite Hsp in Hnd.
Qed.

Lemma setup_keeps_distinct_witness :
  exists p,
    Pdb.make_pdb Samples.sample_span Samples.three_symbols = Some p /\
    base.size (Pdb.symbols_ p) = 3.
Proof.
  eexists. split; [reflexivity|].
  apply (setup_keeps_distinct Samples.sample_span Samples.three_symbols
           _ eq_refl).
  simpl. repeat constructor; rewrite ?list_elem_of_In; simpl;
    intuition discriminate.
Defined.

(** ** Reads of a terminated name *)

Lemma memchr_reads_bounded mem p n z :
  p <= z -> mem !! z = Some 0%Z ->
  Forall (fun j => p <= j <= z) (Scanner.memchr_reads mem p 0 n).
Proof.
  revert p. induction n as [|n IH]; intros p Hp Hz; simpl; [constructor|].
  destruct (mem !! p) as [b|] eqn:E.
  - destruct (Z.eqb_spec b 0) as [->|Hne].
    + repeat constructor; lia.
    + assert (p <> z) by (intros ->; congruence).
      constructor; [lia|].
      eapply Forall_impl; [apply (IH (S p)); [lia|done]|].
      simpl. intros; lia.
  - repeat constructor; lia.
Qed.

(** X24: for a candidate at [rsds] in a buffer that ends at [end_], the
    search for the terminator, [memchr] from [rsds + 24] over [end_ - rsds]
    bytes, stays inside the buffer whenever the buffer holds a zero byte
    behind the fixed prefix of the candidate: no offset before the end of
    the prefix and none from [end_] on is looked at, and the search finds a
    terminator inside the buffer. *)
Theorem memchr_inside_buffer mem end_ rsds z :
  rsds + 24 <= z < end_ ->
  mem !! z = Some 0%Z ->
  Forall (fun j => rsds + 24 <= j < end_)
         (Scanner.memchr_reads mem (rsds + 24) 0 (end_ - rsds)) /\
  exists name_end,
    Scanner.memchr mem (rsds + 24) 0 (end_ - rsds) = Ret (Some name_end) /\
    name_end <= z.
Proof.
  intros Hz Hzero. split.
  - eapply Forall_impl; [apply (memchr_reads_bounded mem _ _ z); [lia|done]|].
    simpl. intros; lia.
  - assert (H : forall n p, p <= z < p + n ->
      exists q, Scanner.memchr mem p 0 n = Ret (Some q) /\ q <= z).
    { induction n as [|n IH]; intros p Hp; [lia|]. simpl.
      destruct (decide (p = z)) as [->|Hne].
      - rewrite Hzero. simpl. eauto.
      - assert (Hlt : p < length mem).
        { apply lookup_lt_Some in Hzero. lia. }
        apply lookup_lt_is_Some in Hlt as [b Hb]. rewrite Hb.
        destruct (b =? 0)%Z; [exists p; split; [done|lia]|].
        apply IH. lia. }
    apply H. lia.
Qed.

Lemma memchr_inside_buffer_witness :
  Forall (fun j => 24 <= j < 32)
         (Scanner.memchr_reads Samples.well_formed 24 0 32).
Proof.
  apply (memchr_inside_buffer Samples.well_formed 32 0 31).
  - lia.
  - reflexivity.
Defined.
